(** * esmlab.statistics: weighted reductions over labelled arrays

    A shallow embedding of [src/esmlab/statistics.py]: the weight and
    dimension resolution of [_get_weights_and_dims] and the six operators
    built on it ([weighted_sum], [weighted_mean], [weighted_std],
    [weighted_rmsd], [weighted_cov], [weighted_corr]).

    Numbers.  The source computes in IEEE double precision.  The embedding
    keeps the four kinds of value a double can be (finite, the two
    infinities, NaN) and computes the finite part exactly, in [Q]: rounding,
    overflow, underflow and the sign of zero are left out, so an equation
    proved here is the equation that the source satisfies "within floating
    tolerance" as long as its numbers stay within the range of a double.
    A statement that depends on a result being exactly zero, or exactly
    one, carries bounds within which the exact computation and binary64
    agree.  [np.sqrt] on a finite non-negative number is a parameter,
    [sqrtQ].

    Arrays.  An [xr.DataArray] without coordinate labels: named axes, a
    shape, and the element at every assignment of an index to each axis
    name.  The operations of xarray that the source calls ([notnull],
    [where], [sum], arithmetic with broadcasting by axis name) are written
    out with the failures they have. *)

From Stdlib Require Import List String Bool Arith Lia ZArith QArith Qabs Lqa.
From Stdlib Require Import FunctionalExtensionality Setoid Morphisms.
Import ListNotations.

Local Open Scope string_scope.
Local Open Scope list_scope.
Local Open Scope Q_scope.

(** ** Floating-point values, computed exactly *)

Inductive fval : Type :=
| Fin (q : Q)
| PInf
| NInf
| NaN.

(** [np.isnan], [np.isfinite]. *)
Definition isnan (v : fval) : bool :=
  match v with NaN => true | _ => false end.

Definition isfinite (v : fval) : bool :=
  match v with Fin _ => true | _ => false end.

(** Sign of a finite number: [Lt], [Eq] or [Gt] against zero. *)
Definition sgn (q : Q) : comparison := q ?= 0.

Definition fneg (v : fval) : fval :=
  match v with
  | Fin q => Fin (- q)
  | PInf => NInf
  | NInf => PInf
  | NaN => NaN
  end.

Definition fadd (a b : fval) : fval :=
  match a, b with
  | NaN, _ | _, NaN => NaN
  | Fin p, Fin q => Fin (p + q)
  | PInf, NInf | NInf, PInf => NaN
  | PInf, _ | _, PInf => PInf
  | NInf, _ | _, NInf => NInf
  end.

Definition fsub (a b : fval) : fval := fadd a (fneg b).

(** An infinity with the sign of [c] times [pos]. *)
Definition inf_signed (c : comparison) (pos : bool) : fval :=
  match c with
  | Eq => NaN
  | Gt => if pos then PInf else NInf
  | Lt => if pos then NInf else PInf
  end.

Definition fmul (a b : fval) : fval :=
  match a, b with
  | NaN, _ | _, NaN => NaN
  | Fin p, Fin q => Fin (p * q)
  | Fin p, PInf | PInf, Fin p => inf_signed (sgn p) true
  | Fin p, NInf | NInf, Fin p => inf_signed (sgn p) false
  | PInf, PInf | NInf, NInf => PInf
  | PInf, NInf | NInf, PInf => NaN
  end.

(** Division: a finite number over zero is an infinity of its sign, and
    zero over zero and infinity over infinity are NaN. *)
Definition fdiv (a b : fval) : fval :=
  match a, b with
  | NaN, _ | _, NaN => NaN
  | Fin p, Fin q =>
      match sgn q with
      | Eq => inf_signed (sgn p) true
      | _ => Fin (p / q)
      end
  | Fin _, PInf | Fin _, NInf => Fin 0
  | PInf, Fin q => match sgn q with Lt => NInf | _ => PInf end
  | NInf, Fin q => match sgn q with Lt => PInf | _ => NInf end
  | PInf, PInf | PInf, NInf | NInf, PInf | NInf, NInf => NaN
  end.

(** [v ** 2]. *)
Definition fsquare (v : fval) : fval := fmul v v.

(** Equality of values up to equality of rationals. *)
Definition feq (a b : fval) : Prop :=
  match a, b with
  | Fin p, Fin q => p == q
  | PInf, PInf | NInf, NInf | NaN, NaN => True
  | _, _ => False
  end.

(** [np.nansum]: NaN counts as zero. *)
Definition nan_to_zero (v : fval) : fval :=
  match v with NaN => Fin 0 | _ => v end.

Definition nansum (l : list fval) : fval :=
  fold_left (fun acc v => fadd acc (nan_to_zero v)) l (Fin 0).

(** [np.testing.assert_allclose(actual, desired)] on one element, with
    its defaults [rtol = 1e-7], [atol = 0]: a NaN or an infinity never
    matches a finite [desired]. *)
Definition rtol : Q := 1 # 10000000.

Definition close_to (desired : Q) (actual : fval) : bool :=
  match actual with
  | Fin a => Qle_bool (Qabs (a - desired)) (rtol * Qabs desired)
  | _ => false
  end.

(** ** Errors and warnings *)

(** The assertions of [_get_weights_and_dims], by place: the shape of the
    supplied weights, the shapes of [x] and [y], and the normalisation
    check. *)
Inductive assert_site : Type :=
| WeightsShape
| XYShape
| AllClose.

(** [ValueError] is raised by the source for an empty set of dimensions
    and by xarray and numpy for arguments they refuse. *)
Inductive exn : Type :=
| ValueError (msg : string)
| AssertionError (site : assert_site).

(** A computation of the library layer: it fails or gives a value. *)
Definition res (A : Type) : Type := (exn + A)%type.

(** A computation of an operator: the warnings issued so far, oldest
    first, and the outcome. *)
Definition M (A : Type) : Type := (list string * res A)%type.

Definition ret {A} (a : A) : M A := ([], inr a).

Definition warn (msg : string) : M unit := ([msg], inr tt).

Definition lift {A} (r : res A) : M A := ([], r).

Definition bind {A B} (m : M A) (f : A -> M B) : M B :=
  match m with
  | (log, inl e) => (log, inl e)
  | (log, inr a) => let (log', r) := f a in (log ++ log', r)
  end.

Definition rbind {A B} (r : res A) (f : A -> res B) : res B :=
  match r with
  | inl e => inl e
  | inr a => f a
  end.

Declare Scope m_scope.
Delimit Scope m_scope with m.
Notation "x <- m ;; f" := (bind m (fun x => f))
  (at level 61, m at next level, right associativity) : m_scope.

Declare Scope res_scope.
Delimit Scope res_scope with res.
Notation "x <~ r ;; f" := (rbind r (fun x => f))
  (at level 61, r at next level, right associativity) : res_scope.

(** ** Labelled arrays *)

(** An index for every axis name. *)
Definition env : Type := string -> nat.

Definition env0 : env := fun _ => O.

Definition upd (e : env) (d : string) (i : nat) : env :=
  fun k => if String.eqb k d then i else e k.

Definition meta : Type := list (string * string).

Record DataArray : Type := mkDA {
  name : option string;
  dims : list string;
  shape : list nat;
  values : env -> fval;
  attrs : meta;
  encoding : meta
}.

(** The boolean arrays that [notnull] and [&] give. *)
Record BoolArray : Type := mkBA {
  bdims : list string;
  bshape : list nat;
  bvalues : env -> bool
}.

(** [k in l] on names. *)
Definition mem (k : string) (l : list string) : bool :=
  existsb (String.eqb k) l.

Fixpoint nodupb (l : list string) : bool :=
  match l with
  | [] => true
  | k :: l' => negb (mem k l') && nodupb l'
  end.

(** Equality of shapes (tuples of lengths). *)
Fixpoint shape_eqb (a b : list nat) : bool :=
  match a, b with
  | [], [] => true
  | n :: a', m :: b' => Nat.eqb n m && shape_eqb a' b'
  | _, _ => false
  end.

(** Axes with their lengths, in order. *)
Definition sized : Type := list (string * nat).

Definition axes (ds : list string) (sh : list nat) : sized := combine ds sh.

Fixpoint lookup (d : string) (a : sized) : option nat :=
  match a with
  | [] => None
  | (k, n) :: a' => if String.eqb d k then Some n else lookup d a'
  end.

(** Two arrays combine when every axis name they share has one length. *)
Definition compatible (a b : sized) : bool :=
  forallb (fun p => match lookup (fst p) b with
                    | Some m => Nat.eqb (snd p) m
                    | None => true
                    end) a.

(** Broadcasting: the axes of the first, then the new ones of the second. *)
Definition union_axes (a b : sized) : sized :=
  a ++ filter (fun p => negb (mem (fst p) (map fst a))) b.

(** Every assignment of indices to the axes [ds] of lengths [sh], over
    [e], in row-major order. *)
Fixpoint cells (ds : list string) (sh : list nat) (e : env) : list env :=
  match ds, sh with
  | d :: ds', n :: sh' =>
      flat_map (fun i => cells ds' sh' (upd e d i)) (seq 0 n)
  | _, _ => [e]
  end.

(** The elements of an array, in row-major order. *)
Definition flatten (x : DataArray) : list fval :=
  map (values x) (cells (dims x) (shape x) env0).

Definition align_error : exn :=
  ValueError "arguments without labels cannot be aligned: different dimension sizes".

(** [xr.DataArray(np.ones(shape), dims=dims)]. *)
Definition ones (sh : list nat) (ds : list string) : res DataArray :=
  if Nat.eqb (List.length sh) (List.length ds)
  then inr (mkDA None ds sh (fun _ => Fin 1) [] [])
  else inl (ValueError "different number of dimensions on data and dims").

(** [x.notnull()]. *)
Definition notnull (x : DataArray) : BoolArray :=
  mkBA (dims x) (shape x) (fun e => negb (isnan (values x e))).

(** [a & b]. *)
Definition band (a b : BoolArray) : res BoolArray :=
  let sa := axes (bdims a) (bshape a) in
  let sb := axes (bdims b) (bshape b) in
  if compatible sa sb
  then let u := union_axes sa sb in
       inr (mkBA (map fst u) (map snd u)
                 (fun e => bvalues a e && bvalues b e))
  else inl align_error.

(** [w.where(cond)]: the elements of [w] where [cond] holds and NaN
    elsewhere, over the axes of both; name and attributes are kept, the
    encoding is not. *)
Definition where_ (w : DataArray) (cond : BoolArray) : res DataArray :=
  let sw := axes (dims w) (shape w) in
  let sc := axes (bdims cond) (bshape cond) in
  if compatible sw sc
  then let u := union_axes sw sc in
       inr (mkDA (name w) (map fst u) (map snd u)
                 (fun e => if bvalues cond e then values w e else NaN)
                 (attrs w) [])
  else inl align_error.

Definition name_eqb (a b : option string) : bool :=
  match a, b with
  | Some s, Some t => String.eqb s t
  | None, None => true
  | _, _ => false
  end.

(** The name of the result of arithmetic: that of both, or none. *)
Definition result_name (x y : DataArray) : option string :=
  if name_eqb (name x) (name y) then name x else None.

(** Arithmetic between two arrays: broadcast by axis name; the result has
    no attributes (xarray drops them unless [keep_attrs] is set, which is
    why the source puts them back with [update_attrs]) and no encoding,
    and a name only when both have the same. *)
Definition binop (f : fval -> fval -> fval) (x y : DataArray)
  : res DataArray :=
  let sx := axes (dims x) (shape x) in
  let sy := axes (dims y) (shape y) in
  if compatible sx sy
  then let u := union_axes sx sy in
       inr (mkDA (result_name x y)
                 (map fst u) (map snd u)
                 (fun e => f (values x e) (values y e)) [] [])
  else inl align_error.

(** Arithmetic with a scalar: element by element, no attributes. *)
Definition scalar_op (f : fval -> fval) (x : DataArray) : DataArray :=
  mkDA (name x) (dims x) (shape x) (fun e => f (values x e)) [] [].

(** [x.sum(ds)]: the axes [ds] are summed out, NaN skipped; numpy refuses
    an axis named twice and xarray a name that is not an axis.  The
    result has no attributes and no encoding. *)
Definition da_sum (x : DataArray) (ds : list string) : res DataArray :=
  if negb (forallb (fun d => mem d (dims x)) ds)
  then inl (ValueError "dimension not found in array dimensions")
  else if negb (nodupb ds)
  then inl (ValueError "duplicate value in 'axis'")
  else
    let ax := axes (dims x) (shape x) in
    let kept := filter (fun p => negb (mem (fst p) ds)) ax in
    let red := filter (fun p => mem (fst p) ds) ax in
    inr (mkDA (name x) (map fst kept) (map snd kept)
              (fun e => nansum (map (values x)
                                    (cells (map fst red) (map snd red) e)))
              [] []).

(** [np.testing.assert_allclose(actual, 1.0)]. *)
Definition assert_allclose (actual : DataArray) (desired : Q) : bool :=
  forallb (close_to desired) (flatten actual).

(** Modelled from the spec: [get_original_attrs] of [utils/variables.py],
    which is not among the sources; the spec gives
    [get_original_attrs(array) -> (attrs, encoding)]. *)
Definition get_original_attrs (x : DataArray) : meta * meta :=
  (attrs x, encoding x).

(** Modelled from the spec: [update_attrs] of [utils/variables.py], which
    is not among the sources; the spec gives
    [update_attrs(result, attrs, encoding) -> result], a copy of the
    descriptive attributes and encoding onto the result. *)
Definition update_attrs (r : DataArray) (a enc : meta) : DataArray :=
  mkDA (name r) (dims r) (shape r) (values r) a enc.

(** ** Dimension specifications *)

(** The argument [dim]: [None], a string, a list of strings, or a
    sequence of strings that is not a list, of which a tuple is the usual
    one.  The source tells a string and a list apart by [isinstance];
    every other value reaches the last branch. *)
Inductive dim_spec : Type :=
| DimNone
| DimStr (s : string)
| DimList (l : list string)
| DimTuple (l : list string).

(** ["{0}".format(x.name)]. *)
Definition format_name (n : option string) : string :=
  match n with
  | Some s => s
  | None => "None"
  end.

(** The first lines of [_get_weights_and_dims]: the requested names,
    [dims], and those of them that are axes of [x], [op_over_dims].  An
    empty string is falsy, so it takes the last branch, as [None] does;
    and so does a tuple, which is neither a string nor a list, whatever
    its names. *)
Definition requested_dims (x : DataArray) (dim : dim_spec) : list string :=
  match dim with
  | DimStr s => if String.eqb s "" then dims x else [s]
  | DimList l => l
  | DimNone => dims x
  | DimTuple _ => dims x
  end.

Definition resolve_dims (x : DataArray) (dim : dim_spec)
  : res (list string) :=
  let op_over_dims := filter (fun k => mem k (dims x)) (requested_dims x dim) in
  match op_over_dims with
  | [] => inl (ValueError ("Unexpected dimensions for variable "
                           ++ format_name (name x)))
  | _ => inr op_over_dims
  end.

(** [tuple(l for i, l in enumerate(x.shape) if x.dims[i] in op_over_dims)]. *)
Definition dims_shape (x : DataArray) (op_over_dims : list string)
  : list nat :=
  map snd (filter (fun p => mem (fst p) op_over_dims)
                  (axes (dims x) (shape x))).

(** The normalisation check:
    [(weights / weights.sum(op_over_dims)).sum(op_over_dims)] against 1. *)
Definition normalized_total (weights : DataArray) (op_over_dims : list string)
  : res DataArray :=
  (total <~ da_sum weights op_over_dims ;;
   ratio <~ binop fdiv weights total ;;
   da_sum ratio op_over_dims)%res.

(** [_get_weights_and_dims] up to the line [weights = weights.where(valid)]:
    the resolved names, the default or the supplied weights with the
    assertion on their shape, the validity mask, and the masked weights. *)
Definition masked_weights (x : DataArray) (y : option DataArray)
    (weights : option DataArray) (dim : dim_spec)
  : res (DataArray * list string) :=
  (op_over_dims <~ resolve_dims x dim ;;
   let dims_shape := dims_shape x op_over_dims in
   weights <~ match weights with
              | None => ones dims_shape op_over_dims
              | Some w => if shape_eqb (shape w) dims_shape then inr w
                          else inl (AssertionError WeightsShape)
              end ;;
   valid <~ match y with
            | Some y => if shape_eqb (shape x) (shape y)
                        then band (notnull x) (notnull y)
                        else inl (AssertionError XYShape)
            | None => inr (notnull x)
            end ;;
   weights <~ where_ weights valid ;;
   inr (weights, op_over_dims))%res.

(** The rest of [_get_weights_and_dims]: "Make sure weights add up to 1.0". *)
Definition _get_weights_and_dims (x : DataArray) (y : option DataArray)
    (weights : option DataArray) (dim : dim_spec)
  : res (DataArray * list string) :=
  (wd <~ masked_weights x y weights dim ;;
   total <~ normalized_total (fst wd) (snd wd) ;;
   if assert_allclose total 1 then inr wd
   else inl (AssertionError AllClose))%res.

(** [if weights is None: warn(msg)]. *)
Definition warn_default (weights : option DataArray) (msg : string)
  : M unit :=
  match weights with
  | None => warn msg
  | Some _ => ret tt
  end.

(** Integer square roots of numerator and denominator: a square root on
    the rationals that is exact on squares, to run the operators on. *)
Definition Qsqrt (q : Q) : Q :=
  Qmake (Z.sqrt (Qnum q)) (Z.to_pos (Z.sqrt (Zpos (Qden q)))).

(** ** The operators

    Every operator runs under [esmlab_xr_set_options(arithmetic_join="exact")],
    which makes arithmetic between arrays whose coordinate labels differ
    fail; the arrays here carry no coordinate labels, so that arithmetic
    fails exactly when the lengths of a shared axis differ, as [binop]
    has it. *)

Section Operators.

(** [np.sqrt] on a finite, non-negative number. *)
Variable sqrtQ : Q -> Q.

Definition fsqrt (v : fval) : fval :=
  match v with
  | Fin q => match sgn q with Lt => NaN | _ => Fin (sqrtQ q) end
  | PInf => PInf
  | NInf => NaN
  | NaN => NaN
  end.

(** [np.sqrt(x)] on an array: element by element; name and attributes are
    kept, the encoding is not. *)
Definition sqrt_ (x : DataArray) : DataArray :=
  mkDA (name x) (dims x) (shape x) (fun e => fsqrt (values x e))
       (attrs x) [].

Local Open Scope m_scope.

Definition weighted_sum (x : DataArray) (weights : option DataArray)
    (dim : dim_spec) : M DataArray :=
  _ <- warn_default weights
         "Computing sum with equal weights for all data points" ;;
  wd <- lift (_get_weights_and_dims x None weights dim) ;;
  let weights := fst wd in
  let op_over_dims := snd wd in
  xw <- lift (binop fmul x weights) ;;
  x_w_sum <- lift (da_sum xw op_over_dims) ;;
  let oa := get_original_attrs x in
  ret (update_attrs x_w_sum (fst oa) (snd oa)).

(** [weighted_mean] hands the masked weights and the resolved names on
    to [weighted_sum], which resolves them again. *)
Definition weighted_mean (x : DataArray) (weights : option DataArray)
    (dim : dim_spec) : M DataArray :=
  _ <- warn_default weights
         "Computing mean with equal weights for all data points" ;;
  wd <- lift (_get_weights_and_dims x None weights dim) ;;
  let weights := fst wd in
  let op_over_dims := snd wd in
  s <- weighted_sum x (Some weights) (DimList op_over_dims) ;;
  total <- lift (da_sum weights op_over_dims) ;;
  x_w_mean <- lift (binop fdiv s total) ;;
  let oa := get_original_attrs x in
  ret (update_attrs x_w_mean (fst oa) (snd oa)).

Definition weighted_std (x : DataArray) (weights : option DataArray)
    (dim : dim_spec) (ddof : Z) : M DataArray :=
  _ <- warn_default weights
         "Computing standard deviation with equal weights for all data points" ;;
  wd <- lift (_get_weights_and_dims x None weights dim) ;;
  let weights := fst wd in
  let op_over_dims := snd wd in
  x_w_mean <- weighted_mean x (Some weights) (DimList op_over_dims) ;;
  dev <- lift (binop fsub x x_w_mean) ;;
  wdev <- lift (binop fmul weights (scalar_op fsquare dev)) ;;
  num <- lift (da_sum wdev op_over_dims) ;;
  total <- lift (da_sum weights op_over_dims) ;;
  quot <- lift (binop fdiv num
                  (scalar_op (fun v => fsub v (Fin (inject_Z ddof))) total)) ;;
  let x_w_std := sqrt_ quot in
  let oa := get_original_attrs x in
  ret (update_attrs x_w_std (fst oa) (snd oa)).

Definition weighted_rmsd (x y : DataArray) (weights : option DataArray)
    (dim : dim_spec) : M DataArray :=
  _ <- warn_default weights
         "Computing root-mean-square-deviation with equal weights for all data points" ;;
  wd <- lift (_get_weights_and_dims x (Some y) weights dim) ;;
  let weights := fst wd in
  let op_over_dims := snd wd in
  diff <- lift (binop fsub x y) ;;
  let dev := scalar_op fsquare diff in
  dev_mean <- weighted_mean dev (Some weights) (DimList op_over_dims) ;;
  ret (sqrt_ dev_mean).

Definition weighted_cov (x y : DataArray) (weights : option DataArray)
    (dim : dim_spec) : M DataArray :=
  _ <- warn_default weights
         "Computing weighted covariance with equal weights for all data points" ;;
  wd <- lift (_get_weights_and_dims x (Some y) weights dim) ;;
  let weights := fst wd in
  let op_over_dims := snd wd in
  mean_x <- weighted_mean x (Some weights) (DimList op_over_dims) ;;
  mean_y <- weighted_mean y (Some weights) (DimList op_over_dims) ;;
  dev_x <- lift (binop fsub x mean_x) ;;
  dev_y <- lift (binop fsub y mean_y) ;;
  dev_xy <- lift (binop fmul dev_x dev_y) ;;
  cov_xy <- weighted_mean dev_xy (Some weights) (DimList op_over_dims) ;;
  ret cov_xy.

Definition weighted_corr (x y : DataArray) (weights : option DataArray)
    (dim : dim_spec) : M DataArray :=
  _ <- warn_default weights
         "Computing weighted correlation with equal weights for all data points" ;;
  wd <- lift (_get_weights_and_dims x (Some y) weights dim) ;;
  let weights := fst wd in
  let op_over_dims := snd wd in
  numerator <- weighted_cov x y (Some weights) (DimList op_over_dims) ;;
  cov_xx <- weighted_cov x x (Some weights) (DimList op_over_dims) ;;
  cov_yy <- weighted_cov y y (Some weights) (DimList op_over_dims) ;;
  prod <- lift (binop fmul cov_xx cov_yy) ;;
  let denominator := sqrt_ prod in
  corr_xy <- lift (binop fdiv numerator denominator) ;;
  ret corr_xy.

End Operators.

(** ** Arrays written out, to run the operators on *)

(** A one-dimensional array from its elements. *)
Definition array1 (d : string) (l : list fval) : DataArray :=
  mkDA None [d] [List.length l] (fun e => nth (e d) l NaN) [] [].

(** A two-dimensional array from its rows, [ncols] long each. *)
Definition array2 (d1 d2 : string) (ncols : nat) (rows : list (list fval))
  : DataArray :=
  mkDA None [d1; d2] [List.length rows; ncols]
       (fun e => nth (e d2) (nth (e d1) rows []) NaN) [] [].

(** What an observer sees of an outcome: the warnings, and the error or
    the axes, shape, elements and metadata of the result. *)
Record view : Type := mkView {
  v_dims : list string;
  v_shape : list nat;
  v_data : list fval;
  v_attrs : meta;
  v_encoding : meta
}.

Definition observe (m : M DataArray) : list string * (exn + view) :=
  match m with
  | (log, inl e) => (log, inl e)
  | (log, inr r) =>
      (log, inr (mkView (dims r) (shape r) (flatten r) (attrs r) (encoding r)))
  end.

(** ** Vocabulary of the statements *)

(** An array is well formed when it has one length per axis and no axis
    name twice. *)
Definition wf (x : DataArray) : Prop :=
  List.length (dims x) = List.length (shape x) /\ NoDup (dims x).

(** The names of [l] that are axes of [x], in the order of [l]. *)
Definition present (x : DataArray) (l : list string) : list string :=
  filter (fun k => mem k (dims x)) l.

(** The errors of the specification. *)
Definition InvalidDimension (x : DataArray) : exn :=
  ValueError ("Unexpected dimensions for variable " ++ format_name (name x)).

Definition ShapeMismatch {A} (r : res A) : Prop :=
  r = inl (AssertionError WeightsShape) \/ r = inl (AssertionError XYShape).

Definition NormalizationError : exn := AssertionError AllClose.

(** Within the tolerance of [assert_allclose] of 1. *)
Definition within_tolerance (v : fval) : Prop :=
  exists q, v = Fin q /\ Qabs (q - 1) <= rtol.

(** The array of the scenarios: [[1, 2], [3, 4]] over the axes [a] and
    [b]. *)
Definition x22 : DataArray :=
  array2 "a" "b" 2 [[Fin 1; Fin 2]; [Fin 3; Fin 4]].

(** A vector [1, 2] over the axis [a], and all-zero weights for it. *)
Definition v12 : DataArray := array1 "a" [Fin 1; Fin 2].

Definition zeros2 : DataArray := array1 "a" [Fin 0; Fin 0].

(** The vector [1, 2] with a name, attributes and an encoding. *)
Definition v12_meta : DataArray :=
  mkDA (Some "temp") ["a"] [2%nat] (values v12)
       [("units", "degC")] [("dtype", "float64")].

(** ** Reductions over every axis, written out

    What the resolver and the operators compute when the reduction is
    over all the axes of the array, as with [dim] omitted. *)

(** The mask of [x], and of [x] and [y]. *)
Definition valid1 (x : DataArray) (e : env) : bool :=
  negb (isnan (values x e)).

Definition validity (x : DataArray) (yo : option DataArray) (e : env)
  : bool :=
  match yo with
  | None => valid1 x e
  | Some y => valid1 x e && valid1 y e
  end.

(** The weights with NaN where the mask does not hold. *)
Definition mask_by (valid : env -> bool) (w : DataArray) : DataArray :=
  mkDA (name w) (dims w) (shape w)
       (fun e => if valid e then values w e else NaN)
       (attrs w) [].

(** The default weights over all the axes of [x]. *)
Definition ones_like (x : DataArray) : DataArray :=
  mkDA None (dims x) (shape x) (fun _ => Fin 1) [] [].

Definition weights_or_ones (x : DataArray) (w : option DataArray)
  : DataArray :=
  match w with
  | Some w => w
  | None => ones_like x
  end.

(** [b] is over the axes of [a], in the same order. *)
Definition same_axes (a b : DataArray) : Prop :=
  dims b = dims a /\ shape b = shape a.

(** The cells of [x] over [e]. *)
Definition all_cells (x : DataArray) (e : env) : list env :=
  cells (dims x) (shape x) e.

(** The sum of the weights over all the axes, and the sum of their
    quotients by it: the number that the normalisation check compares
    with 1. *)
Definition total_weight (wm : DataArray) (e : env) : fval :=
  nansum (map (values wm) (all_cells wm e)).

Definition normalized_sum (wm : DataArray) (e : env) : fval :=
  nansum (map (fun c => fdiv (values wm c) (total_weight wm e))
              (all_cells wm e)).

(** The weighted sum and mean of [x] over all its axes. *)
Definition wsum (x wm : DataArray) (e : env) : fval :=
  nansum (map (fun c => fmul (values x c) (values wm c)) (all_cells x e)).

Definition wmean (x wm : DataArray) (e : env) : fval :=
  fdiv (wsum x wm e) (total_weight wm e).

(** The warnings of a call: one when the weights are omitted. *)
Definition default_log (w : option DataArray) (msg : string) : list string :=
  match w with
  | None => [msg]
  | Some _ => []
  end.

(** The weighted sum of squared deviations from the mean, and the
    weighted mean of the products of deviations. *)
Definition wssd (x wm : DataArray) (e : env) : fval :=
  nansum (map (fun c => fmul (values wm c)
                             (fsquare (fsub (values x c) (wmean x wm c))))
              (all_cells wm e)).

Definition dev_prod (x y wm : DataArray) (c : env) : fval :=
  fmul (fsub (values x c) (wmean x wm c)) (fsub (values y c) (wmean y wm c)).

Definition wcov (x y wm : DataArray) (e : env) : fval :=
  fdiv (nansum (map (fun c => fmul (dev_prod x y wm c) (values wm c))
                    (all_cells x e)))
       (total_weight wm e).

(** ** Exact sums, to state what the operators compute *)

(** The number that a value contributes to a sum that skips NaN. *)
Definition to_Q (v : fval) : Q :=
  match v with
  | Fin q => q
  | _ => 0
  end.

Definition qsum (l : list Q) : Q := fold_left Qplus l 0.

(** The unweighted arithmetic mean of a list of numbers. *)
Definition arith_mean (l : list Q) : Q :=
  qsum l / inject_Z (Z.of_nat (List.length l)).

(** An array of numbers and missing values: no infinity. *)
Definition clean (x : DataArray) : Prop :=
  forall e, values x e = NaN \/ exists q, values x e = Fin q.

(** An array without missing values. *)
Definition complete (x : DataArray) : Prop :=
  forall e, exists q, values x e = Fin q.

(** The elements of an array depend on the indices of its own axes
    only. *)
Definition local (x : DataArray) : Prop :=
  forall e e', (forall k, In k (dims x) -> e k = e' k) ->
               values x e = values x e'.

(** The total of the weights, the weighted sum and the weighted mean, as
    rationals. *)
Definition total_Q (wm : DataArray) : Q :=
  qsum (map (fun c => to_Q (values wm c)) (all_cells wm env0)).

Definition wsum_Q (z wm : DataArray) : Q :=
  qsum (map (fun c => to_Q (fmul (values z c) (values wm c)))
            (all_cells z env0)).

Definition wmean_Q (z wm : DataArray) : Q := wsum_Q z wm / total_Q wm.

(** The weighted covariance, as a rational. *)
Definition cov_Q (x y wm : DataArray) : Q :=
  qsum (map (fun c => to_Q (fmul (dev_prod x y wm c) (values wm c)))
            (all_cells x env0))
  / total_Q wm.

(** A constant vector [1, 1] and the one-element vector [5]. *)
Definition c11 : DataArray := array1 "a" [Fin 1; Fin 1].

Definition v5 : DataArray := array1 "a" [Fin 5].

(** ** Missing values and excluded positions *)

(** The list with the missing sentinel at the selected positions, and the
    list without the selected positions; positions count from [i]. *)
Fixpoint mask_from (sel : nat -> bool) (i : nat) (l : list fval)
  : list fval :=
  match l with
  | [] => []
  | v :: l' => (if sel i then NaN else v) :: mask_from sel (S i) l'
  end.

Fixpoint drop_from (sel : nat -> bool) (i : nat) (l : list fval)
  : list fval :=
  match l with
  | [] => []
  | v :: l' => if sel i then drop_from sel (S i) l'
               else v :: drop_from sel (S i) l'
  end.

Definition set_missing (sel : nat -> bool) (l : list fval) : list fval :=
  mask_from sel 0 l.

Definition exclude (sel : nat -> bool) (l : list fval) : list fval :=
  drop_from sel 0 l.

(** Two outcomes are the same: the same warnings, and the same error or
    results over the same axes with equal elements. *)
Definition same_outcome (a b : M DataArray) : Prop :=
  fst a = fst b /\
  match snd a, snd b with
  | inl e1, inl e2 => e1 = e2
  | inr r1, inr r2 =>
      dims r1 = dims r2 /\ shape r1 = shape r2 /\
      Forall2 feq (flatten r1) (flatten r2)
  | _, _ => False
  end.

(** The masked weight of an element [v] with weight [w]. *)
Definition masked_weight (v w : fval) : fval :=
  if isnan v then NaN else w.

(** A sum that skips NaN, over the pairs of an element and its weight. *)
Definition lsum (h : fval -> fval -> fval) (xs ws : list fval) : fval :=
  nansum (map (fun p => h (fst p) (snd p)) (combine xs ws)).

(** The total of the masked weights, the checked number, the weighted sum
    and the weighted mean of a vector [xs] with weights [ws]. *)
Definition ltotal (xs ws : list fval) : fval := lsum masked_weight xs ws.

Definition lnorm (xs ws : list fval) : fval :=
  lsum (fun v w => fdiv (masked_weight v w) (ltotal xs ws)) xs ws.

Definition lwsum (xs ws : list fval) : fval :=
  lsum (fun v w => fmul v (masked_weight v w)) xs ws.

Definition lmean (xs ws : list fval) : fval :=
  fdiv (lwsum xs ws) (ltotal xs ws).

(** Weights [1, 1] over the axis [a]. *)
Definition ones2 : DataArray := array1 "a" [Fin 1; Fin 1].

(** The sum of the masked weights over the reduction dimensions, as the
    operators compute it: [weights.sum(op_over_dims)], element by
    element. *)
Definition resolved_total (x : DataArray) (yo w : option DataArray)
    (dim : dim_spec) : res (list fval) :=
  (wd <~ _get_weights_and_dims x yo w dim ;;
   total <~ da_sum (fst wd) (snd wd) ;;
   inr (flatten total))%res.

(** The masked weights of a vector [xs] with weights [ws]. *)
Definition masked_vector (d : string) (xs ws : list fval) : DataArray :=
  mask_by (valid1 (array1 d xs)) (array1 d ws).

(** ** Reductions over a part of the axes *)

(** The axes named in [D] and the other ones, as [sum] tells them apart,
    and the former followed by the latter. *)
Definition axes_in (ax : sized) (D : list string) : sized :=
  filter (fun p => mem (fst p) D) ax.

Definition axes_out (ax : sized) (D : list string) : sized :=
  filter (fun p => negb (mem (fst p) D)) ax.

Definition axes_split (ax : sized) (D : list string) : sized :=
  axes_in ax D ++ axes_out ax D.

(** The axes of [x] that a reduction over the names [D] sums out, and
    those that it keeps, with their lengths. *)
Definition reduced_axes (x : DataArray) (D : list string) : sized :=
  axes_in (axes (dims x) (shape x)) D.

Definition kept_axes (x : DataArray) (D : list string) : sized :=
  axes_out (axes (dims x) (shape x)) D.

(** The cells of [x] that the reduction sums into the cell [e] of the
    result, and the cells of the result. *)
Definition column (x : DataArray) (D : list string) (e : env) : list env :=
  cells (map fst (reduced_axes x D)) (map snd (reduced_axes x D)) e.

Definition kept_cells (x : DataArray) (D : list string) : list env :=
  cells (map fst (kept_axes x D)) (map snd (kept_axes x D)) env0.

(** The weights of a call: the supplied ones, or ones over the reduction
    dimensions. *)
Definition weights_or_default (x : DataArray) (w : option DataArray)
    (D : list string) : DataArray :=
  match w with
  | Some w => w
  | None => mkDA None D (dims_shape x D) (fun _ => Fin 1) [] []
  end.

(** The weights broadcast against [x] and masked where [x] is missing:
    the axes of the weights first, then the other axes of [x]. *)
Definition masked_over (x w1 : DataArray) (D : list string) : DataArray :=
  mkDA (name w1)
       (map fst (axes_split (axes (dims x) (shape x)) D))
       (map snd (axes_split (axes (dims x) (shape x)) D))
       (fun e => if valid1 x e then values w1 e else NaN)
       (attrs w1) [].

(** The total of the weights in the column of the cell [e], as a
    rational. *)
Definition column_total (x wm : DataArray) (D : list string) (e : env) : Q :=
  qsum (map (fun c => to_Q (values wm c)) (column x D e)).

(** The weights [w1] are over the reduced axes of [x], in the order of
    [x]: the shape that the resolver asserts, under the names of those
    axes. *)
Definition over_reduced (x w1 : DataArray) (D : list string) : Prop :=
  dims w1 = map fst (reduced_axes x D) /\
  shape w1 = map snd (reduced_axes x D).

(** ** The range in which the exact arithmetic stands for binary64

    The embedding computes sums, products and quotients of finite numbers
    exactly, where the source rounds them to binary64 and lets them
    overflow to an infinity or underflow to zero.  A statement whose truth
    in the source depends on that is made for arrays within a range in
    which no sum, product or square of the computation leaves the normal
    numbers of binary64. *)

(** Every number of [x] is at most [2 ^ k] in magnitude. *)
Definition magnitude_below (k : Z) (x : DataArray) : Prop :=
  forall c p, values x c = Fin p -> Qabs p <= inject_Z (2 ^ k).

(** [p] and [q] differ by [2 ^ (- k)] at least. *)
Definition apart (k : Z) (p q : Q) : Prop :=
  1 <= Qabs (p - q) * inject_Z (2 ^ k).

(** [x] has at most [2 ^ k] elements. *)
Definition cells_below (k : Z) (x : DataArray) : Prop :=
  (Z.of_nat (List.length (all_cells x env0)) <= 2 ^ k)%Z.

(** The vector [1, 2, inf]. *)
Definition v12inf : DataArray := array1 "a" [Fin 1; Fin 2; PInf].

(** The number of elements of [x] that are not missing. *)
Definition valid_count (x : DataArray) : Z :=
  Z.of_nat (List.length (filter (valid1 x) (all_cells x env0))).

(** Every number of [x] is the integer [k]. *)
Definition constant_at (k : Z) (x : DataArray) : Prop :=
  forall c p, values x c = Fin p -> p == inject_Z k.

(** A number that is not negative, or the positive infinity. *)
Definition nonneg (v : fval) : Prop :=
  match v with
  | Fin q => 0 <= q
  | PInf => True
  | _ => False
  end.

(** * Properties *)

(** ** Names and membership *)

Lemma mem_In (k : string) (l : list string) : mem k l = true <-> In k l.
Proof.
  unfold mem. rewrite existsb_exists. split.
  - intros [j [Hj He]]. apply String.eqb_eq in He. now subst.
  - intros H. exists k. split; [assumption | apply String.eqb_refl].
Qed.

Lemma mem_false (k : string) (l : list string) :
  mem k l = false <-> ~ In k l.
Proof.
  rewrite <- mem_In. destruct (mem k l); split; congruence.
Qed.

Lemma filter_all {A} (f : A -> bool) (l : list A) :
  (forall a, In a l -> f a = true) -> filter f l = l.
Proof.
  induction l as [| a l IH]; intros H; simpl; [reflexivity |].
  rewrite (H a (or_introl eq_refl)). f_equal. apply IH.
  intros b Hb. apply H. now right.
Qed.

Lemma filter_none {A} (f : A -> bool) (l : list A) :
  (forall a, In a l -> f a = false) -> filter f l = [].
Proof.
  induction l as [| a l IH]; intros H; simpl; [reflexivity |].
  rewrite (H a (or_introl eq_refl)). apply IH.
  intros b Hb. apply H. now right.
Qed.

Lemma present_self (x : DataArray) : present x (dims x) = dims x.
Proof.
  apply filter_all. intros k Hk. now apply mem_In.
Qed.

Lemma resolve_dims_present (x : DataArray) (dim : dim_spec) :
  present x (requested_dims x dim) <> [] ->
  resolve_dims x dim = inr (present x (requested_dims x dim)).
Proof.
  unfold resolve_dims, present.
  destruct (filter _ _); [congruence | reflexivity].
Qed.

Lemma resolve_dims_empty (x : DataArray) (dim : dim_spec) :
  present x (requested_dims x dim) = [] ->
  resolve_dims x dim = inl (InvalidDimension x).
Proof.
  unfold resolve_dims, present. intros ->. reflexivity.
Qed.

(** What [resolve_dims] gives is never empty and made of axes of [x]. *)
Lemma resolve_dims_inr (x : DataArray) (dim : dim_spec) (D : list string) :
  resolve_dims x dim = inr D ->
  D = present x (requested_dims x dim) /\ D <> [].
Proof.
  unfold resolve_dims, present.
  destruct (filter _ _) eqn:E; [discriminate |].
  intros H. injection H as <-. split; [reflexivity | discriminate].
Qed.

(** X19. Dimension resolution for a [dim] that is absent, a string or
    a list: an absent [dim] gives all the axes of the array; a name (a
    non-empty string) that is an axis gives the list of that name alone;
    a list gives its names that are axes of the array, in the order of
    the list, and the list itself when all of them are; and when none of
    the requested names is an axis the resolution, and every call of
    [_get_weights_and_dims], fails with the [ValueError] that names the
    array. *)
Theorem resolve_dims_spec (x : DataArray) :
  (dims x <> [] -> resolve_dims x DimNone = inr (dims x)) /\
  (forall s, s <> "" -> In s (dims x) ->
     resolve_dims x (DimStr s) = inr [s]) /\
  (forall l, present x l <> [] ->
     resolve_dims x (DimList l) = inr (present x l)) /\
  (forall l, l <> [] -> (forall k, In k l -> In k (dims x)) ->
     resolve_dims x (DimList l) = inr l) /\
  (forall dim, present x (requested_dims x dim) = [] ->
     resolve_dims x dim
       = inl (ValueError ("Unexpected dimensions for variable "
                          ++ format_name (name x))) /\
     forall y w,
       _get_weights_and_dims x y w dim
         = inl (ValueError ("Unexpected dimensions for variable "
                            ++ format_name (name x)))).
Proof.
  repeat split.
  - intros H. rewrite resolve_dims_present; simpl; rewrite present_self;
      [reflexivity | assumption].
  - intros s Hs Hin.
    assert (E : requested_dims x (DimStr s) = [s]).
    { simpl. destruct (String.eqb_spec s ""); [contradiction | reflexivity]. }
    assert (P : present x [s] = [s]).
    { apply filter_all. intros k [<- | []]. now apply mem_In. }
    rewrite resolve_dims_present; rewrite E, P; [reflexivity | discriminate].
  - intros l H. now apply resolve_dims_present.
  - intros l Hl Hin.
    assert (P : present x l = l).
    { apply filter_all. intros k Hk. apply mem_In. now apply Hin. }
    rewrite resolve_dims_present; simpl; rewrite P; [reflexivity | assumption].
  - now apply resolve_dims_empty.
  - intros y w. unfold _get_weights_and_dims, masked_weights.
    rewrite (resolve_dims_empty x dim H). reflexivity.
Qed.

Lemma resolve_dims_spec_witness :
  resolve_dims x22 DimNone = inr ["a"; "b"] /\
  resolve_dims x22 (DimStr "a") = inr ["a"] /\
  resolve_dims x22 (DimList ["b"; "z"; "a"]) = inr ["b"; "a"] /\
  resolve_dims x22 (DimList ["b"; "a"]) = inr ["b"; "a"] /\
  resolve_dims x22 (DimStr "z")
    = inl (ValueError "Unexpected dimensions for variable None").
Proof.
  destruct (resolve_dims_spec x22) as (H1 & H2 & H3 & H4 & H5).
  refine (conj _ (conj _ (conj _ (conj _ _)))).
  - apply H1. discriminate.
  - apply H2; [discriminate | simpl; auto].
  - apply (H3 ["b"; "z"; "a"]). discriminate.
  - apply H4; [discriminate |].
    intros k [<- | [<- | []]]; simpl; auto.
  - apply (H5 (DimStr "z")). reflexivity.
Defined.

(** C7. A sequence of names that is not a list is not resolved to its
    names.  The source recognises a list by [isinstance(dim, list)], so
    the tuple [('a',)] on the matrix with axes [a] and [b] takes the
    branch of an absent [dim]: it resolves to both axes where the list
    [['a']] resolves to [a], a tuple of unknown names raises no error, and
    [weighted_sum] returns the total, 10, where the list gives the sums
    [4, 6] along [a]. *)
Theorem tuple_dim_is_read_as_absent :
  resolve_dims x22 (DimTuple ["a"]) = inr ["a"; "b"] /\
  resolve_dims x22 (DimList ["a"]) = inr ["a"] /\
  resolve_dims x22 (DimTuple ["z"]) = inr ["a"; "b"] /\
  resolve_dims x22 (DimList ["z"])
  = inl (ValueError "Unexpected dimensions for variable None") /\
  observe (weighted_sum x22 None (DimTuple ["a"]))
  = (["Computing sum with equal weights for all data points"],
     inr (mkView [] [] [Fin 10] [] [])) /\
  observe (weighted_sum x22 None (DimList ["a"]))
  = (["Computing sum with equal weights for all data points"],
     inr (mkView ["b"] [2%nat] [Fin 4; Fin 6] [] [])).
Proof. repeat split; vm_compute; reflexivity. Qed.

(** C10. An empty string as [dim] is treated as an omitted [dim] by every
    operator: the resolution is the one of [None], all the axes of the
    array, not the error for an unknown name, and the six operators give
    what they give without [dim]. *)
Theorem empty_string_dim_is_none (sqrtQ : Q -> Q) (x y : DataArray)
    (w : option DataArray) (ddof : Z) :
  resolve_dims x (DimStr "") = resolve_dims x DimNone /\
  (dims x <> [] -> resolve_dims x (DimStr "") = inr (dims x)) /\
  (forall yo, _get_weights_and_dims x yo w (DimStr "")
              = _get_weights_and_dims x yo w DimNone) /\
  weighted_sum x w (DimStr "") = weighted_sum x w DimNone /\
  weighted_mean x w (DimStr "") = weighted_mean x w DimNone /\
  weighted_std sqrtQ x w (DimStr "") ddof
  = weighted_std sqrtQ x w DimNone ddof /\
  weighted_rmsd sqrtQ x y w (DimStr "") = weighted_rmsd sqrtQ x y w DimNone /\
  weighted_cov x y w (DimStr "") = weighted_cov x y w DimNone /\
  weighted_corr sqrtQ x y w (DimStr "") = weighted_corr sqrtQ x y w DimNone.
Proof.
  assert (R : resolve_dims x (DimStr "") = resolve_dims x DimNone)
    by reflexivity.
  assert (G : forall yo, _get_weights_and_dims x yo w (DimStr "")
                         = _get_weights_and_dims x yo w DimNone).
  { intros yo. unfold _get_weights_and_dims, masked_weights.
    now rewrite R. }
  split; [exact R |]. split.
  { intros H. rewrite R. rewrite resolve_dims_present; simpl;
      rewrite present_self; [reflexivity | assumption]. }
  split; [exact G |].
  unfold weighted_sum, weighted_mean, weighted_std, weighted_rmsd,
    weighted_cov, weighted_corr.
  rewrite !G. repeat split; reflexivity.
Qed.

Lemma empty_string_dim_is_none_witness :
  resolve_dims x22 (DimStr "") = inr ["a"; "b"] /\
  weighted_mean x22 None (DimStr "") = weighted_mean x22 None DimNone.
Proof.
  destruct (empty_string_dim_is_none Qsqrt x22 x22 None 0)
    as (_ & H & _ & _ & Hm & _).
  split; [apply H; discriminate | exact Hm].
Defined.

(** ** The resolver: failures *)

Lemma shape_eqb_eq (a b : list nat) : shape_eqb a b = true <-> a = b.
Proof.
  revert b. induction a as [| n a IH]; intros [| m b]; simpl;
    try (split; [discriminate | congruence]); [tauto |].
  rewrite andb_true_iff, Nat.eqb_eq, IH. split.
  - intros [-> ->]. reflexivity.
  - intros H. injection H as -> ->. auto.
Qed.

Lemma shape_eqb_refl (a : list nat) : shape_eqb a a = true.
Proof. now apply shape_eqb_eq. Qed.

Lemma axes_fst_filter (f : string -> bool) (ds : list string) (sh : list nat) :
  List.length ds = List.length sh ->
  map fst (filter (fun p => f (fst p)) (axes ds sh)) = filter f ds.
Proof.
  unfold axes. revert sh.
  induction ds as [| d ds IH]; intros [| n sh] H; simpl in *;
    try discriminate; [reflexivity |].
  injection H as H. destruct (f d); simpl; now rewrite IH.
Qed.

Lemma axes_fst (ds : list string) (sh : list nat) :
  List.length ds = List.length sh -> map fst (axes ds sh) = ds.
Proof.
  unfold axes. revert sh.
  induction ds as [| d ds IH]; intros [| n sh] H; simpl in *;
    try discriminate; [reflexivity |].
  injection H as H. now rewrite IH.
Qed.

Lemma axes_snd (ds : list string) (sh : list nat) :
  List.length ds = List.length sh -> map snd (axes ds sh) = sh.
Proof.
  unfold axes. revert sh.
  induction ds as [| d ds IH]; intros [| n sh] H; simpl in *;
    try discriminate; [reflexivity |].
  injection H as H. now rewrite IH.
Qed.

(** A set of names that are axes selects as many lengths as it has
    names. *)
Lemma dims_shape_length (x : DataArray) (D : list string) :
  wf x -> NoDup D -> (forall k, In k D -> In k (dims x)) ->
  List.length (dims_shape x D) = List.length D.
Proof.
  intros [Hlen Hnd] HD Hin. unfold dims_shape.
  rewrite length_map.
  rewrite <- (length_map fst), (axes_fst_filter (fun k => mem k D))
    by assumption.
  apply Nat.le_antisymm.
  - apply NoDup_incl_length; [now apply NoDup_filter |].
    intros k Hk. apply filter_In in Hk. now apply mem_In.
  - apply NoDup_incl_length; [assumption |].
    intros k Hk. apply filter_In. split; [now apply Hin | now apply mem_In].
Qed.

Lemma present_In (x : DataArray) (l : list string) (k : string) :
  In k (present x l) -> In k l /\ In k (dims x).
Proof.
  unfold present. rewrite filter_In, mem_In. tauto.
Qed.

Lemma masked_weights_bad_weights (x : DataArray) (yo : option DataArray)
    (w : DataArray) (dim : dim_spec) (D : list string) :
  resolve_dims x dim = inr D ->
  shape_eqb (shape w) (dims_shape x D) = false ->
  masked_weights x yo (Some w) dim = inl (AssertionError WeightsShape).
Proof.
  intros HD Hw. unfold masked_weights. rewrite HD. simpl. now rewrite Hw.
Qed.

Lemma masked_weights_bad_xy (x y : DataArray) (weights : option DataArray)
    (dim : dim_spec) (D : list string) :
  resolve_dims x dim = inr D ->
  (weights = None -> wf x /\ NoDup D) ->
  shape_eqb (shape x) (shape y) = false ->
  ShapeMismatch (masked_weights x (Some y) weights dim).
Proof.
  intros HD Hw Hxy. unfold masked_weights. rewrite HD. simpl.
  destruct weights as [w |].
  - destruct (shape_eqb (shape w) (dims_shape x D)); simpl.
    + rewrite Hxy. now right.
    + now left.
  - destruct (Hw eq_refl) as [Hwf Hnd].
    unfold ones. rewrite dims_shape_length; trivial.
    + rewrite Nat.eqb_refl. simpl. rewrite Hxy. now right.
    + intros k Hk. apply resolve_dims_inr in HD as [-> _].
      now apply present_In in Hk.
Qed.

Lemma gwd_masked_error (x : DataArray) (yo w : option DataArray)
    (dim : dim_spec) (e : exn) :
  masked_weights x yo w dim = inl e ->
  _get_weights_and_dims x yo w dim = inl e.
Proof.
  intros H. unfold _get_weights_and_dims. now rewrite H.
Qed.

(** An operator fails as its resolver does. *)
Lemma operators_fail_with_resolver (sqrtQ : Q -> Q) (x y : DataArray)
    (w : option DataArray) (dim : dim_spec) (ddof : Z) (e : exn) :
  (_get_weights_and_dims x None w dim = inl e ->
     snd (weighted_sum x w dim) = inl e /\
     snd (weighted_mean x w dim) = inl e /\
     snd (weighted_std sqrtQ x w dim ddof) = inl e) /\
  (_get_weights_and_dims x (Some y) w dim = inl e ->
     snd (weighted_rmsd sqrtQ x y w dim) = inl e /\
     snd (weighted_cov x y w dim) = inl e /\
     snd (weighted_corr sqrtQ x y w dim) = inl e).
Proof.
  unfold weighted_sum, weighted_mean, weighted_std, weighted_rmsd,
    weighted_cov, weighted_corr.
  split; intros ->; destruct w; repeat split; reflexivity.
Qed.

(** C6. Once the dimensions are resolved, weights supplied with a shape
    other than that of the data along them make each of the six operators
    fail at the assertion on the shape of the weights; and two arrays of
    different shapes make each of the three two-array operators fail at
    one of the two shape assertions (the default weights being built for
    a well-formed array and a set of names).  There is no result and no
    reshaping. *)
Theorem shape_mismatch_is_fatal (sqrtQ : Q -> Q) (x : DataArray)
    (dim : dim_spec) (D : list string) :
  resolve_dims x dim = inr D ->
  (forall w y ddof,
     shape_eqb (shape w) (dims_shape x D) = false ->
     snd (weighted_sum x (Some w) dim) = inl (AssertionError WeightsShape) /\
     snd (weighted_mean x (Some w) dim) = inl (AssertionError WeightsShape) /\
     snd (weighted_std sqrtQ x (Some w) dim ddof)
       = inl (AssertionError WeightsShape) /\
     snd (weighted_rmsd sqrtQ x y (Some w) dim)
       = inl (AssertionError WeightsShape) /\
     snd (weighted_cov x y (Some w) dim) = inl (AssertionError WeightsShape) /\
     snd (weighted_corr sqrtQ x y (Some w) dim)
       = inl (AssertionError WeightsShape)) /\
  (forall y weights,
     shape x <> shape y ->
     (weights = None -> wf x /\ NoDup D) ->
     ShapeMismatch (snd (weighted_rmsd sqrtQ x y weights dim)) /\
     ShapeMismatch (snd (weighted_cov x y weights dim)) /\
     ShapeMismatch (snd (weighted_corr sqrtQ x y weights dim))).
Proof.
  intros HD. split.
  - intros w y ddof Hw.
    pose proof (gwd_masked_error _ _ _ _ _
                  (masked_weights_bad_weights x None w dim D HD Hw)) as E1.
    pose proof (gwd_masked_error _ _ _ _ _
                  (masked_weights_bad_weights x (Some y) w dim D HD Hw)) as E2.
    destruct (operators_fail_with_resolver sqrtQ x y (Some w) dim ddof
                (AssertionError WeightsShape)) as [H1 H2].
    destruct (H1 E1) as (? & ? & ?). destruct (H2 E2) as (? & ? & ?).
    repeat split; assumption.
  - intros y weights Hxy Hw.
    assert (Hb : shape_eqb (shape x) (shape y) = false).
    { destruct (shape_eqb (shape x) (shape y)) eqn:E; [| reflexivity].
      apply shape_eqb_eq in E. contradiction. }
    destruct (masked_weights_bad_xy x y weights dim D HD Hw Hb) as [E | E];
      apply gwd_masked_error in E;
      match type of E with _ = inl ?e =>
        destruct (operators_fail_with_resolver sqrtQ x y weights dim 0 e)
          as [_ H2]
      end;
      destruct (H2 E) as (R1 & R2 & R3); rewrite R1, R2, R3;
      repeat split; (now left) || (now right).
Qed.

Lemma shape_mismatch_is_fatal_witness :
  snd (weighted_mean x22 (Some (array1 "a" [Fin 1; Fin 1; Fin 1])) (DimStr "a"))
    = inl (AssertionError WeightsShape) /\
  ShapeMismatch (snd (weighted_cov x22 (array1 "a" [Fin 1]) None (DimStr "a"))).
Proof.
  destruct (shape_mismatch_is_fatal Qsqrt x22 (DimStr "a") ["a"] eq_refl)
    as [H1 H2].
  split.
  - apply (H1 (array1 "a" [Fin 1; Fin 1; Fin 1]) x22 0%Z). reflexivity.
  - apply H2.
    + discriminate.
    + intros _. split.
      * split; [reflexivity |].
        repeat constructor; simpl; intuition discriminate.
      * repeat constructor; simpl; tauto.
Defined.

(** ** The resolver: the normalisation check *)

Lemma close_to_within (v : fval) :
  close_to 1 v = true <-> within_tolerance v.
Proof.
  unfold close_to, within_tolerance. destruct v as [q | | |].
  - rewrite Qle_bool_iff.
    assert (E : rtol * Qabs 1 == rtol) by reflexivity.
    rewrite E. split.
    + intros H. exists q. now split.
    + intros [p [Hp H]]. injection Hp as <-. exact H.
  - split; [discriminate | intros [q [H _]]; discriminate].
  - split; [discriminate | intros [q [H _]]; discriminate].
  - split; [discriminate | intros [q [H _]]; discriminate].
Qed.

Lemma assert_allclose_within (t : DataArray) :
  assert_allclose t 1 = true <-> Forall within_tolerance (flatten t).
Proof.
  unfold assert_allclose. rewrite forallb_forall, Forall_forall.
  split; intros H v Hv; apply close_to_within; now apply H.
Qed.

Lemma gwd_inr (x : DataArray) (yo w : option DataArray) (dim : dim_spec)
    (wm : DataArray) (D : list string) :
  _get_weights_and_dims x yo w dim = inr (wm, D) <->
  masked_weights x yo w dim = inr (wm, D) /\
  exists t, normalized_total wm D = inr t /\ assert_allclose t 1 = true.
Proof.
  unfold _get_weights_and_dims.
  destruct (masked_weights x yo w dim) as [e | [wm' D']]; simpl.
  - split; [discriminate | intros [H _]; discriminate].
  - destruct (normalized_total wm' D') as [e | t] eqn:Et; simpl.
    + split; [discriminate |].
      intros [H [t [Ht _]]]. injection H as -> ->. congruence.
    + destruct (assert_allclose t 1) eqn:Ea.
      * split.
        -- intros H. injection H as -> ->. split; [reflexivity |].
           exists t. now split.
        -- intros [H _]. now rewrite H.
      * split; [discriminate |].
        intros [H [t' [Ht' Ha']]]. injection H as -> ->.
        rewrite Et in Ht'. injection Ht' as ->. congruence.
Qed.

Lemma gwd_not_normalized (x : DataArray) (yo w : option DataArray)
    (dim : dim_spec) (wm : DataArray) (D : list string) (t : DataArray) :
  masked_weights x yo w dim = inr (wm, D) ->
  normalized_total wm D = inr t ->
  ~ Forall within_tolerance (flatten t) ->
  _get_weights_and_dims x yo w dim = inl NormalizationError.
Proof.
  intros Hm Ht Hn. unfold _get_weights_and_dims. rewrite Hm. simpl.
  rewrite Ht. simpl.
  destruct (assert_allclose t 1) eqn:E; [| reflexivity].
  apply assert_allclose_within in E. contradiction.
Qed.

(** An operator that returns has resolved its weights. *)
Lemma operators_return_resolved (sqrtQ : Q -> Q) (x y : DataArray)
    (w : option DataArray) (dim : dim_spec) (ddof : Z) (r : DataArray) :
  (snd (weighted_sum x w dim) = inr r \/
   snd (weighted_mean x w dim) = inr r \/
   snd (weighted_std sqrtQ x w dim ddof) = inr r ->
   exists wm D, _get_weights_and_dims x None w dim = inr (wm, D)) /\
  (snd (weighted_rmsd sqrtQ x y w dim) = inr r \/
   snd (weighted_cov x y w dim) = inr r \/
   snd (weighted_corr sqrtQ x y w dim) = inr r ->
   exists wm D, _get_weights_and_dims x (Some y) w dim = inr (wm, D)).
Proof.
  split; intros H.
  - destruct (_get_weights_and_dims x None w dim) as [e | [wm D]] eqn:E;
      [| now exists wm, D].
    destruct (operators_fail_with_resolver sqrtQ x y w dim ddof e) as [F _].
    destruct (F E) as (F1 & F2 & F3).
    destruct H as [H | [H | H]]; congruence.
  - destruct (_get_weights_and_dims x (Some y) w dim) as [e | [wm D]] eqn:E;
      [| now exists wm, D].
    destruct (operators_fail_with_resolver sqrtQ x y w dim ddof e) as [_ F].
    destruct (F E) as (F1 & F2 & F3).
    destruct H as [H | [H | H]]; congruence.
Qed.

(** C5. The normalisation invariant.  Whenever one of the six operators
    returns a result, its resolver has returned masked weights whose
    quotient by their sum over the reduction dimensions sums, over those
    dimensions, to 1 within the tolerance of [assert_allclose], for every
    combination of the other axes (the elements of the checked array).
    And when the masked weights do not satisfy this, the resolver and each
    operator fail with the assertion error of the check: the check is the
    last step of the resolver, which is the first step of every
    operator, before any statistic. *)
Theorem normalization_invariant (sqrtQ : Q -> Q) (x y : DataArray)
    (w : option DataArray) (dim : dim_spec) (ddof : Z) :
  (forall yo r,
     match yo with
     | None => snd (weighted_sum x w dim) = inr r \/
               snd (weighted_mean x w dim) = inr r \/
               snd (weighted_std sqrtQ x w dim ddof) = inr r
     | Some y => snd (weighted_rmsd sqrtQ x y w dim) = inr r \/
                 snd (weighted_cov x y w dim) = inr r \/
                 snd (weighted_corr sqrtQ x y w dim) = inr r
     end ->
     exists wm D t,
       _get_weights_and_dims x yo w dim = inr (wm, D) /\
       masked_weights x yo w dim = inr (wm, D) /\
       normalized_total wm D = inr t /\
       Forall within_tolerance (flatten t)) /\
  (forall wm D t,
     masked_weights x None w dim = inr (wm, D) ->
     normalized_total wm D = inr t ->
     ~ Forall within_tolerance (flatten t) ->
     _get_weights_and_dims x None w dim = inl NormalizationError /\
     snd (weighted_sum x w dim) = inl NormalizationError /\
     snd (weighted_mean x w dim) = inl NormalizationError /\
     snd (weighted_std sqrtQ x w dim ddof) = inl NormalizationError) /\
  (forall wm D t,
     masked_weights x (Some y) w dim = inr (wm, D) ->
     normalized_total wm D = inr t ->
     ~ Forall within_tolerance (flatten t) ->
     _get_weights_and_dims x (Some y) w dim = inl NormalizationError /\
     snd (weighted_rmsd sqrtQ x y w dim) = inl NormalizationError /\
     snd (weighted_cov x y w dim) = inl NormalizationError /\
     snd (weighted_corr sqrtQ x y w dim) = inl NormalizationError).
Proof.
  split; [| split].
  - intros yo r H.
    assert (G : exists wm D, _get_weights_and_dims x yo w dim = inr (wm, D)).
    { destruct yo as [y' |].
      - now apply (operators_return_resolved sqrtQ x y' w dim ddof r).
      - now apply (operators_return_resolved sqrtQ x y w dim ddof r). }
    destruct G as (wm & D & G). exists wm, D.
    pose proof G as G'. apply gwd_inr in G' as [Hm [t [Ht Ha]]].
    exists t. repeat split; trivial. now apply assert_allclose_within.
  - intros wm D t Hm Ht Hn.
    pose proof (gwd_not_normalized _ _ _ _ _ _ _ Hm Ht Hn) as E.
    split; [exact E |].
    now apply (operators_fail_with_resolver sqrtQ x y w dim ddof).
  - intros wm D t Hm Ht Hn.
    pose proof (gwd_not_normalized _ _ _ _ _ _ _ Hm Ht Hn) as E.
    split; [exact E |].
    now apply (operators_fail_with_resolver sqrtQ x y w dim ddof).
Qed.

Lemma normalization_invariant_witness :
  (exists wm D t,
     _get_weights_and_dims x22 None None DimNone = inr (wm, D) /\
     masked_weights x22 None None DimNone = inr (wm, D) /\
     normalized_total wm D = inr t /\
     Forall within_tolerance (flatten t)) /\
  snd (weighted_mean v12 (Some zeros2) DimNone) = inl NormalizationError.
Proof.
  split.
  - destruct (normalization_invariant Qsqrt x22 x22 None DimNone 0)
      as (H & _ & _).
    eapply (H None). right. left. reflexivity.
  - destruct (normalization_invariant Qsqrt v12 v12 (Some zeros2) DimNone 0)
      as (_ & H & _).
    edestruct H as (_ & _ & Hm & _); [reflexivity | reflexivity | | exact Hm].
    intros F. apply assert_allclose_within in F. vm_compute in F.
    discriminate.
Defined.

(** ** Running the operators step by step *)

Lemma bind_inr {A B} (m : M A) (f : A -> M B) (b : B) :
  snd (bind m f) = inr b <->
  exists a, snd m = inr a /\ snd (f a) = inr b.
Proof.
  destruct m as [log [e | a]]; simpl.
  - split; [discriminate | intros [a [H _]]; discriminate].
  - destruct (f a) as [log' r] eqn:E; simpl. split.
    + intros ->. exists a. rewrite E. now split.
    + intros [a' [H H']]. injection H as <-. now rewrite E in H'.
Qed.

Lemma bind_step {A B} (m : M A) (f : A -> M B) (a : A) :
  m = ([], inr a) -> bind m f = f a.
Proof.
  intros ->. simpl. now destruct (f a).
Qed.

Lemma lift_inr {A} (r : res A) (a : A) : snd (lift r) = inr a <-> r = inr a.
Proof. reflexivity. Qed.

(** Take the successful run of an operator apart, step by step. *)
Ltac steps H :=
  repeat match type of H with
         | snd (bind _ _) = inr _ =>
             let a := fresh "a" in
             let Ha := fresh "Hstep" in
             apply bind_inr in H as [a [Ha H]];
             try (apply lift_inr in Ha)
         end.

Lemma weighted_sum_attrs (x : DataArray) (w : option DataArray)
    (dim : dim_spec) (r : DataArray) :
  snd (weighted_sum x w dim) = inr r ->
  exists raw, r = update_attrs raw (attrs x) (encoding x).
Proof.
  unfold weighted_sum. intros H. steps H. simpl in H.
  injection H as <-. eauto.
Qed.

Lemma weighted_mean_attrs (x : DataArray) (w : option DataArray)
    (dim : dim_spec) (r : DataArray) :
  snd (weighted_mean x w dim) = inr r ->
  exists raw, r = update_attrs raw (attrs x) (encoding x).
Proof.
  unfold weighted_mean. intros H. steps H. simpl in H.
  injection H as <-. eauto.
Qed.

Lemma weighted_std_attrs (sqrtQ : Q -> Q) (x : DataArray)
    (w : option DataArray) (dim : dim_spec) (ddof : Z) (r : DataArray) :
  snd (weighted_std sqrtQ x w dim ddof) = inr r ->
  exists raw, r = update_attrs raw (attrs x) (encoding x).
Proof.
  unfold weighted_std. intros H. steps H. simpl in H.
  injection H as <-. eauto.
Qed.

Lemma binop_attrs (f : fval -> fval -> fval) (a b r : DataArray) :
  binop f a b = inr r -> attrs r = [] /\ encoding r = [].
Proof.
  unfold binop. destruct (compatible _ _); [| discriminate].
  intros H. injection H as <-. now split.
Qed.

(** C4, as the code has it.  A result of [weighted_sum], [weighted_mean]
    or [weighted_std] is the computed statistic with the attributes and
    the encoding of [x] put on it by [update_attrs], which leaves its
    axes, shape and elements as they are.  A result of [weighted_rmsd],
    [weighted_cov] or [weighted_corr], which do not call [update_attrs],
    carries the metadata of an intermediate array of arithmetic: none. *)
Theorem metadata_passthrough (sqrtQ : Q -> Q) (x y : DataArray)
    (w : option DataArray) (dim : dim_spec) (ddof : Z) (r : DataArray) :
  (snd (weighted_sum x w dim) = inr r \/
   snd (weighted_mean x w dim) = inr r \/
   snd (weighted_std sqrtQ x w dim ddof) = inr r ->
   attrs r = attrs x /\ encoding r = encoding x /\
   exists raw, r = update_attrs raw (attrs x) (encoding x) /\
               values r = values raw /\ dims r = dims raw /\
               shape r = shape raw) /\
  (snd (weighted_rmsd sqrtQ x y w dim) = inr r \/
   snd (weighted_cov x y w dim) = inr r \/
   snd (weighted_corr sqrtQ x y w dim) = inr r ->
   attrs r = [] /\ encoding r = []).
Proof.
  split.
  - intros H.
    assert (E : exists raw, r = update_attrs raw (attrs x) (encoding x)).
    { destruct H as [H | [H | H]].
      - now apply weighted_sum_attrs in H.
      - now apply weighted_mean_attrs in H.
      - now apply weighted_std_attrs in H. }
    destruct E as [raw ->]. repeat split. exists raw. repeat split.
  - intros [H | [H | H]].
    + unfold weighted_rmsd in H. steps H. simpl in H. injection H as <-.
      apply weighted_mean_attrs in Hstep2 as [raw ->]. now split.
    + unfold weighted_cov in H. steps H. simpl in H. injection H as <-.
      apply weighted_mean_attrs in Hstep6 as [raw ->].
      apply binop_attrs in Hstep5 as [-> ->]. now split.
    + unfold weighted_corr in H. steps H. simpl in H. injection H as <-.
      now apply binop_attrs in Hstep5.
Qed.

Lemma metadata_passthrough_witness :
  (exists r, snd (weighted_mean v12_meta None DimNone) = inr r /\
             attrs r = [("units", "degC")] /\
             encoding r = [("dtype", "float64")]) /\
  (exists r, snd (weighted_cov v12_meta v12_meta None DimNone) = inr r /\
             attrs r = [] /\ encoding r = []).
Proof.
  split.
  - destruct (snd (weighted_mean v12_meta None DimNone)) as [e | r] eqn:E.
    + vm_compute in E. discriminate.
    + exists r. split; [reflexivity |].
      destruct (metadata_passthrough Qsqrt v12_meta v12_meta None DimNone 0 r)
        as [H _].
      destruct H as (Ha & He & _); [right; left; exact E |].
      split; [exact Ha | exact He].
  - destruct (snd (weighted_cov v12_meta v12_meta None DimNone))
      as [e | r] eqn:E.
    + vm_compute in E. discriminate.
    + exists r. split; [reflexivity |].
      destruct (metadata_passthrough Qsqrt v12_meta v12_meta None DimNone 0 r)
        as [_ H].
      apply H. right. left. exact E.
Defined.

(** C4 as stated fails: [weighted_cov] returns, for an array with
    attributes and an encoding, a result that has neither (and so do
    [weighted_rmsd] and [weighted_corr]). *)
Lemma metadata_lost_by_pairwise_operators :
  ~ (forall r,
       snd (weighted_rmsd Qsqrt v12_meta v12_meta None DimNone) = inr r \/
       snd (weighted_cov v12_meta v12_meta None DimNone) = inr r \/
       snd (weighted_corr Qsqrt v12_meta v12_meta None DimNone) = inr r ->
       attrs r = attrs v12_meta /\ encoding r = encoding v12_meta).
Proof.
  intros H.
  destruct (snd (weighted_cov v12_meta v12_meta None DimNone))
    as [e | r] eqn:E.
  - vm_compute in E. discriminate.
  - destruct (H r (or_intror (or_introl eq_refl))) as [_ He].
    vm_compute in E. injection E as <-. discriminate.
Qed.

(** ** Axes and broadcasting *)

Lemma nodupb_NoDup (l : list string) : nodupb l = true <-> NoDup l.
Proof.
  induction l as [| k l IH]; simpl.
  - split; [constructor | reflexivity].
  - rewrite andb_true_iff, negb_true_iff, mem_false, IH. split.
    + intros [H1 H2]. now constructor.
    + intros H. inversion H. now split.
Qed.

Lemma lookup_In (a : sized) (d : string) (n : nat) :
  NoDup (map fst a) -> In (d, n) a -> lookup d a = Some n.
Proof.
  induction a as [| [k m] a IH]; simpl; intros Hnd Hin; [contradiction |].
  inversion Hnd as [| ? ? Hk Hnd']; subst.
  destruct Hin as [E | Hin].
  - injection E as -> ->. now rewrite String.eqb_refl.
  - destruct (String.eqb_spec d k) as [-> | _]; [| now apply IH].
    exfalso. apply Hk. apply in_map_iff. now exists (k, n).
Qed.

Lemma compatible_refl (a : sized) :
  NoDup (map fst a) -> compatible a a = true.
Proof.
  intros Hnd. unfold compatible. apply forallb_forall. intros [d n] Hin.
  simpl. rewrite (lookup_In a d n Hnd Hin). apply Nat.eqb_refl.
Qed.

Lemma compatible_nil_r (a : sized) : compatible a [] = true.
Proof.
  unfold compatible. apply forallb_forall. intros p _. reflexivity.
Qed.

Lemma union_axes_refl (a : sized) : union_axes a a = a.
Proof.
  unfold union_axes. rewrite filter_none; [apply app_nil_r |].
  intros p Hp. apply negb_false_iff, mem_In. now apply in_map.
Qed.

Lemma union_axes_nil_r (a : sized) : union_axes a [] = a.
Proof. unfold union_axes. simpl. apply app_nil_r. Qed.

(** ** Cells *)

Lemma cells_agree (ds : list string) (sh : list nat) (e1 e2 : env) :
  List.length ds = List.length sh ->
  (forall k, ~ In k ds -> e1 k = e2 k) ->
  cells ds sh e1 = cells ds sh e2.
Proof.
  revert sh e1 e2.
  induction ds as [| d ds IH]; intros [| n sh] e1 e2 Hlen H; simpl in *;
    try discriminate.
  - f_equal. apply functional_extensionality. intros k. now apply H.
  - injection Hlen as Hlen. f_equal. apply functional_extensionality.
    intros i. apply IH; [assumption |].
    intros k Hk. unfold upd. destruct (String.eqb_spec k d) as [-> | Hd];
      [reflexivity |].
    apply H. intros [E | E]; [now symmetry in E | contradiction].
Qed.

Lemma cells_outside (ds : list string) (sh : list nat) (e c : env) :
  In c (cells ds sh e) -> forall k, ~ In k ds -> c k = e k.
Proof.
  revert sh e.
  induction ds as [| d ds IH]; intros sh e Hc k Hk.
  - destruct sh; simpl in Hc; destruct Hc as [<- | []]; reflexivity.
  - destruct sh as [| n sh]; simpl in Hc.
    + destruct Hc as [<- | []]. reflexivity.
    + apply in_flat_map in Hc as [i [_ Hc]].
      rewrite (IH sh _ Hc k) by (intros E; apply Hk; now right).
      unfold upd. destruct (String.eqb_spec k d) as [-> | _];
        [exfalso; apply Hk; now left | reflexivity].
Qed.

Lemma cells_idem (ds : list string) (sh : list nat) (e c : env) :
  List.length ds = List.length sh ->
  In c (cells ds sh e) -> cells ds sh c = cells ds sh e.
Proof.
  intros Hlen Hc. apply cells_agree; [assumption |].
  intros k Hk. now apply (cells_outside ds sh e c).
Qed.

(** ** The array operations on arrays over the same axes *)

Lemma axes_NoDup (ds : list string) (sh : list nat) :
  List.length ds = List.length sh -> NoDup ds -> NoDup (map fst (axes ds sh)).
Proof. intros H. now rewrite axes_fst. Qed.

Lemma binop_same (f : fval -> fval -> fval) (a b : DataArray) :
  wf a -> dims b = dims a -> shape b = shape a ->
  binop f a b
  = inr (mkDA (result_name a b) (dims a) (shape a)
              (fun e => f (values a e) (values b e)) [] []).
Proof.
  intros [Hlen Hnd] Hd Hs. unfold binop. rewrite Hd, Hs.
  rewrite compatible_refl by now apply axes_NoDup.
  rewrite union_axes_refl, axes_fst, axes_snd by assumption. reflexivity.
Qed.

Lemma binop_scalar (f : fval -> fval -> fval) (a b : DataArray) :
  List.length (dims a) = List.length (shape a) -> dims b = [] ->
  binop f a b
  = inr (mkDA (result_name a b) (dims a) (shape a)
              (fun e => f (values a e) (values b e)) [] []).
Proof.
  intros Hlen Hd. unfold binop. rewrite Hd. simpl.
  rewrite compatible_nil_r, union_axes_nil_r, axes_fst, axes_snd
    by assumption.
  reflexivity.
Qed.

Lemma where_same (w : DataArray) (c : BoolArray) :
  wf w -> bdims c = dims w -> bshape c = shape w ->
  where_ w c
  = inr (mkDA (name w) (dims w) (shape w)
              (fun e => if bvalues c e then values w e else NaN)
              (attrs w) []).
Proof.
  intros [Hlen Hnd] Hd Hs. unfold where_. rewrite Hd, Hs.
  rewrite compatible_refl by now apply axes_NoDup.
  rewrite union_axes_refl, axes_fst, axes_snd by assumption. reflexivity.
Qed.

Lemma band_same (a b : BoolArray) :
  List.length (bdims a) = List.length (bshape a) -> NoDup (bdims a) ->
  bdims b = bdims a -> bshape b = bshape a ->
  band a b
  = inr (mkBA (bdims a) (bshape a) (fun e => bvalues a e && bvalues b e)).
Proof.
  intros Hlen Hnd Hd Hs. unfold band. rewrite Hd, Hs.
  rewrite compatible_refl by now apply axes_NoDup.
  rewrite union_axes_refl, axes_fst, axes_snd by assumption. reflexivity.
Qed.

(** Summing out every axis leaves one number: the sum over all cells. *)
Lemma da_sum_all (a : DataArray) :
  wf a ->
  da_sum a (dims a)
  = inr (mkDA (name a) [] []
              (fun e => nansum (map (values a) (cells (dims a) (shape a) e)))
              [] []).
Proof.
  intros [Hlen Hnd]. unfold da_sum.
  assert (E1 : forallb (fun d => mem d (dims a)) (dims a) = true).
  { apply forallb_forall. intros d Hd. now apply mem_In. }
  assert (E2 : nodupb (dims a) = true) by now apply nodupb_NoDup.
  rewrite E1, E2. simpl.
  assert (In1 : forall p, In p (axes (dims a) (shape a)) ->
                          mem (fst p) (dims a) = true).
  { intros p Hp. apply mem_In. rewrite <- (axes_fst (dims a) (shape a) Hlen).
    now apply in_map. }
  rewrite (filter_none (fun p => negb (mem (fst p) (dims a)))).
  2:{ intros p Hp. now rewrite In1. }
  rewrite (filter_all (fun p => mem (fst p) (dims a))) by exact In1.
  rewrite axes_fst, axes_snd by assumption. reflexivity.
Qed.

Lemma dims_shape_all (x : DataArray) :
  List.length (dims x) = List.length (shape x) ->
  dims_shape x (dims x) = shape x.
Proof.
  intros Hlen. unfold dims_shape.
  rewrite filter_all; [now apply axes_snd |].
  intros p Hp. apply mem_In. rewrite <- (axes_fst (dims x) (shape x) Hlen).
  now apply in_map.
Qed.

Lemma resolve_dims_all (x : DataArray) (dim : dim_spec) :
  dims x <> [] -> requested_dims x dim = dims x ->
  resolve_dims x dim = inr (dims x).
Proof.
  intros Hne Hreq.
  rewrite resolve_dims_present; rewrite Hreq, present_self;
    [reflexivity | assumption].
Qed.

(** ** The resolver over every axis *)

Lemma wf_same_axes (a b : DataArray) : wf a -> same_axes a b -> wf b.
Proof. intros [H1 H2] [Hd Hs]. unfold wf. now rewrite Hd, Hs. Qed.

Lemma same_axes_ones (x : DataArray) : same_axes x (ones_like x).
Proof. now split. Qed.

Lemma same_axes_mask (x w : DataArray) (v : env -> bool) :
  same_axes x w -> same_axes x (mask_by v w).
Proof. intros H. exact H. Qed.

Lemma masked_weights_all (x : DataArray) (yo w : option DataArray)
    (dim : dim_spec) :
  wf x -> dims x <> [] -> requested_dims x dim = dims x ->
  same_axes x (weights_or_ones x w) ->
  (forall y, yo = Some y -> same_axes x y) ->
  masked_weights x yo w dim
  = inr (mask_by (validity x yo) (weights_or_ones x w), dims x).
Proof.
  intros Hwf Hne Hreq [Hwd Hws] Hy. pose proof Hwf as [Hlen Hnd].
  assert (Hwf' : wf (weights_or_ones x w)).
  { apply (wf_same_axes x); [assumption | now split]. }
  unfold masked_weights.
  rewrite (resolve_dims_all x dim Hne Hreq). unfold rbind at 1.
  cbv zeta. rewrite (dims_shape_all x Hlen).
  assert (Hv : match yo with
               | Some y => band (notnull x) (notnull y)
               | None => inr (notnull x)
               end
               = inr (mkBA (dims x) (shape x) (validity x yo))).
  { destruct yo as [y |]; [| reflexivity].
    destruct (Hy y eq_refl) as [Hyd Hys].
    rewrite band_same; simpl; trivial. }
  assert (Hs : forall y, yo = Some y -> shape_eqb (shape x) (shape y) = true).
  { intros y E. destruct (Hy y E) as [_ ->]. apply shape_eqb_refl. }
  destruct w as [w0 |]; simpl in Hwd, Hws, Hwf' |- *.
  - rewrite Hws, shape_eqb_refl. simpl.
    destruct yo as [y |]; [rewrite (Hs y eq_refl) |]; rewrite Hv; simpl;
      rewrite where_same; simpl; trivial; congruence.
  - unfold ones. rewrite <- Hlen, Nat.eqb_refl. simpl.
    destruct yo as [y |]; [rewrite (Hs y eq_refl) |]; rewrite Hv; simpl;
      rewrite where_same; simpl; trivial; congruence.
Qed.

Lemma flatten_scalar (t : DataArray) :
  dims t = [] -> flatten t = [values t env0].
Proof. intros H. unfold flatten. now rewrite H. Qed.

Lemma total_weight_cell (wm : DataArray) (e c : env) :
  List.length (dims wm) = List.length (shape wm) ->
  In c (all_cells wm e) -> total_weight wm c = total_weight wm e.
Proof.
  intros Hlen Hc. unfold total_weight, all_cells in *.
  now rewrite (cells_idem _ _ e c Hlen Hc).
Qed.

(** The checked number, for weights summed over all their axes. *)
Lemma normalized_total_all (wm : DataArray) :
  wf wm ->
  exists t, normalized_total wm (dims wm) = inr t /\
            dims t = [] /\ shape t = [] /\
            forall e, values t e = normalized_sum wm e.
Proof.
  intros Hwf. pose proof Hwf as [Hlen Hnd]. unfold normalized_total.
  rewrite (da_sum_all wm Hwf). simpl.
  rewrite binop_scalar by (simpl; trivial). simpl.
  match goal with
  | |- context [da_sum ?r _] =>
      assert (Hr : wf r) by (split; assumption);
      pose proof (da_sum_all r Hr) as Hs
  end.
  simpl in Hs. rewrite Hs. eexists. split; [reflexivity |].
  repeat split. intros e. simpl. unfold normalized_sum. f_equal.
  apply map_ext_in. intros c Hc. f_equal.
  now apply total_weight_cell.
Qed.

Lemma gwd_all (x : DataArray) (yo w : option DataArray) (dim : dim_spec) :
  wf x -> dims x <> [] -> requested_dims x dim = dims x ->
  same_axes x (weights_or_ones x w) ->
  (forall y, yo = Some y -> same_axes x y) ->
  _get_weights_and_dims x yo w dim
  = if close_to 1 (normalized_sum
                     (mask_by (validity x yo) (weights_or_ones x w)) env0)
    then inr (mask_by (validity x yo) (weights_or_ones x w), dims x)
    else inl (AssertionError AllClose).
Proof.
  intros Hwf Hne Hreq Hw Hy. unfold _get_weights_and_dims.
  rewrite (masked_weights_all x yo w dim Hwf Hne Hreq Hw Hy). simpl.
  set (wm := mask_by (validity x yo) (weights_or_ones x w)).
  assert (Hwm : wf wm).
  { apply (wf_same_axes x); [assumption |]. now apply same_axes_mask. }
  destruct (normalized_total_all wm Hwm) as (t & Ht & Hd & _ & Hv).
  assert (Ed : dims wm = dims x) by (destruct Hw; assumption).
  rewrite <- Ed, Ht. simpl. unfold assert_allclose.
  rewrite (flatten_scalar t Hd). simpl. rewrite Hv, andb_true_r.
  reflexivity.
Qed.

(** ** The sum and the mean over every axis *)

Lemma bind_lift {A B} (a : A) (f : A -> M B) : bind (lift (inr a)) f = f a.
Proof. now apply bind_step. Qed.

Lemma bind_ok {A B} (a : A) (f : A -> M B) : bind ([], inr a) f = f a.
Proof. now apply bind_step. Qed.

(** Masking again, by a mask that the weights already have, changes
    nothing. *)
Lemma mask_by_masked (v : env -> bool) (wm : DataArray) :
  encoding wm = [] ->
  (forall e, v e = false -> values wm e = NaN) -> mask_by v wm = wm.
Proof.
  intros Henc H. destruct wm as [n d s vals a enc]. unfold mask_by.
  simpl in *. subst enc. f_equal. apply functional_extensionality. intros e.
  destruct (v e) eqn:E; [reflexivity | symmetry; now apply H].
Qed.

(** The resolver gives back weights that it has masked and checked. *)
Lemma gwd_masked (z : DataArray) (yo : option DataArray) (wm : DataArray) :
  wf z -> dims z <> [] -> same_axes z wm -> encoding wm = [] ->
  (forall y, yo = Some y -> same_axes z y) ->
  (forall e, validity z yo e = false -> values wm e = NaN) ->
  close_to 1 (normalized_sum wm env0) = true ->
  _get_weights_and_dims z yo (Some wm) (DimList (dims z)) = inr (wm, dims z).
Proof.
  intros Hwf Hne Hw Henc Hy Hm Hc.
  rewrite gwd_all; trivial. simpl.
  rewrite (mask_by_masked _ wm Henc Hm). now rewrite Hc.
Qed.

Lemma weighted_sum_masked (z wm : DataArray) :
  wf z -> dims z <> [] -> same_axes z wm -> encoding wm = [] ->
  (forall e, valid1 z e = false -> values wm e = NaN) ->
  close_to 1 (normalized_sum wm env0) = true ->
  weighted_sum z (Some wm) (DimList (dims z))
  = ([], inr (mkDA (result_name z wm) [] [] (wsum z wm)
                   (attrs z) (encoding z))).
Proof.
  intros Hwf Hne Hw Henc Hm Hc. unfold weighted_sum.
  rewrite (gwd_masked z None wm); trivial; [| discriminate].
  simpl warn_default. unfold ret at 1. rewrite bind_ok, bind_lift. simpl fst.
  simpl snd. destruct Hw as [Hd Hs].
  rewrite (binop_same fmul z wm Hwf Hd Hs), bind_lift.
  match goal with
  | |- context [da_sum ?r _] =>
      assert (Hr : wf r) by exact Hwf;
      pose proof (da_sum_all r Hr) as Hsum
  end.
  simpl in Hsum. rewrite Hsum, bind_lift. reflexivity.
Qed.

Lemma total_weight_sum (z wm : DataArray) :
  wf z -> same_axes z wm ->
  da_sum wm (dims z)
  = inr (mkDA (name wm) [] [] (total_weight wm) [] []).
Proof.
  intros Hwf Hw. pose proof (wf_same_axes z wm Hwf Hw) as Hwm.
  destruct Hw as [Hd Hs]. rewrite <- Hd. now rewrite da_sum_all.
Qed.

Lemma weighted_mean_masked (z wm : DataArray) :
  wf z -> dims z <> [] -> same_axes z wm -> encoding wm = [] ->
  (forall e, valid1 z e = false -> values wm e = NaN) ->
  close_to 1 (normalized_sum wm env0) = true ->
  exists nm,
    weighted_mean z (Some wm) (DimList (dims z))
    = ([], inr (mkDA nm [] [] (wmean z wm) (attrs z) (encoding z))).
Proof.
  intros Hwf Hne Hw Henc Hm Hc. unfold weighted_mean.
  rewrite (gwd_masked z None wm); trivial; [| discriminate].
  simpl warn_default. unfold ret at 1. rewrite bind_ok, bind_lift. simpl fst.
  simpl snd.
  rewrite (weighted_sum_masked z wm Hwf Hne Hw Henc Hm Hc), bind_ok.
  rewrite (total_weight_sum z wm Hwf Hw), bind_lift.
  rewrite binop_same; [| split; [reflexivity | constructor] | reflexivity
                       | reflexivity].
  rewrite bind_lift. eexists. reflexivity.
Qed.

Lemma bind_warn_default {B} (w : option DataArray) (msg : string)
    (f : unit -> M B) :
  bind (warn_default w msg) f
  = (default_log w msg ++ fst (f tt), snd (f tt)).
Proof. destruct w; simpl; now destruct (f tt). Qed.

Lemma da_sum_over (a : DataArray) (ds : list string) :
  wf a -> ds = dims a ->
  da_sum a ds
  = inr (mkDA (name a) [] []
              (fun e => nansum (map (values a) (cells (dims a) (shape a) e)))
              [] []).
Proof. intros H ->. now apply da_sum_all. Qed.

(** ** The other operators over every axis, on weights that are masked
    and checked *)

Lemma weighted_mean_masked_at (z wm : DataArray) (D : list string) :
  wf z -> dims z <> [] -> same_axes z wm -> encoding wm = [] ->
  D = dims z ->
  (forall e, valid1 z e = false -> values wm e = NaN) ->
  close_to 1 (normalized_sum wm env0) = true ->
  exists nm,
    weighted_mean z (Some wm) (DimList D)
    = ([], inr (mkDA nm [] [] (wmean z wm) (attrs z) (encoding z))).
Proof. intros Hwf Hne Hw Henc -> Hm Hc. now apply weighted_mean_masked. Qed.

Lemma weighted_std_masked (sqrtQ : Q -> Q) (x wm : DataArray) (ddof : Z) :
  wf x -> dims x <> [] -> same_axes x wm -> encoding wm = [] ->
  (forall e, valid1 x e = false -> values wm e = NaN) ->
  close_to 1 (normalized_sum wm env0) = true ->
  exists nm,
    weighted_std sqrtQ x (Some wm) (DimList (dims x)) ddof
    = ([], inr (mkDA nm [] []
                  (fun e => fsqrt sqrtQ
                              (fdiv (wssd x wm e)
                                    (fsub (total_weight wm e)
                                          (Fin (inject_Z ddof)))))
                  (attrs x) (encoding x))).
Proof.
  intros Hwf Hne Hw Henc Hm Hc. unfold weighted_std.
  rewrite (gwd_masked x None wm); trivial; [| discriminate].
  simpl warn_default. unfold ret at 1. rewrite bind_ok, bind_lift. simpl fst.
  simpl snd.
  destruct (weighted_mean_masked x wm Hwf Hne Hw Henc Hm Hc) as [nm ->].
  rewrite bind_ok.
  pose proof Hwf as [Hlen Hnd].
  rewrite binop_scalar by trivial. rewrite bind_lift.
  pose proof (wf_same_axes x wm Hwf Hw) as Hwm. destruct Hw as [Hd Hs].
  rewrite binop_same; [| exact Hwm | simpl; congruence | simpl; congruence].
  rewrite bind_lift.
  rewrite da_sum_over; [| exact Hwm | now symmetry]. rewrite bind_lift.
  rewrite (da_sum_over wm); [| exact Hwm | now symmetry]. rewrite bind_lift.
  rewrite binop_same; [| split; [reflexivity | constructor] | reflexivity
                       | reflexivity].
  rewrite bind_lift. eexists. reflexivity.
Qed.

Lemma validity_false (x y : DataArray) (wm : DataArray) :
  (forall e, valid1 x e = false -> values wm e = NaN) ->
  (forall e, valid1 y e = false -> values wm e = NaN) ->
  forall e, validity x (Some y) e = false -> values wm e = NaN.
Proof.
  intros Hx Hy e H. simpl in H. apply andb_false_iff in H as [H | H]; auto.
Qed.

Lemma weighted_cov_masked (x y wm : DataArray) (D : list string) :
  wf x -> dims x <> [] -> same_axes x wm -> encoding wm = [] ->
  same_axes x y -> D = dims x ->
  close_to 1 (normalized_sum wm env0) = true ->
  (forall e, valid1 x e = false -> values wm e = NaN) ->
  (forall e, valid1 y e = false -> values wm e = NaN) ->
  (forall e, isnan (dev_prod x y wm e) = true -> values wm e = NaN) ->
  exists nm,
    weighted_cov x y (Some wm) (DimList D)
    = ([], inr (mkDA nm [] [] (wcov x y wm) [] [])).
Proof.
  intros Hwf Hne Hw Henc Hy -> Hc Hmx Hmy Hmd. unfold weighted_cov.
  rewrite (gwd_masked x (Some y) wm); trivial.
  2:{ intros y' E. now injection E as <-. }
  2:{ now apply validity_false. }
  simpl warn_default. unfold ret at 1. rewrite bind_ok, bind_lift. simpl fst.
  simpl snd.
  destruct (weighted_mean_masked x wm Hwf Hne Hw Henc Hmx Hc) as [nx ->].
  rewrite bind_ok.
  pose proof (wf_same_axes x y Hwf Hy) as Hwfy.
  pose proof Hy as [Hyd Hys]. pose proof Hw as [Hwd Hws].
  destruct (weighted_mean_masked_at y wm (dims x)) as [ny ->]; trivial;
    try congruence.
  { split; congruence. }
  rewrite bind_ok.
  pose proof Hwf as [Hlen Hnd]. pose proof Hwfy as [Hleny Hndy].
  rewrite binop_scalar by trivial. rewrite bind_lift.
  rewrite binop_scalar by trivial. rewrite bind_lift.
  rewrite binop_same; [| exact Hwf | simpl; congruence | simpl; congruence].
  rewrite bind_lift.
  match goal with
  | |- context [weighted_mean ?d _ _] =>
      destruct (weighted_mean_masked_at d wm (dims x)) as [nd Hd];
        [exact Hwf | exact Hne | exact Hw | exact Henc | reflexivity |
         | exact Hc |]
  end.
  { intros e He. apply Hmd. unfold valid1 in He. simpl in He.
    now apply negb_false_iff in He. }
  rewrite Hd, bind_ok. eexists. reflexivity.
Qed.

Lemma weighted_corr_masked (sqrtQ : Q -> Q) (x y wm : DataArray)
    (D : list string) :
  wf x -> dims x <> [] -> same_axes x wm -> encoding wm = [] ->
  same_axes x y -> D = dims x ->
  close_to 1 (normalized_sum wm env0) = true ->
  (forall e, valid1 x e = false -> values wm e = NaN) ->
  (forall e, valid1 y e = false -> values wm e = NaN) ->
  (forall e, isnan (dev_prod x y wm e) = true -> values wm e = NaN) ->
  (forall e, isnan (dev_prod x x wm e) = true -> values wm e = NaN) ->
  (forall e, isnan (dev_prod y y wm e) = true -> values wm e = NaN) ->
  exists nm,
    weighted_corr sqrtQ x y (Some wm) (DimList D)
    = ([], inr (mkDA nm [] []
                  (fun e => fdiv (wcov x y wm e)
                                 (fsqrt sqrtQ (fmul (wcov x x wm e)
                                                    (wcov y y wm e))))
                  [] [])).
Proof.
  intros Hwf Hne Hw Henc Hy -> Hc Hmx Hmy Hxy Hxx Hyy. unfold weighted_corr.
  rewrite (gwd_masked x (Some y) wm); trivial.
  2:{ intros y' E. now injection E as <-. }
  2:{ now apply validity_false. }
  simpl warn_default. unfold ret at 1. rewrite bind_ok, bind_lift. simpl fst.
  simpl snd.
  pose proof (wf_same_axes x y Hwf Hy) as Hwfy.
  pose proof Hy as [Hyd Hys]. pose proof Hw as [Hwd Hws].
  destruct (weighted_cov_masked x y wm (dims x)) as [n1 ->]; trivial.
  rewrite bind_ok.
  destruct (weighted_cov_masked x x wm (dims x)) as [n2 ->]; trivial.
  { now split. }
  rewrite bind_ok.
  destruct (weighted_cov_masked y y wm (dims x)) as [n3 ->]; trivial;
    try congruence; try (split; congruence).
  rewrite bind_ok.
  rewrite binop_same; [| split; [reflexivity | constructor] | reflexivity
                       | reflexivity].
  rewrite bind_lift.
  rewrite binop_same; [| split; [reflexivity | constructor] | reflexivity
                       | reflexivity].
  rewrite bind_lift. eexists. reflexivity.
Qed.

(** ** A call and the call on its resolved weights *)

Lemma weighted_mean_resolved (x : DataArray) (w : option DataArray)
    (dim : dim_spec) (wm : DataArray) (D : list string) :
  _get_weights_and_dims x None w dim = inr (wm, D) ->
  _get_weights_and_dims x None (Some wm) (DimList D) = inr (wm, D) ->
  weighted_mean x w dim
  = (default_log w "Computing mean with equal weights for all data points"
       ++ fst (weighted_mean x (Some wm) (DimList D)),
     snd (weighted_mean x (Some wm) (DimList D))).
Proof.
  intros H1 H2. unfold weighted_mean. rewrite !bind_warn_default.
  rewrite H1, H2. reflexivity.
Qed.

Lemma weighted_std_resolved (sqrtQ : Q -> Q) (x : DataArray)
    (w : option DataArray) (dim : dim_spec) (ddof : Z) (wm : DataArray)
    (D : list string) :
  _get_weights_and_dims x None w dim = inr (wm, D) ->
  _get_weights_and_dims x None (Some wm) (DimList D) = inr (wm, D) ->
  weighted_std sqrtQ x w dim ddof
  = (default_log w
       "Computing standard deviation with equal weights for all data points"
       ++ fst (weighted_std sqrtQ x (Some wm) (DimList D) ddof),
     snd (weighted_std sqrtQ x (Some wm) (DimList D) ddof)).
Proof.
  intros H1 H2. unfold weighted_std. rewrite !bind_warn_default.
  rewrite H1, H2. reflexivity.
Qed.

Lemma weighted_corr_resolved (sqrtQ : Q -> Q) (x y : DataArray)
    (w : option DataArray) (dim : dim_spec) (wm : DataArray)
    (D : list string) :
  _get_weights_and_dims x (Some y) w dim = inr (wm, D) ->
  _get_weights_and_dims x (Some y) (Some wm) (DimList D) = inr (wm, D) ->
  weighted_corr sqrtQ x y w dim
  = (default_log w
       "Computing weighted correlation with equal weights for all data points"
       ++ fst (weighted_corr sqrtQ x y (Some wm) (DimList D)),
     snd (weighted_corr sqrtQ x y (Some wm) (DimList D))).
Proof.
  intros H1 H2. unfold weighted_corr. rewrite !bind_warn_default.
  rewrite H1, H2. reflexivity.
Qed.

(** ** Signs and quotients *)

Lemma sgn_Eq (q : Q) : sgn q = Eq <-> q == 0.
Proof. unfold sgn. symmetry. apply Qeq_alt. Qed.

Lemma sgn_Gt (q : Q) : sgn q = Gt <-> 0 < q.
Proof. unfold sgn. symmetry. apply Qgt_alt. Qed.

Lemma sgn_Lt (q : Q) : sgn q = Lt <-> q < 0.
Proof. unfold sgn. symmetry. apply Qlt_alt. Qed.

Lemma fdiv_Fin (p q : Q) : ~ q == 0 -> fdiv (Fin p) (Fin q) = Fin (p / q).
Proof.
  intros H. unfold fdiv. destruct (sgn q) eqn:E; try reflexivity.
  apply sgn_Eq in E. contradiction.
Qed.

(** A quotient by zero is never finite, and neither is its root. *)
Lemma fdiv_zero (v : fval) (z : Q) :
  z == 0 -> isfinite (fdiv v (Fin z)) = false.
Proof.
  intros H. apply sgn_Eq in H.
  destruct v as [p | | |]; unfold fdiv; rewrite ?H; try reflexivity.
  now destruct (sgn p).
Qed.

Lemma fsqrt_nonfinite (sqrtQ : Q -> Q) (v : fval) :
  isfinite v = false -> isfinite (fsqrt sqrtQ v) = false.
Proof. destruct v; simpl; congruence. Qed.

(** ** Sums of rationals *)

Lemma qsum_from (l : list Q) (a : Q) : fold_left Qplus l a == a + qsum l.
Proof.
  unfold qsum. revert a. induction l as [| q l IH]; intros a; simpl.
  - ring.
  - rewrite IH, (IH (0 + q)). ring.
Qed.

Lemma qsum_cons (q : Q) (l : list Q) : qsum (q :: l) == q + qsum l.
Proof. unfold qsum at 1. simpl. rewrite qsum_from. ring. Qed.

Lemma qsum_map_ext {A} (f g : A -> Q) (l : list A) :
  (forall a, In a l -> f a == g a) -> qsum (map f l) == qsum (map g l).
Proof.
  induction l as [| a l IH]; intros H; simpl; [reflexivity |].
  rewrite !qsum_cons.
  assert (E1 : f a == g a) by (apply H; simpl; auto).
  assert (E2 : qsum (map f l) == qsum (map g l))
    by (apply IH; intros; apply H; simpl; auto).
  rewrite E1, E2. reflexivity.
Qed.

Lemma qsum_map_scale {A} (k : Q) (f : A -> Q) (l : list A) :
  qsum (map (fun a => k * f a) l) == k * qsum (map f l).
Proof.
  induction l as [| a l IH]; simpl.
  - unfold qsum. simpl. ring.
  - rewrite !qsum_cons, IH. ring.
Qed.

Lemma qsum_map_nonneg {A} (f : A -> Q) (l : list A) :
  (forall a, In a l -> 0 <= f a) -> 0 <= qsum (map f l).
Proof.
  induction l as [| a l IH]; intros H; simpl.
  - unfold qsum. simpl. lra.
  - rewrite qsum_cons.
    assert (0 <= f a) by (apply H; simpl; auto).
    assert (0 <= qsum (map f l)) by (apply IH; intros; apply H; simpl; auto).
    lra.
Qed.

Lemma qsum_map_pos {A} (f : A -> Q) (l : list A) (a : A) :
  (forall b, In b l -> 0 <= f b) -> In a l -> 0 < f a ->
  0 < qsum (map f l).
Proof.
  induction l as [| b l IH]; intros H Hin Hpos; simpl; [contradiction |].
  rewrite qsum_cons.
  assert (Hb : 0 <= f b) by (apply H; simpl; auto).
  assert (Hl : 0 <= qsum (map f l)).
  { apply qsum_map_nonneg. intros; apply H; simpl; auto. }
  destruct Hin as [-> | Hin]; [lra |].
  assert (0 < qsum (map f l)).
  { apply IH; trivial. intros; apply H; simpl; auto. }
  lra.
Qed.

(** ** Sums that skip NaN, on numbers and missing values *)

Lemma nansum_from (l : list fval) (a : Q) :
  (forall v, In v l -> v = NaN \/ exists q, v = Fin q) ->
  fold_left (fun acc v => fadd acc (nan_to_zero v)) l (Fin a)
  = Fin (fold_left Qplus (map to_Q l) a).
Proof.
  revert a. induction l as [| v l IH]; intros a H; simpl; [reflexivity |].
  assert (Hl : forall u, In u l -> u = NaN \/ exists q, u = Fin q).
  { intros u Hu. apply H. now right. }
  destruct (H v (or_introl eq_refl)) as [-> | [q ->]]; simpl;
    now rewrite IH.
Qed.

Lemma nansum_Fin (l : list fval) :
  (forall v, In v l -> v = NaN \/ exists q, v = Fin q) ->
  nansum l = Fin (qsum (map to_Q l)).
Proof. intros H. unfold nansum, qsum. now apply nansum_from. Qed.

Lemma nansum_map_Fin {A} (f : A -> fval) (l : list A) :
  (forall a, In a l -> f a = NaN \/ exists q, f a = Fin q) ->
  nansum (map f l) = Fin (qsum (map (fun a => to_Q (f a)) l)).
Proof.
  intros H. rewrite nansum_Fin, map_map; [reflexivity |].
  intros v Hv. apply in_map_iff in Hv as [a [<- Ha]]. now apply H.
Qed.

(** ** Weights whose total is zero fail the check *)

Lemma close_to_zero (q : Q) : q == 0 -> close_to 1 (Fin q) = false.
Proof.
  intros H. unfold close_to.
  destruct (Qle_bool (Qabs (q - 1)) (rtol * Qabs 1)) eqn:E; [| reflexivity].
  apply Qle_bool_iff in E. exfalso.
  assert (E1 : q - 1 == - (1)) by (rewrite H; ring).
  rewrite E1 in E.
  assert (E2 : Qabs (- (1)) == 1) by reflexivity.
  assert (E3 : rtol * Qabs 1 == rtol) by reflexivity.
  rewrite E2, E3 in E. unfold rtol in E. revert E. apply Qlt_not_le.
  reflexivity.
Qed.

Lemma nonfinite_sum_from (l : list fval) (acc : fval) :
  (forall v, In v l -> isfinite v = false) ->
  (isfinite acc = false \/ exists q, acc = Fin q /\ q == 0) ->
  let s := fold_left (fun a v => fadd a (nan_to_zero v)) l acc in
  isfinite s = false \/ exists q, s = Fin q /\ q == 0.
Proof.
  revert acc. induction l as [| v l IH]; intros acc Hl Hacc; simpl;
    [exact Hacc |].
  apply IH; [intros u Hu; apply Hl; now right |].
  specialize (Hl v (or_introl eq_refl)).
  destruct v as [p | | |]; try discriminate;
    destruct Hacc as [Ha | [q [-> Hq]]];
    try (destruct acc; try discriminate; simpl; auto; fail);
    simpl; auto.
  right. exists (q + 0). split; [reflexivity | rewrite Hq; ring].
Qed.

Lemma nonfinite_sum_not_close (l : list fval) :
  (forall v, In v l -> isfinite v = false) ->
  close_to 1 (nansum l) = false.
Proof.
  intros H. unfold nansum.
  destruct (nonfinite_sum_from l (Fin 0) H) as [E | [q [E Hq]]].
  - right. exists 0. split; reflexivity.
  - destruct (fold_left _ l (Fin 0)); try discriminate; reflexivity.
  - rewrite E. now apply close_to_zero.
Qed.

Lemma zero_total_not_close (wm : DataArray) (e : env) (z : Q) :
  total_weight wm e = Fin z -> z == 0 ->
  close_to 1 (normalized_sum wm e) = false.
Proof.
  intros Ht Hz. unfold normalized_sum. rewrite Ht.
  apply nonfinite_sum_not_close. intros v Hv.
  apply in_map_iff in Hv as [c [<- _]]. now apply fdiv_zero.
Qed.

(** ** Arrays whose elements depend on their own axes only *)

Lemma map_cells_local {A} (f : env -> A) (names ds : list string)
    (sh : list nat) (e e' : env) :
  (forall a b, (forall k, In k names -> a k = b k) -> f a = f b) ->
  List.length ds = List.length sh ->
  (forall k, In k names -> ~ In k ds -> e k = e' k) ->
  map f (cells ds sh e) = map f (cells ds sh e').
Proof.
  intros Hf. revert sh e e'.
  induction ds as [| d ds IH]; intros [| n sh] e e' Hlen H; simpl in *;
    try discriminate.
  - f_equal. apply Hf. intros k Hk. apply H; [assumption | tauto].
  - injection Hlen as Hlen. rewrite !flat_map_concat_map, !concat_map, !map_map.
    f_equal. apply map_ext. intros i. apply IH; [assumption |].
    intros k Hk Hn. unfold upd.
    destruct (String.eqb_spec k d) as [-> | Hd]; [reflexivity |].
    apply H; [assumption |].
    intros [E | E]; [now symmetry in E | contradiction].
Qed.

Lemma map_all_cells_local {A} (f : env -> A) (x : DataArray) (e e' : env) :
  (forall a b, (forall k, In k (dims x) -> a k = b k) -> f a = f b) ->
  List.length (dims x) = List.length (shape x) ->
  map f (all_cells x e) = map f (all_cells x e').
Proof.
  intros Hf Hlen. unfold all_cells.
  apply (map_cells_local f (dims x)); trivial. intros k Hk Hn. contradiction.
Qed.

Lemma total_weight_local (wm : DataArray) (e e' : env) :
  wf wm -> local wm -> total_weight wm e = total_weight wm e'.
Proof.
  intros [Hlen _] Hl. unfold total_weight. f_equal.
  now apply map_all_cells_local.
Qed.

Lemma wsum_local (z wm : DataArray) (e e' : env) :
  wf z -> same_axes z wm -> local z -> local wm ->
  wsum z wm e = wsum z wm e'.
Proof.
  intros [Hlen _] [Hd _] Hz Hw. unfold wsum. f_equal.
  apply map_all_cells_local; trivial.
  intros a b H. rewrite (Hz a b H), (Hw a b); [reflexivity |].
  rewrite Hd. exact H.
Qed.

(** ** Numbers and missing values: the mean is a number *)

Lemma clean_cases (z : DataArray) (e : env) :
  clean z ->
  (values z e = NaN /\ valid1 z e = false) \/
  (exists q, values z e = Fin q /\ valid1 z e = true).
Proof.
  intros Hz. unfold valid1. destruct (Hz e) as [E | [q E]]; rewrite E.
  - now left.
  - right. now exists q.
Qed.

Lemma fmul_clean (a b : fval) :
  (a = NaN \/ exists q, a = Fin q) -> (b = NaN \/ exists q, b = Fin q) ->
  fmul a b = NaN \/ exists q, fmul a b = Fin q.
Proof.
  intros [-> | [p ->]] [-> | [q ->]]; simpl; eauto.
Qed.

Section Clean.

Variables (x wm : DataArray).
Hypothesis Hwf : wf x.
Hypothesis Hw : same_axes x wm.
Hypothesis Hlw : local wm.
Hypothesis Hcw : clean wm.
Hypothesis Hc : close_to 1 (normalized_sum wm env0) = true.

Lemma total_weight_Q (e : env) : total_weight wm e = Fin (total_Q wm).
Proof.
  rewrite (total_weight_local wm e env0);
    [| now apply (wf_same_axes x) | assumption].
  unfold total_weight, total_Q. apply nansum_map_Fin. intros c _. apply Hcw.
Qed.

Lemma total_Q_nonzero : ~ total_Q wm == 0.
Proof.
  intros H. rewrite (zero_total_not_close wm env0 (total_Q wm)) in Hc;
    [discriminate | apply total_weight_Q | exact H].
Qed.

Lemma wsum_Q_spec (z : DataArray) (e : env) :
  same_axes x z -> local z -> clean z ->
  wsum z wm e = Fin (wsum_Q z wm).
Proof.
  intros Hz Hlz Hcz.
  assert (Hwfz : wf z) by now apply (wf_same_axes x).
  assert (Hzw : same_axes z wm).
  { destruct Hz as [E1 E2], Hw as [E3 E4]. split; congruence. }
  rewrite (wsum_local z wm e env0) by trivial.
  unfold wsum, wsum_Q. apply nansum_map_Fin. intros c _.
  apply fmul_clean; [apply Hcz | apply Hcw].
Qed.

Lemma wmean_Q_spec (z : DataArray) (e : env) :
  same_axes x z -> local z -> clean z ->
  wmean z wm e = Fin (wmean_Q z wm).
Proof.
  intros Hz Hlz Hcz. unfold wmean, wmean_Q.
  rewrite (wsum_Q_spec z e Hz Hlz Hcz), total_weight_Q.
  apply fdiv_Fin, total_Q_nonzero.
Qed.

End Clean.

(** ** Calls that reduce over every axis *)

Lemma gwd_all_inr (x : DataArray) (yo w : option DataArray) (dim : dim_spec)
    (wm : DataArray) (D : list string) :
  wf x -> dims x <> [] -> requested_dims x dim = dims x ->
  same_axes x (weights_or_ones x w) ->
  (forall y, yo = Some y -> same_axes x y) ->
  _get_weights_and_dims x yo w dim = inr (wm, D) ->
  wm = mask_by (validity x yo) (weights_or_ones x w) /\ D = dims x /\
  close_to 1 (normalized_sum wm env0) = true.
Proof.
  intros Hwf Hne Hreq Hw Hy H. rewrite gwd_all in H by trivial.
  destruct (close_to 1 _) eqn:E; [| discriminate].
  injection H as <- <-. now repeat split.
Qed.

Lemma mask_by_invalid (x : DataArray) (yo : option DataArray)
    (w : DataArray) (e : env) :
  validity x yo e = false -> values (mask_by (validity x yo) w) e = NaN.
Proof. intros H. simpl. now rewrite H. Qed.

Lemma mask_by_invalid1 (x : DataArray) (yo : option DataArray)
    (w : DataArray) (e : env) :
  valid1 x e = false -> values (mask_by (validity x yo) w) e = NaN.
Proof.
  intros H. apply mask_by_invalid. destruct yo; simpl; now rewrite H.
Qed.

Lemma mask_by_invalid2 (x y w : DataArray) (e : env) :
  valid1 y e = false -> values (mask_by (validity x (Some y)) w) e = NaN.
Proof.
  intros H. apply mask_by_invalid. simpl. rewrite H. apply andb_false_r.
Qed.

(** The resolved weights of a call are weights that the resolver gives
    back. *)
Lemma gwd_all_again (x : DataArray) (yo w : option DataArray)
    (dim : dim_spec) (wm : DataArray) (D : list string) :
  wf x -> dims x <> [] -> requested_dims x dim = dims x ->
  same_axes x (weights_or_ones x w) ->
  (forall y, yo = Some y -> same_axes x y) ->
  _get_weights_and_dims x yo w dim = inr (wm, D) ->
  _get_weights_and_dims x yo (Some wm) (DimList D) = inr (wm, D).
Proof.
  intros Hwf Hne Hreq Hw Hy H.
  destruct (gwd_all_inr x yo w dim wm D Hwf Hne Hreq Hw Hy H)
    as (-> & -> & Hc).
  apply gwd_masked; trivial. intros e He. now apply mask_by_invalid.
Qed.

Lemma weighted_mean_full (x : DataArray) (w : option DataArray)
    (dim : dim_spec) (wm : DataArray) (D : list string) :
  wf x -> dims x <> [] -> requested_dims x dim = dims x ->
  same_axes x (weights_or_ones x w) ->
  _get_weights_and_dims x None w dim = inr (wm, D) ->
  exists nm,
    weighted_mean x w dim
    = (default_log w "Computing mean with equal weights for all data points",
       inr (mkDA nm [] [] (wmean x wm) (attrs x) (encoding x))).
Proof.
  intros Hwf Hne Hreq Hw H.
  assert (Hy : forall y, @None DataArray = Some y -> same_axes x y)
    by discriminate.
  pose proof (gwd_all_again x None w dim wm D Hwf Hne Hreq Hw Hy H) as H2.
  rewrite (weighted_mean_resolved x w dim wm D H H2).
  destruct (gwd_all_inr x None w dim wm D Hwf Hne Hreq Hw Hy H)
    as (E & -> & Hc).
  destruct (weighted_mean_masked x wm) as [nm ->]; trivial.
  - rewrite E. exact Hw.
  - now rewrite E.
  - intros e He. rewrite E. now apply mask_by_invalid.
  - exists nm. simpl. now rewrite app_nil_r.
Qed.

Lemma weighted_std_full (sqrtQ : Q -> Q) (x : DataArray)
    (w : option DataArray) (dim : dim_spec) (ddof : Z) (wm : DataArray)
    (D : list string) :
  wf x -> dims x <> [] -> requested_dims x dim = dims x ->
  same_axes x (weights_or_ones x w) ->
  _get_weights_and_dims x None w dim = inr (wm, D) ->
  exists nm,
    weighted_std sqrtQ x w dim ddof
    = (default_log w
         "Computing standard deviation with equal weights for all data points",
       inr (mkDA nm [] []
              (fun e => fsqrt sqrtQ
                          (fdiv (wssd x wm e)
                                (fsub (total_weight wm e)
                                      (Fin (inject_Z ddof)))))
              (attrs x) (encoding x))).
Proof.
  intros Hwf Hne Hreq Hw H.
  assert (Hy : forall y, @None DataArray = Some y -> same_axes x y)
    by discriminate.
  pose proof (gwd_all_again x None w dim wm D Hwf Hne Hreq Hw Hy H) as H2.
  rewrite (weighted_std_resolved sqrtQ x w dim ddof wm D H H2).
  destruct (gwd_all_inr x None w dim wm D Hwf Hne Hreq Hw Hy H)
    as (E & -> & Hc).
  destruct (weighted_std_masked sqrtQ x wm ddof) as [nm ->]; trivial.
  - rewrite E. exact Hw.
  - now rewrite E.
  - intros e He. rewrite E. now apply mask_by_invalid.
  - exists nm. simpl. now rewrite app_nil_r.
Qed.

(** ** Numbers and missing values: the check, the covariance *)

Lemma clean_mask_by (v : env -> bool) (w : DataArray) :
  clean w -> clean (mask_by v w).
Proof.
  intros H e. simpl. destruct (v e); [apply H | now left].
Qed.

Lemma clean_ones (x : DataArray) : clean (ones_like x).
Proof. intros e. right. now exists 1. Qed.

Lemma local_ones (x : DataArray) : local (ones_like x).
Proof. intros e e' _. reflexivity. Qed.

Lemma local_mask_by (x : DataArray) (yo : option DataArray) (w : DataArray) :
  local x -> (forall y, yo = Some y -> local y /\ dims y = dims x) ->
  local w -> dims w = dims x ->
  local (mask_by (validity x yo) w).
Proof.
  intros Hx Hy Hw Hd e e' H. simpl in *. rewrite Hd in H.
  assert (Ev : validity x yo e = validity x yo e').
  { destruct yo as [y |]; simpl; unfold valid1.
    - destruct (Hy y eq_refl) as [Hly Hyd].
      rewrite (Hx e e' H), (Hly e e'); [reflexivity | now rewrite Hyd].
    - now rewrite (Hx e e' H). }
  rewrite Ev, (Hw e e'); [reflexivity | now rewrite Hd].
Qed.

Lemma close_to_one (q : Q) : q == 1 -> close_to 1 (Fin q) = true.
Proof.
  intros H. unfold close_to. apply Qle_bool_iff.
  assert (E1 : q - 1 == 0) by (rewrite H; ring).
  rewrite E1.
  assert (E2 : Qabs 0 == 0) by reflexivity.
  assert (E3 : rtol * Qabs 1 == rtol) by reflexivity.
  rewrite E2, E3. unfold rtol. discriminate.
Qed.

Lemma to_Q_fdiv (v : fval) (t : Q) :
  (v = NaN \/ exists q, v = Fin q) -> ~ t == 0 ->
  (fdiv v (Fin t) = NaN \/ exists q, fdiv v (Fin t) = Fin q) /\
  to_Q (fdiv v (Fin t)) == / t * to_Q v.
Proof.
  intros [-> | [q ->]] Ht.
  - split; [now left |]. simpl. ring.
  - rewrite fdiv_Fin by assumption. split; [right; eauto |]. simpl.
    unfold Qdiv. ring.
Qed.

(** Weights of numbers and missing values pass the check exactly when
    their total is not zero. *)
Lemma check_passes (wm : DataArray) :
  clean wm -> ~ total_Q wm == 0 ->
  close_to 1 (normalized_sum wm env0) = true.
Proof.
  intros Hcw Ht.
  assert (Etot : total_weight wm env0 = Fin (total_Q wm)).
  { unfold total_weight, total_Q. apply nansum_map_Fin. intros c _.
    apply Hcw. }
  unfold normalized_sum. rewrite Etot.
  rewrite nansum_map_Fin.
  2:{ intros c _. now apply to_Q_fdiv. }
  apply close_to_one.
  rewrite (qsum_map_ext _ (fun c => / total_Q wm * to_Q (values wm c))).
  2:{ intros c _. now apply to_Q_fdiv. }
  rewrite qsum_map_scale. fold (total_Q wm). now field.
Qed.

Lemma same_axes_refl (x : DataArray) : same_axes x x.
Proof. now split. Qed.

Lemma same_axes_sym (x y : DataArray) : same_axes x y -> same_axes y x.
Proof. intros [H1 H2]. now split. Qed.

Lemma same_axes_trans (x y z : DataArray) :
  same_axes x y -> same_axes y z -> same_axes x z.
Proof. intros [H1 H2] [H3 H4]. split; congruence. Qed.

Section Covariance.

Variables (x y wm : DataArray).
Hypothesis Hwf : wf x.
Hypothesis Hw : same_axes x wm.
Hypothesis Hy : same_axes x y.
Hypothesis Hlx : local x.
Hypothesis Hly : local y.
Hypothesis Hlw : local wm.
Hypothesis Hcx : clean x.
Hypothesis Hcy : clean y.
Hypothesis Hcw : clean wm.
Hypothesis Hc : close_to 1 (normalized_sum wm env0) = true.

(** The product of deviations is a number where both elements are, and
    missing elsewhere. *)
Lemma dev_prod_cases (e : env) :
  ((valid1 x e = false \/ valid1 y e = false) /\ dev_prod x y wm e = NaN) \/
  (exists p q, values x e = Fin p /\ values y e = Fin q /\
               dev_prod x y wm e
               = Fin ((p + - wmean_Q x wm) * (q + - wmean_Q y wm))).
Proof.
  unfold dev_prod.
  rewrite (wmean_Q_spec x wm Hwf Hw Hlw Hcw Hc x e
             (same_axes_refl x) Hlx Hcx).
  rewrite (wmean_Q_spec x wm Hwf Hw Hlw Hcw Hc y e Hy Hly Hcy).
  destruct (clean_cases x e Hcx) as [[Ex Vx] | [p [Ex Vx]]];
    destruct (clean_cases y e Hcy) as [[Ey Vy] | [q [Ey Vy]]];
    rewrite Ex, Ey; simpl; auto.
  right. exists p, q. auto.
Qed.

Lemma dev_prod_masked (e : env) :
  (forall a, valid1 x a = false -> values wm a = NaN) ->
  (forall a, valid1 y a = false -> values wm a = NaN) ->
  isnan (dev_prod x y wm e) = true -> values wm e = NaN.
Proof.
  intros Hmx Hmy H.
  destruct (dev_prod_cases e) as [[[V | V] _] | (p & q & _ & _ & E)]; auto.
  rewrite E in H. discriminate.
Qed.

Lemma wcov_Q_spec : wcov x y wm env0 = Fin (cov_Q x y wm).
Proof.
  unfold wcov, cov_Q.
  rewrite (total_weight_Q x wm Hwf Hw Hlw Hcw).
  rewrite nansum_map_Fin.
  - apply fdiv_Fin. now apply (total_Q_nonzero x wm).
  - intros c _. apply fmul_clean; [| apply Hcw].
    destruct (dev_prod_cases c) as [[_ E] | (p & q & _ & _ & E)];
      rewrite E; eauto.
Qed.

End Covariance.

Lemma weighted_corr_full (sqrtQ : Q -> Q) (x y : DataArray)
    (w : option DataArray) (dim : dim_spec) (wm : DataArray)
    (D : list string) :
  wf x -> dims x <> [] -> requested_dims x dim = dims x ->
  same_axes x (weights_or_ones x w) -> same_axes x y ->
  local x -> local y -> local (weights_or_ones x w) ->
  clean x -> clean y -> clean (weights_or_ones x w) ->
  _get_weights_and_dims x (Some y) w dim = inr (wm, D) ->
  exists r,
    weighted_corr sqrtQ x y w dim
    = (default_log w
         "Computing weighted correlation with equal weights for all data points",
       inr r) /\
    flatten r
    = [fdiv (Fin (cov_Q x y wm))
            (fsqrt sqrtQ (fmul (Fin (cov_Q x x wm)) (Fin (cov_Q y y wm))))].
Proof.
  intros Hwf Hne Hreq Hw Hy Hlx Hly Hlw Hcx Hcy Hcw H.
  assert (Hyo : forall y', Some y = Some y' -> same_axes x y').
  { intros y' E. now injection E as <-. }
  pose proof (gwd_all_again x (Some y) w dim wm D Hwf Hne Hreq Hw Hyo H)
    as H2.
  rewrite (weighted_corr_resolved sqrtQ x y w dim wm D H H2).
  destruct (gwd_all_inr x (Some y) w dim wm D Hwf Hne Hreq Hw Hyo H)
    as (E & -> & Hc).
  assert (Hwm : same_axes x wm) by (rewrite E; exact Hw).
  assert (Hmx : forall e, valid1 x e = false -> values wm e = NaN).
  { intros e He. rewrite E. now apply mask_by_invalid1. }
  assert (Hmy : forall e, valid1 y e = false -> values wm e = NaN).
  { intros e He. rewrite E. now apply mask_by_invalid2. }
  assert (Hlwm : local wm).
  { rewrite E. apply local_mask_by; trivial.
    - intros y' Ey. injection Ey as <-. split; [assumption | apply Hy].
    - apply Hw. }
  assert (Hcwm : clean wm) by (rewrite E; now apply clean_mask_by).
  assert (Henc : encoding wm = []) by now rewrite E.
  pose proof (wf_same_axes x y Hwf Hy) as Hwfy.
  pose proof (same_axes_trans y x wm (same_axes_sym x y Hy) Hwm) as Hywm.
  destruct (weighted_corr_masked sqrtQ x y wm (dims x)) as [nm ->]; trivial.
  - intros e. now apply (dev_prod_masked x y wm).
  - intros e. apply (dev_prod_masked x x wm); trivial. apply same_axes_refl.
  - intros e. apply (dev_prod_masked y y wm); trivial. apply same_axes_refl.
  - eexists. split; [simpl; now rewrite app_nil_r |].
    rewrite flatten_scalar by reflexivity. simpl values.
    rewrite (wcov_Q_spec x y wm), (wcov_Q_spec x x wm), (wcov_Q_spec y y wm);
      trivial; apply same_axes_refl.
Qed.

(** ** The correlation of an array with itself *)

Lemma default_weight_value (x : DataArray) (yo : option DataArray) (c : env) :
  to_Q (values (mask_by (validity x yo) (ones_like x)) c)
  = if validity x yo c then 1 else 0.
Proof. simpl. now destruct (validity x yo c). Qed.

Lemma default_total_pos (x : DataArray) (c : env) (p : Q) :
  In c (all_cells x env0) -> values x c = Fin p ->
  0 < total_Q (mask_by (validity x (Some x)) (ones_like x)).
Proof.
  intros Hin Hp. unfold total_Q.
  apply (qsum_map_pos _ _ c).
  - intros b _. rewrite default_weight_value.
    destruct (validity x (Some x) b); lra.
  - exact Hin.
  - rewrite default_weight_value. simpl. unfold valid1. rewrite Hp. simpl.
    lra.
Qed.

Lemma fdiv_self_root (sqrtQ : Q -> Q) (c : Q) :
  (forall q, 0 <= q -> sqrtQ (q * q) == q) -> 0 < c ->
  exists v, fdiv (Fin c) (fsqrt sqrtQ (fmul (Fin c) (Fin c))) = Fin v /\
            v == 1.
Proof.
  intros Hs Hc. simpl fmul. unfold fsqrt.
  assert (Hcc : 0 < c * c) by nra.
  apply sgn_Gt in Hcc. rewrite Hcc.
  assert (E : sqrtQ (c * c) == c) by (apply Hs; lra).
  assert (Hn : ~ sqrtQ (c * c) == 0) by (rewrite E; lra).
  rewrite fdiv_Fin by exact Hn.
  eexists. split; [reflexivity |]. rewrite E. field. lra.
Qed.

Lemma dims_nonempty_of_two_cells (x : DataArray) (c1 c2 : env) (p1 p2 : Q) :
  In c1 (all_cells x env0) -> In c2 (all_cells x env0) ->
  values x c1 = Fin p1 -> values x c2 = Fin p2 -> ~ p1 == p2 ->
  dims x <> [].
Proof.
  intros H1 H2 E1 E2 Hne Hd. unfold all_cells in *. rewrite Hd in *.
  simpl in *. destruct H1 as [<- | []], H2 as [<- | []].
  rewrite E1 in E2. injection E2 as ->. apply Hne. reflexivity.
Qed.

Lemma square_pos (p m : Q) : ~ p == m -> 0 < (p + - m) * (p + - m) * 1.
Proof.
  intros H. destruct (Q_dec p m) as [[Hlt | Hgt] | He]; [| | contradiction].
  - assert (0 < m - p) by lra. nra.
  - assert (0 < p - m) by lra. nra.
Qed.

Lemma square_nonneg (t : Q) : 0 <= t * t * 1.
Proof.
  destruct (Qlt_le_dec t 0) as [H | H].
  - assert (0 < - t) by lra. assert (0 <= (- t) * (- t)) by nra. lra.
  - assert (0 <= t * t) by nra. lra.
Qed.

(** ** One-dimensional arrays *)

Lemma wf_array1 (d : string) (l : list fval) : wf (array1 d l).
Proof.
  split; [reflexivity |]. simpl. constructor; [intros [] | constructor].
Qed.

Lemma local_array1 (d : string) (l : list fval) : local (array1 d l).
Proof.
  intros e e' H. simpl. rewrite (H d); [reflexivity | now left].
Qed.

Lemma clean_array1 (d : string) (l : list fval) :
  (forall v, In v l -> v = NaN \/ exists q, v = Fin q) ->
  clean (array1 d l).
Proof.
  intros H e. simpl. destruct (nth_in_or_default (e d) l NaN) as [Hin | ->].
  - now apply H.
  - now left.
Qed.

(** The square root on the rationals used to run the operators is exact
    on squares. *)
Lemma Qsqrt_square (q : Q) : 0 <= q -> Qsqrt (q * q) == q.
Proof.
  intros H. destruct q as [n d]. unfold Qsqrt.
  assert (Hn : (0 <= n)%Z).
  { unfold Qle in H. simpl in H. lia. }
  unfold Qeq. simpl Qnum. simpl Qden.
  rewrite Z.sqrt_square by assumption.
  rewrite Pos2Z.inj_sqrt, Pos2Z.inj_mul, Z.sqrt_square by lia.
  reflexivity.
Qed.

(** ** The check over any set of reduction dimensions *)

Lemma combine_fst_snd {A B} (l : list (A * B)) :
  combine (map fst l) (map snd l) = l.
Proof.
  induction l as [| [a b] l IH]; simpl; [reflexivity | now rewrite IH].
Qed.

Lemma lookup_Some_In (a : sized) (d : string) (n : nat) :
  lookup d a = Some n -> In (d, n) a.
Proof.
  induction a as [| [k m] a IH]; simpl; [discriminate |].
  destruct (String.eqb_spec d k) as [-> | _].
  - intros H. injection H as ->. now left.
  - intros H. right. now apply IH.
Qed.

(** A selection of the axes of an array combines with the array and adds
    no axis. *)
Lemma compatible_filter (a : sized) (f : string * nat -> bool) :
  NoDup (map fst a) -> compatible a (filter f a) = true.
Proof.
  intros Hnd. unfold compatible. apply forallb_forall. intros [d n] Hin.
  simpl. destruct (lookup d (filter f a)) as [m |] eqn:E; [| reflexivity].
  apply lookup_Some_In, filter_In in E as [E _].
  pose proof (lookup_In a d m Hnd E) as E'.
  rewrite (lookup_In a d n Hnd Hin) in E'. injection E' as ->.
  apply Nat.eqb_refl.
Qed.

Lemma union_axes_filter (a : sized) (f : string * nat -> bool) :
  union_axes a (filter f a) = a.
Proof.
  unfold union_axes. rewrite filter_none; [apply app_nil_r |].
  intros p Hp. apply filter_In in Hp as [Hp _].
  apply negb_false_iff, mem_In. now apply in_map.
Qed.

Lemma da_sum_inr (a : DataArray) (D : list string) (t : DataArray) :
  da_sum a D = inr t ->
  t = mkDA (name a)
        (map fst (filter (fun p => negb (mem (fst p) D))
                         (axes (dims a) (shape a))))
        (map snd (filter (fun p => negb (mem (fst p) D))
                         (axes (dims a) (shape a))))
        (fun e =>
           nansum (map (values a)
                       (cells (map fst (filter (fun p => mem (fst p) D)
                                               (axes (dims a) (shape a))))
                              (map snd (filter (fun p => mem (fst p) D)
                                               (axes (dims a) (shape a))))
                              e)))
        [] [] /\
  forallb (fun d => mem d (dims a)) D = true /\ nodupb D = true.
Proof.
  unfold da_sum.
  destruct (forallb _ D); simpl; [| discriminate].
  destruct (nodupb D); simpl; [| discriminate].
  intros H. injection H as <-. auto.
Qed.

Lemma da_sum_ok (a : DataArray) (D : list string) :
  forallb (fun d => mem d (dims a)) D = true -> nodupb D = true ->
  exists t, da_sum a D = inr t.
Proof.
  intros H1 H2. unfold da_sum. rewrite H1, H2. simpl. eauto.
Qed.

(** Where the total of the weights is zero, the checked number is not
    within tolerance of 1. *)
Lemma zero_total_fails (wm : DataArray) (D : list string) (tot : DataArray)
    (z : Q) :
  wf wm -> da_sum wm D = inr tot -> In (Fin z) (flatten tot) -> z == 0 ->
  exists t, normalized_total wm D = inr t /\ assert_allclose t 1 = false.
Proof.
  intros [Hlen Hnd] Htot Hin Hz.
  destruct (da_sum_inr wm D tot Htot) as (Et & HD1 & HD2).
  unfold normalized_total. rewrite Htot. simpl.
  set (ax := axes (dims wm) (shape wm)) in *.
  set (kept := filter (fun p => negb (mem (fst p) D)) ax) in *.
  set (red := filter (fun p => mem (fst p) D) ax) in *.
  assert (Eax : axes (dims tot) (shape tot) = kept).
  { rewrite Et. simpl. apply combine_fst_snd. }
  unfold binop. fold ax. rewrite Eax.
  unfold kept at 1. rewrite compatible_filter by now apply axes_NoDup.
  unfold kept. rewrite union_axes_filter. fold kept.
  unfold ax at 1 2. rewrite axes_fst, axes_snd by assumption. simpl.
  match goal with
  | |- context [da_sum ?r D] =>
      destruct (da_sum_ok r D HD1 HD2) as [t Ht];
      destruct (da_sum_inr r D t Ht) as (Er & _)
  end.
  simpl in Er. fold ax kept red in Er.
  exists t. split; [exact Ht |].
  unfold assert_allclose.
  destruct (forallb (close_to 1) (flatten t)) eqn:Ef; [| reflexivity].
  exfalso. rewrite forallb_forall in Ef.
  unfold flatten in Hin. apply in_map_iff in Hin as (k & Hk & Hkin).
  assert (Hc : close_to 1 (values t k) = true).
  { apply Ef. unfold flatten. apply in_map_iff. exists k. split; trivial.
    rewrite Er. simpl. rewrite Et in Hkin. exact Hkin. }
  rewrite Er in Hc. simpl in Hc.
  rewrite nonfinite_sum_not_close in Hc; [discriminate |].
  intros v Hv. apply in_map_iff in Hv as (c & <- & Hc').
  assert (Ec : values tot c = Fin z).
  { rewrite <- Hk. rewrite Et. simpl. f_equal. f_equal.
    apply cells_idem; [now rewrite !length_map | exact Hc']. }
  rewrite Ec. now apply fdiv_zero.
Qed.

(** ** Masked weights are well formed *)

Lemma NoDup_fst_filter (a : sized) (f : string * nat -> bool) :
  NoDup (map fst a) -> NoDup (map fst (filter f a)).
Proof.
  induction a as [| p a IH]; simpl; intros H; [constructor |].
  inversion H as [| ? ? Hp Ha]; subst.
  destruct (f p); simpl; [| now apply IH].
  constructor; [| now apply IH].
  intros Hin. apply Hp. apply in_map_iff in Hin as (q & Eq & Hq).
  apply filter_In in Hq as [Hq _]. apply in_map_iff. now exists q.
Qed.

Lemma NoDup_union_axes (a b : sized) :
  NoDup (map fst a) -> NoDup (map fst b) ->
  NoDup (map fst (union_axes a b)).
Proof.
  intros Ha Hb. unfold union_axes. rewrite map_app.
  apply NoDup_app; [assumption | now apply NoDup_fst_filter |].
  intros d Hd Hin. apply in_map_iff in Hin as (q & Eq & Hq).
  apply filter_In in Hq as [_ Hq]. apply negb_true_iff, mem_false in Hq.
  apply Hq. now rewrite Eq.
Qed.

Lemma wf_mkDA (n : option string) (u : sized) (v : env -> fval)
    (a enc : meta) :
  NoDup (map fst u) -> wf (mkDA n (map fst u) (map snd u) v a enc).
Proof.
  intros H. split; simpl; [now rewrite !length_map | assumption].
Qed.

Lemma wf_where (w : DataArray) (c : BoolArray) (r : DataArray) :
  wf w -> NoDup (map fst (axes (bdims c) (bshape c))) ->
  where_ w c = inr r -> wf r.
Proof.
  intros [Hlen Hnd] Hc. unfold where_.
  destruct (compatible _ _); [| discriminate].
  intros H. injection H as <-. apply wf_mkDA.
  apply NoDup_union_axes; [now apply axes_NoDup | assumption].
Qed.

Lemma band_axes (a b r : BoolArray) :
  NoDup (map fst (axes (bdims a) (bshape a))) ->
  NoDup (map fst (axes (bdims b) (bshape b))) ->
  band a b = inr r ->
  NoDup (map fst (axes (bdims r) (bshape r))).
Proof.
  intros Ha Hb. unfold band.
  destruct (compatible _ _); [| discriminate].
  intros H. injection H as <-. simpl. unfold axes at 1.
  rewrite combine_fst_snd. now apply NoDup_union_axes.
Qed.

(** The steps of a resolution that gives masked weights. *)
Lemma masked_weights_inr (x : DataArray) (yo w : option DataArray)
    (dim : dim_spec) (wm : DataArray) (D : list string) :
  masked_weights x yo w dim = inr (wm, D) ->
  exists w1 valid,
    resolve_dims x dim = inr D /\
    match w with
    | Some w0 => w1 = w0 /\ shape w0 = dims_shape x D
    | None => ones (dims_shape x D) D = inr w1
    end /\
    match yo with
    | Some y => shape x = shape y /\
                band (notnull x) (notnull y) = inr valid
    | None => valid = notnull x
    end /\
    where_ w1 valid = inr wm.
Proof.
  unfold masked_weights.
  destruct (resolve_dims x dim) as [e | D'] eqn:ED; simpl; [discriminate |].
  destruct w as [w0 |]; simpl.
  - destruct (shape_eqb (shape w0) (dims_shape x D')) eqn:Es; simpl;
      [| discriminate].
    apply shape_eqb_eq in Es.
    destruct yo as [y |]; simpl.
    + destruct (shape_eqb (shape x) (shape y)) eqn:Exy; simpl;
        [| discriminate].
      apply shape_eqb_eq in Exy.
      destruct (band (notnull x) (notnull y)) as [e | valid] eqn:Eb; simpl;
        [discriminate |].
      destruct (where_ w0 valid) as [e | wm'] eqn:Ew; simpl;
        [discriminate |].
      intros H. injection H as <- <-. exists w0, valid. auto.
    + destruct (where_ w0 (notnull x)) as [e | wm'] eqn:Ew; simpl;
        [discriminate |].
      intros H. injection H as <- <-. exists w0, (notnull x). auto.
  - destruct (ones (dims_shape x D') D') as [e | w1] eqn:Eo; simpl;
      [discriminate |].
    destruct yo as [y |]; simpl.
    + destruct (shape_eqb (shape x) (shape y)) eqn:Exy; simpl;
        [| discriminate].
      apply shape_eqb_eq in Exy.
      destruct (band (notnull x) (notnull y)) as [e | valid] eqn:Eb; simpl;
        [discriminate |].
      destruct (where_ w1 valid) as [e | wm'] eqn:Ew; simpl;
        [discriminate |].
      intros H. injection H as <- <-. exists w1, valid. auto.
    + destruct (where_ w1 (notnull x)) as [e | wm'] eqn:Ew; simpl;
        [discriminate |].
      intros H. injection H as <- <-. exists w1, (notnull x). auto.
Qed.

Lemma wf_masked_weights (x : DataArray) (yo w : option DataArray)
    (dim : dim_spec) (wm : DataArray) (D : list string) :
  wf x -> (forall y, yo = Some y -> wf y) ->
  (forall w0, w = Some w0 -> wf w0) -> nodupb D = true ->
  masked_weights x yo w dim = inr (wm, D) -> wf wm.
Proof.
  intros Hx Hy Hw HD H.
  destruct (masked_weights_inr x yo w dim wm D H)
    as (w1 & valid & _ & Hw1 & Hv & Hwh).
  assert (Hnx : NoDup (map fst (axes (bdims (notnull x))
                                    (bshape (notnull x))))).
  { destruct Hx as [Hlen Hnd]. simpl. now apply axes_NoDup. }
  apply (wf_where w1 valid); trivial.
  - destruct w as [w0 |].
    + destruct Hw1 as [-> _]. now apply Hw.
    + unfold ones in Hw1.
      destruct (Nat.eqb_spec (List.length (dims_shape x D))
                             (List.length D)) as [El | _];
        [| discriminate].
      injection Hw1 as <-. split; simpl; [now symmetry |].
      now apply nodupb_NoDup.
  - destruct yo as [y |].
    + destruct Hv as [_ Hb].
      apply (band_axes (notnull x) (notnull y)); trivial.
      destruct (Hy y eq_refl) as [Hlen Hnd]. simpl. now apply axes_NoDup.
    + now rewrite Hv.
Qed.

(** Masked weights whose total is zero somewhere do not pass the check. *)
Lemma gwd_zero_total (x : DataArray) (yo w : option DataArray)
    (dim : dim_spec) (wm : DataArray) (D : list string) (tot : DataArray)
    (z : Q) :
  wf x -> (forall y, yo = Some y -> wf y) ->
  (forall w0, w = Some w0 -> wf w0) ->
  masked_weights x yo w dim = inr (wm, D) ->
  da_sum wm D = inr tot -> In (Fin z) (flatten tot) -> z == 0 ->
  _get_weights_and_dims x yo w dim = inl NormalizationError.
Proof.
  intros Hx Hy Hw Hm Htot Hin Hz.
  destruct (da_sum_inr wm D tot Htot) as (_ & _ & HD).
  pose proof (wf_masked_weights x yo w dim wm D Hx Hy Hw HD Hm) as Hwm.
  destruct (zero_total_fails wm D tot z Hwm Htot Hin Hz) as (t & Ht & Ha).
  unfold _get_weights_and_dims. rewrite Hm. simpl. rewrite Ht. simpl.
  now rewrite Ha.
Qed.

(** ** Non-finite outcomes *)

Lemma fsqrt_negative_quotient (sqrtQ : Q -> Q) (n d : Q) :
  0 < n -> d < 0 -> fsqrt sqrtQ (fdiv (Fin n) (Fin d)) = NaN.
Proof.
  intros Hn Hd. rewrite fdiv_Fin by lra. unfold fsqrt.
  assert (H : n / d < 0).
  { assert (H1 : 0 < n / - d) by (apply Qlt_shift_div_l; lra).
    assert (H2 : n / d == - (n / - d)) by (field; lra).
    lra. }
  apply sgn_Lt in H. now rewrite H.
Qed.

Lemma fdiv_zero_root (sqrtQ : Q -> Q) (v : fval) (a b : Q) :
  (forall q, q == 0 -> sqrtQ q == 0) -> a == 0 \/ b == 0 ->
  isfinite (fdiv v (fsqrt sqrtQ (fmul (Fin a) (Fin b)))) = false.
Proof.
  intros Hs H. simpl fmul. unfold fsqrt.
  assert (E : a * b == 0) by (destruct H as [-> | ->]; ring).
  pose proof E as E'. apply sgn_Eq in E'. rewrite E'.
  apply fdiv_zero. now apply Hs.
Qed.

Lemma Qsqrt_zero (q : Q) : q == 0 -> Qsqrt q == 0.
Proof.
  intros H. unfold Qeq in H. simpl in H. rewrite Z.mul_1_r in H.
  unfold Qsqrt. rewrite H. reflexivity.
Qed.

Lemma clean_numbers (d : string) (l : list fval) :
  forallb isfinite l = true -> clean (array1 d l).
Proof.
  intros H. apply clean_array1. intros v Hv.
  rewrite forallb_forall in H. specialize (H v Hv).
  destruct v; try discriminate. right. eauto.
Qed.

(** C3 as stated fails: all-zero weights make [weighted_mean] raise the
    assertion error of the normalisation check instead of returning a
    non-finite value; and [weighted_std] of one element with [ddof = 2],
    whose denominator is negative, returns zero, which is finite. *)
Lemma zero_weight_total_raises :
  snd (weighted_mean v12 (Some zeros2) DimNone) = inl NormalizationError /\
  (forall r, snd (weighted_mean v12 (Some zeros2) DimNone) <> inr r) /\
  (exists r, snd (weighted_std Qsqrt v5 None DimNone 2) = inr r /\
             flatten r = [Fin 0] /\
             total_weight (mask_by (valid1 v5) (ones_like v5)) env0
             = Fin 1).
Proof.
  assert (E : snd (weighted_mean v12 (Some zeros2) DimNone)
              = inl NormalizationError) by (vm_compute; reflexivity).
  split; [exact E |]. split.
  - intros r H. rewrite E in H. discriminate.
  - destruct (snd (weighted_std Qsqrt v5 None DimNone 2)) as [e | r] eqn:Er;
      [vm_compute in Er; discriminate |].
    exists r. split; [reflexivity |].
    vm_compute in Er. injection Er as <-. split; reflexivity.
Qed.

(** ** Equality of values up to equality of rationals *)

Lemma feq_refl (a : fval) : feq a a.
Proof. destruct a; simpl; trivial. reflexivity. Qed.

Lemma feq_sym (a b : fval) : feq a b -> feq b a.
Proof. destruct a, b; simpl; trivial. intros H. now symmetry. Qed.

Lemma feq_trans (a b c : fval) : feq a b -> feq b c -> feq a c.
Proof.
  destruct a, b, c; simpl; trivial; try contradiction.
  intros H1 H2. now rewrite H1.
Qed.

Lemma sgn_feq (p q : Q) : p == q -> sgn p = sgn q.
Proof. intros H. unfold sgn. now rewrite H. Qed.

Lemma fadd_feq (a a' b b' : fval) :
  feq a a' -> feq b b' -> feq (fadd a b) (fadd a' b').
Proof.
  destruct a, a', b, b'; simpl; trivial; try contradiction.
  intros H1 H2. now rewrite H1, H2.
Qed.

Lemma fmul_feq (a a' b b' : fval) :
  feq a a' -> feq b b' -> feq (fmul a b) (fmul a' b').
Proof.
  destruct a as [p | | |], a' as [p' | | |], b as [q | | |],
    b' as [q' | | |]; simpl; trivial; try contradiction;
    intros H1 H2;
    try (now rewrite H1, H2);
    try (rewrite (sgn_feq _ _ H1); apply feq_refl);
    try (rewrite (sgn_feq _ _ H2); apply feq_refl).
Qed.

Lemma fdiv_feq (a a' b b' : fval) :
  feq a a' -> feq b b' -> feq (fdiv a b) (fdiv a' b').
Proof.
  destruct a as [p | | |], a' as [p' | | |], b as [q | | |],
    b' as [q' | | |]; simpl; trivial; try contradiction;
    intros H1 H2;
    try reflexivity;
    try (rewrite (sgn_feq _ _ H2); apply feq_refl).
  rewrite (sgn_feq _ _ H2), (sgn_feq _ _ H1).
  destruct (sgn q') eqn:E; simpl; try (now rewrite H1, H2).
  apply feq_refl.
Qed.

Lemma nan_to_zero_feq (a b : fval) :
  feq a b -> feq (nan_to_zero a) (nan_to_zero b).
Proof. destruct a, b; simpl; trivial; try contradiction. reflexivity. Qed.

Lemma close_to_feq (a b : fval) :
  feq a b -> close_to 1 a = close_to 1 b.
Proof.
  destruct a as [p | | |], b as [q | | |]; unfold feq, close_to; trivial;
    try contradiction.
  intros H. now rewrite H.
Qed.

Lemma fadd_zero_r (a : fval) : feq (fadd a (Fin 0)) a.
Proof. destruct a; simpl; trivial. ring. Qed.

(** ** The mean of a vector *)

Lemma flat_map_singleton {A B} (f : A -> B) (l : list A) :
  flat_map (fun a => [f a]) l = map f l.
Proof. induction l as [| a l IH]; simpl; [reflexivity | now rewrite IH]. Qed.

Lemma all_cells_array1 (d : string) (l : list fval) (e : env) :
  all_cells (array1 d l) e = map (upd e d) (seq 0 (List.length l)).
Proof. unfold all_cells. simpl. apply flat_map_singleton. Qed.

Lemma map_nth_combine {B} (g : fval -> fval -> B) (xs ws : list fval) :
  List.length ws = List.length xs ->
  map (fun i => g (nth i xs NaN) (nth i ws NaN)) (seq 0 (List.length xs))
  = map (fun p => g (fst p) (snd p)) (combine xs ws).
Proof.
  revert ws. induction xs as [| x xs IH]; intros [| w ws] H; simpl in *;
    try discriminate; [reflexivity |].
  injection H as H. f_equal.
  rewrite <- seq_shift, map_map. now apply IH.
Qed.

Lemma map_cells_array1 {B} (g : fval -> fval -> B) (d : string)
    (xs ws : list fval) :
  List.length ws = List.length xs ->
  map (fun c => g (values (array1 d xs) c) (values (array1 d ws) c))
      (all_cells (array1 d xs) env0)
  = map (fun p => g (fst p) (snd p)) (combine xs ws).
Proof.
  intros H. rewrite all_cells_array1, map_map. simpl.
  rewrite <- (map_nth_combine g xs ws H). apply map_ext. intros i.
  unfold upd. now rewrite String.eqb_refl.
Qed.

Lemma masked_value_array1 (d : string) (xs ws : list fval) (c : env) :
  values (mask_by (valid1 (array1 d xs)) (array1 d ws)) c
  = masked_weight (values (array1 d xs) c) (values (array1 d ws) c).
Proof.
  simpl. unfold valid1, masked_weight. simpl.
  now destruct (isnan (nth (c d) xs NaN)).
Qed.

Section Vector.

Variables (d : string) (xs ws : list fval).
Hypothesis Hlen : List.length ws = List.length xs.

Lemma cells_wm :
  all_cells (masked_vector d xs ws) env0 = all_cells (array1 d xs) env0.
Proof. unfold all_cells. simpl. now rewrite Hlen. Qed.

Lemma total_weight_array1 :
  total_weight (masked_vector d xs ws) env0 = ltotal xs ws.
Proof.
  unfold total_weight, ltotal, lsum. rewrite cells_wm. f_equal.
  rewrite <- (map_cells_array1 masked_weight d xs ws Hlen).
  apply map_ext. intros c. apply masked_value_array1.
Qed.

Lemma normalized_sum_array1 :
  normalized_sum (masked_vector d xs ws) env0 = lnorm xs ws.
Proof.
  unfold normalized_sum, lnorm, lsum.
  rewrite total_weight_array1, cells_wm. f_equal.
  rewrite <- (map_cells_array1
                (fun v u => fdiv (masked_weight v u) (ltotal xs ws))
                d xs ws Hlen).
  apply map_ext. intros c. f_equal. apply masked_value_array1.
Qed.

Lemma wsum_array1 :
  wsum (array1 d xs) (masked_vector d xs ws) env0 = lwsum xs ws.
Proof.
  unfold wsum, lwsum, lsum. f_equal.
  rewrite <- (map_cells_array1 (fun v u => fmul v (masked_weight v u))
                d xs ws Hlen).
  apply map_ext. intros c. f_equal. apply masked_value_array1.
Qed.

Lemma same_axes_array1 : same_axes (array1 d xs) (array1 d ws).
Proof. split; simpl; [reflexivity | now rewrite Hlen]. Qed.

Lemma gwd_array1 :
  _get_weights_and_dims (array1 d xs) None (Some (array1 d ws)) DimNone
  = if close_to 1 (lnorm xs ws)
    then inr (masked_vector d xs ws, dims (array1 d xs))
    else inl NormalizationError.
Proof.
  assert (Hy : forall y, @None DataArray = Some y -> same_axes (array1 d xs) y)
    by discriminate.
  rewrite (gwd_all (array1 d xs) None (Some (array1 d ws)) DimNone
             (wf_array1 d xs));
    [| discriminate | reflexivity | exact same_axes_array1 | exact Hy].
  match goal with
  | |- context [normalized_sum ?a env0] => change a with (masked_vector d xs ws)
  end.
  now rewrite normalized_sum_array1.
Qed.

(** The mean of a vector with weights of its length: the check on the
    masked weights, then the quotient of the weighted sum by their
    total. *)
Lemma weighted_mean_array1_ok :
  close_to 1 (lnorm xs ws) = true ->
  exists r,
    weighted_mean (array1 d xs) (Some (array1 d ws)) DimNone = ([], inr r) /\
    dims r = [] /\ shape r = [] /\ flatten r = [lmean xs ws].
Proof.
  intros Ec. pose proof gwd_array1 as Hg. rewrite Ec in Hg.
  destruct (weighted_mean_full (array1 d xs) (Some (array1 d ws)) DimNone
              (masked_vector d xs ws) (dims (array1 d xs))
              (wf_array1 d xs)) as [nm E];
    [discriminate | reflexivity | exact same_axes_array1 | exact Hg |].
  eexists. split; [exact E |]. repeat split.
  rewrite flatten_scalar by reflexivity. simpl values. unfold wmean, lmean.
  now rewrite wsum_array1, total_weight_array1.
Qed.

Lemma weighted_mean_array1_error :
  close_to 1 (lnorm xs ws) = false ->
  weighted_mean (array1 d xs) (Some (array1 d ws)) DimNone
  = ([], inl NormalizationError).
Proof.
  intros Ec. pose proof gwd_array1 as Hg. rewrite Ec in Hg.
  unfold weighted_mean. simpl warn_default. unfold ret at 1.
  rewrite bind_ok, Hg. reflexivity.
Qed.

End Vector.

(** ** Missing elements and excluded positions *)

Lemma mask_from_length (sel : nat -> bool) (i : nat) (l : list fval) :
  List.length (mask_from sel i l) = List.length l.
Proof.
  revert i. induction l as [| v l IH]; intros i; simpl;
    [reflexivity | now rewrite IH].
Qed.

Lemma drop_from_length (sel : nat -> bool) (i : nat) (xs ws : list fval) :
  List.length ws = List.length xs ->
  List.length (drop_from sel i ws) = List.length (drop_from sel i xs).
Proof.
  revert i ws. induction xs as [| x xs IH]; intros i [| w ws] H;
    simpl in *; try discriminate; [reflexivity |].
  injection H as H. destruct (sel i); simpl; now rewrite (IH (S i) ws).
Qed.

(** A sum over a vector with missing elements at the selected positions
    is the sum over the vector and the weights without these
    positions. *)
Lemma sum_mask_drop (h h' : fval -> fval -> fval) (sel : nat -> bool)
    (xs : list fval) :
  (forall v w, feq (h v w) (h' v w)) -> (forall w, h NaN w = NaN) ->
  forall (i : nat) (ws : list fval) (acc acc' : fval),
    List.length ws = List.length xs -> feq acc acc' ->
    feq (fold_left (fun a v => fadd a (nan_to_zero v))
           (map (fun p => h (fst p) (snd p))
                (combine (mask_from sel i xs) ws)) acc)
        (fold_left (fun a v => fadd a (nan_to_zero v))
           (map (fun p => h' (fst p) (snd p))
                (combine (drop_from sel i xs) (drop_from sel i ws))) acc').
Proof.
  intros Hh Hnan.
  induction xs as [| x xs IH]; intros i [| w ws] acc acc' Hlen Hacc;
    simpl in *; try discriminate; [assumption |].
  injection Hlen as Hlen. destruct (sel i); simpl.
  - apply IH; [assumption |]. rewrite Hnan. simpl.
    apply (feq_trans _ acc); [apply fadd_zero_r | assumption].
  - apply IH; [assumption |].
    apply fadd_feq; [assumption | apply nan_to_zero_feq, Hh].
Qed.

Lemma lsum_mask_drop (h h' : fval -> fval -> fval) (sel : nat -> bool)
    (xs ws : list fval) :
  (forall v w, feq (h v w) (h' v w)) -> (forall w, h NaN w = NaN) ->
  List.length ws = List.length xs ->
  feq (lsum h (set_missing sel xs) ws)
      (lsum h' (exclude sel xs) (exclude sel ws)).
Proof.
  intros Hh Hnan Hlen. unfold lsum, nansum, set_missing, exclude.
  apply sum_mask_drop; trivial. reflexivity.
Qed.

Section MaskExclude.

Variables (sel : nat -> bool) (xs ws : list fval).
Hypothesis Hlen : List.length ws = List.length xs.

Lemma ltotal_mask_drop :
  feq (ltotal (set_missing sel xs) ws)
      (ltotal (exclude sel xs) (exclude sel ws)).
Proof.
  apply lsum_mask_drop; trivial. intros v w. apply feq_refl.
Qed.

Lemma lnorm_mask_drop :
  feq (lnorm (set_missing sel xs) ws)
      (lnorm (exclude sel xs) (exclude sel ws)).
Proof.
  apply lsum_mask_drop; trivial.
  intros v w. apply fdiv_feq; [apply feq_refl | apply ltotal_mask_drop].
Qed.

Lemma lwsum_mask_drop :
  feq (lwsum (set_missing sel xs) ws)
      (lwsum (exclude sel xs) (exclude sel ws)).
Proof.
  apply lsum_mask_drop; trivial. intros v w. apply feq_refl.
Qed.

Lemma lmean_mask_drop :
  feq (lmean (set_missing sel xs) ws)
      (lmean (exclude sel xs) (exclude sel ws)).
Proof.
  apply fdiv_feq; [apply lwsum_mask_drop | apply ltotal_mask_drop].
Qed.

End MaskExclude.

(** C8. For a vector [xs], weights [ws] of its length and a set of
    positions, [weighted_mean] of the vector with the missing sentinel at
    these positions and [weighted_mean] of the vector and the weights
    without these positions have the same outcome: the same error of the
    normalisation check, or results with equal elements. *)
Theorem missing_is_excluded (d : string) (sel : nat -> bool)
    (xs ws : list fval) :
  List.length ws = List.length xs ->
  same_outcome
    (weighted_mean (array1 d (set_missing sel xs)) (Some (array1 d ws))
                   DimNone)
    (weighted_mean (array1 d (exclude sel xs))
                   (Some (array1 d (exclude sel ws))) DimNone).
Proof.
  intros Hlen.
  assert (H1 : List.length ws = List.length (set_missing sel xs)).
  { unfold set_missing. now rewrite mask_from_length. }
  assert (H2 : List.length (exclude sel ws) = List.length (exclude sel xs)).
  { unfold exclude. now apply drop_from_length. }
  pose proof (close_to_feq _ _ (lnorm_mask_drop sel xs ws Hlen)) as Ec.
  destruct (close_to 1 (lnorm (set_missing sel xs) ws)) eqn:E1.
  - destruct (weighted_mean_array1_ok d _ _ H1 E1)
      as (r1 & -> & Hd1 & Hs1 & Hf1).
    destruct (weighted_mean_array1_ok d _ _ H2 (eq_sym Ec))
      as (r2 & -> & Hd2 & Hs2 & Hf2).
    split; [reflexivity |]. simpl. rewrite Hd1, Hd2, Hs1, Hs2, Hf1, Hf2.
    repeat split. constructor; [| constructor].
    now apply lmean_mask_drop.
  - rewrite (weighted_mean_array1_error d _ _ H1 E1).
    rewrite (weighted_mean_array1_error d _ _ H2 (eq_sym Ec)).
    split; reflexivity.
Qed.

Lemma missing_is_excluded_witness :
  same_outcome
    (weighted_mean (array1 "a" (set_missing (Nat.eqb 1)
                                  [Fin 1; Fin 2; Fin 3]))
                   (Some (array1 "a" [Fin 1; Fin 1; Fin 2])) DimNone)
    (weighted_mean (array1 "a" (exclude (Nat.eqb 1) [Fin 1; Fin 2; Fin 3]))
                   (Some (array1 "a" (exclude (Nat.eqb 1)
                                        [Fin 1; Fin 1; Fin 2]))) DimNone).
Proof.
  apply (missing_is_excluded "a" (Nat.eqb 1) [Fin 1; Fin 2; Fin 3]
           [Fin 1; Fin 1; Fin 2]).
  reflexivity.
Defined.

(** ** Reductions over some of the axes *)

Lemma shape_eqb_length (a b : list nat) :
  List.length a <> List.length b -> shape_eqb a b = false.
Proof.
  intros H. destruct (shape_eqb a b) eqn:E; [| reflexivity].
  apply shape_eqb_eq in E. now subst.
Qed.

Lemma where_dims (w : DataArray) (c : BoolArray) (r : DataArray) :
  where_ w c = inr r ->
  List.length (bdims c) = List.length (bshape c) ->
  List.length (shape r) = List.length (dims r) /\
  forall k, In k (bdims c) -> In k (dims r).
Proof.
  unfold where_. destruct (compatible _ _); [| discriminate].
  intros H Hlen. injection H as <-. simpl. split.
  - now rewrite !length_map.
  - intros k Hk. unfold union_axes. rewrite map_app. apply in_or_app.
    destruct (mem k (map fst (axes (dims w) (shape w)))) eqn:E.
    + left. now apply mem_In.
    + right. rewrite <- (axes_fst (bdims c) (bshape c) Hlen) in Hk.
      apply in_map_iff in Hk as (p & <- & Hp). apply in_map.
      apply filter_In. split; [assumption | now rewrite E].
Qed.

Lemma present_idem (x : DataArray) (l : list string) :
  present x (present x l) = present x l.
Proof.
  apply filter_all. intros k Hk. apply present_In in Hk as [_ Hk].
  now apply mem_In.
Qed.

(** The masked weights of a one-array call have every axis of the
    array. *)
Lemma masked_weights_axes (x : DataArray) (w : option DataArray)
    (dim : dim_spec) (wm : DataArray) (D : list string) :
  wf x -> masked_weights x None w dim = inr (wm, D) ->
  (List.length (dims x) <= List.length (shape wm))%nat.
Proof.
  intros [Hlen Hnd] H.
  destruct (masked_weights_inr x None w dim wm D H)
    as (w1 & valid & _ & _ & -> & Hwh).
  destruct (where_dims w1 (notnull x) wm Hwh Hlen) as [El Hin].
  rewrite El. apply NoDup_incl_length; assumption.
Qed.

Lemma filter_length_lt {A} (f : A -> bool) (l : list A) (a : A) :
  In a l -> f a = false ->
  (List.length (filter f l) < List.length l)%nat.
Proof.
  induction l as [| b l IH]; simpl; intros Hin Hf; [contradiction |].
  pose proof (filter_length_le f l) as Hle.
  destruct Hin as [-> | Hin].
  - rewrite Hf. lia.
  - specialize (IH Hin Hf). destruct (f b); simpl; lia.
Qed.

Lemma dims_shape_short (x : DataArray) (D : list string) (k : string) :
  List.length (dims x) = List.length (shape x) ->
  In k (dims x) -> ~ In k D ->
  (List.length (dims_shape x D) < List.length (dims x))%nat.
Proof.
  intros Hlen Hk HD. unfold dims_shape. rewrite length_map.
  rewrite <- (length_map fst), (axes_fst_filter (fun d => mem d D))
    by assumption.
  apply (filter_length_lt _ _ k); [assumption | now apply mem_false].
Qed.

Lemma bind_snd_inl {A B} (m : M A) (f : A -> M B) (e : exn) :
  snd m = inl e -> snd (bind m f) = inl e.
Proof. destruct m as [l [e' | a]]; simpl; congruence. Qed.

(** The defect behind C1 and C2.  [weighted_mean] passes the masked
    weights, which have every axis of [x], on to [weighted_sum], whose
    resolver asserts that their shape is that of [x] along the reduction
    dimensions alone: a reduction that leaves an axis of [x] out fails at
    this assertion. *)
Lemma weighted_mean_partial_fails (x : DataArray) (w : option DataArray)
    (dim : dim_spec) (wm : DataArray) (D : list string) (k : string) :
  wf x -> _get_weights_and_dims x None w dim = inr (wm, D) ->
  In k (dims x) -> ~ In k D ->
  snd (weighted_mean x w dim) = inl (AssertionError WeightsShape).
Proof.
  intros Hwf Hg Hk HD. pose proof Hwf as [Hlen Hnd].
  pose proof Hg as Hm. apply gwd_inr in Hm as [Hm _].
  pose proof (masked_weights_axes x w dim wm D Hwf Hm) as Hax.
  pose proof (dims_shape_short x D k Hlen Hk HD) as Hsh.
  destruct (masked_weights_inr x None w dim wm D Hm)
    as (_ & _ & HD' & _).
  apply resolve_dims_inr in HD' as [ED Hne].
  assert (Hres : resolve_dims x (DimList D) = inr D).
  { rewrite resolve_dims_present; simpl; rewrite ED, present_idem;
      [reflexivity | now rewrite <- ED]. }
  assert (Hinner : _get_weights_and_dims x None (Some wm) (DimList D)
                   = inl (AssertionError WeightsShape)).
  { apply gwd_masked_error.
    apply (masked_weights_bad_weights x None wm (DimList D) D Hres).
    apply shape_eqb_length. lia. }
  destruct (operators_fail_with_resolver (fun q => q) x x (Some wm)
              (DimList D) 0 (AssertionError WeightsShape)) as [F _].
  destruct (F Hinner) as (Fs & _).
  unfold weighted_mean. rewrite bind_warn_default. cbn [snd].
  rewrite Hg, bind_lift. cbn [fst snd].
  now apply bind_snd_inl.
Qed.

(** ** The mean and the sum *)

Lemma weighted_sum_resolved (x : DataArray) (w : option DataArray)
    (dim : dim_spec) (wm : DataArray) (D : list string) :
  _get_weights_and_dims x None w dim = inr (wm, D) ->
  _get_weights_and_dims x None (Some wm) (DimList D) = inr (wm, D) ->
  weighted_sum x w dim
  = (default_log w "Computing sum with equal weights for all data points"
       ++ fst (weighted_sum x (Some wm) (DimList D)),
     snd (weighted_sum x (Some wm) (DimList D))).
Proof.
  intros H1 H2. unfold weighted_sum. rewrite !bind_warn_default.
  rewrite H1, H2. reflexivity.
Qed.

Lemma weighted_sum_full (x : DataArray) (w : option DataArray)
    (dim : dim_spec) (wm : DataArray) (D : list string) :
  wf x -> dims x <> [] -> requested_dims x dim = dims x ->
  same_axes x (weights_or_ones x w) ->
  _get_weights_and_dims x None w dim = inr (wm, D) ->
  weighted_sum x w dim
  = (default_log w "Computing sum with equal weights for all data points",
     inr (mkDA (result_name x wm) [] [] (wsum x wm) (attrs x) (encoding x))).
Proof.
  intros Hwf Hne Hreq Hw H.
  assert (Hy : forall y, @None DataArray = Some y -> same_axes x y)
    by discriminate.
  pose proof (gwd_all_again x None w dim wm D Hwf Hne Hreq Hw Hy H) as H2.
  rewrite (weighted_sum_resolved x w dim wm D H H2).
  destruct (gwd_all_inr x None w dim wm D Hwf Hne Hreq Hw Hy H)
    as (E & -> & Hc).
  rewrite (weighted_sum_masked x wm); trivial.
  - simpl. now rewrite app_nil_r.
  - rewrite E. exact Hw.
  - now rewrite E.
  - intros e He. rewrite E. now apply mask_by_invalid.
Qed.

(** Over all the axes, the mean is the sum divided by the total of the
    masked weights, element by element; and on numbers and missing values
    the sum is the mean times that total. *)
Lemma mean_is_sum_over_total (x : DataArray) (w : option DataArray)
    (dim : dim_spec) (wm : DataArray) (D : list string) :
  wf x -> dims x <> [] -> requested_dims x dim = dims x ->
  same_axes x (weights_or_ones x w) ->
  _get_weights_and_dims x None w dim = inr (wm, D) ->
  exists s m tot,
    snd (weighted_sum x w dim) = inr s /\
    snd (weighted_mean x w dim) = inr m /\
    da_sum wm D = inr tot /\
    (forall e, values m e = fdiv (values s e) (values tot e)) /\
    (local x -> clean x -> local (weights_or_ones x w) ->
     clean (weights_or_ones x w) ->
     exists qs qm qt,
       flatten s = [Fin qs] /\ flatten m = [Fin qm] /\
       flatten tot = [Fin qt] /\ qs == qm * qt).
Proof.
  intros Hwf Hne Hreq Hw H.
  assert (Hy : forall y, @None DataArray = Some y -> same_axes x y)
    by discriminate.
  destruct (gwd_all_inr x None w dim wm D Hwf Hne Hreq Hw Hy H)
    as (E & ED & Hc).
  assert (Hwm : same_axes x wm) by (rewrite E; exact Hw).
  rewrite (weighted_sum_full x w dim wm D Hwf Hne Hreq Hw H).
  destruct (weighted_mean_full x w dim wm D Hwf Hne Hreq Hw H) as [nm ->].
  rewrite ED, (total_weight_sum x wm Hwf Hwm).
  eexists. eexists. eexists. repeat split.
  intros Hlx Hcx Hlw Hcw.
  assert (Hlwm : local wm).
  { rewrite E. apply local_mask_by; trivial; [discriminate | apply Hw]. }
  assert (Hcwm : clean wm) by (rewrite E; now apply clean_mask_by).
  exists (wsum_Q x wm), (wmean_Q x wm), (total_Q wm).
  rewrite !flatten_scalar by reflexivity. simpl values.
  rewrite (wsum_Q_spec x wm Hwf Hwm Hlwm Hcwm x env0 (same_axes_refl x)
             Hlx Hcx).
  rewrite (wmean_Q_spec x wm Hwf Hwm Hlwm Hcwm Hc x env0 (same_axes_refl x)
             Hlx Hcx).
  rewrite (total_weight_Q x wm Hwf Hwm Hlwm Hcwm).
  repeat split. unfold wmean_Q. field.
  now apply (total_Q_nonzero x wm).
Qed.

(** C1. The relation between the mean and the sum fails where the mean
    does: over the axis [a] of a two-dimensional array, [weighted_sum]
    returns the column sums [4, 6] and the masked weights sum to [2, 2],
    so that the quotient is [2, 3], while [weighted_mean] raises the
    assertion error on the shape of the weights. *)
Theorem mean_sum_relation_on_one_axis :
  observe (weighted_sum x22 (Some ones2) (DimStr "a"))
  = ([], inr (mkView ["b"] [2%nat] [Fin 4; Fin 6] [] [])) /\
  resolved_total x22 None (Some ones2) (DimStr "a") = inr [Fin 2; Fin 2] /\
  observe (weighted_mean x22 (Some ones2) (DimStr "a"))
  = ([], inl (AssertionError WeightsShape)).
Proof. repeat split; vm_compute; reflexivity. Qed.

(** C2. The scenario of the specification: the mean of [[1, 2], [3, 4]]
    over the axis [a] with default weights.  The warning is issued, and
    the call raises the assertion error on the shape of the weights
    instead of returning [2, 3]; with [dim] omitted the same array gives
    its arithmetic mean, 10/4. *)
Theorem column_mean_scenario :
  observe (weighted_mean x22 None (DimStr "a"))
  = (["Computing mean with equal weights for all data points"],
     inl (AssertionError WeightsShape)) /\
  observe (weighted_mean x22 None DimNone)
  = (["Computing mean with equal weights for all data points"],
     inr (mkView [] [] [Fin (10 # 4)] [] [])).
Proof. split; vm_compute; reflexivity. Qed.

(** ** The mean with default weights *)

Lemma qsum_ones {A} (l : list A) :
  qsum (map (fun _ => 1) l) == inject_Z (Z.of_nat (List.length l)).
Proof.
  induction l as [| a l IH].
  - reflexivity.
  - cbn [map List.length]. rewrite qsum_cons, IH, Nat2Z.inj_succ.
    unfold Z.succ. rewrite inject_Z_plus. ring.
Qed.

(** For an array without missing values that is not empty,
    [weighted_mean(x)] returns the arithmetic mean of its elements, and
    records the warning for default weights. *)
Lemma weighted_mean_is_arith_mean (x : DataArray) :
  wf x -> dims x <> [] -> complete x -> all_cells x env0 <> [] ->
  exists r m,
    weighted_mean x None DimNone
    = (["Computing mean with equal weights for all data points"], inr r) /\
    dims r = [] /\ flatten r = [Fin m] /\
    m == arith_mean (map (fun c => to_Q (values x c)) (all_cells x env0)).
Proof.
  intros Hwf Hne Hcx Hcells.
  set (wm := mask_by (validity x None) (ones_like x)).
  assert (Hone : forall c, values wm c = Fin 1).
  { intros c. simpl. unfold valid1. destruct (Hcx c) as [q ->].
    reflexivity. }
  assert (Hcw : clean wm) by (apply clean_mask_by, clean_ones).
  assert (HT : total_Q wm
               == inject_Z (Z.of_nat (List.length (all_cells x env0)))).
  { unfold total_Q. change (all_cells wm env0) with (all_cells x env0).
    rewrite <- qsum_ones. apply qsum_map_ext. intros c _.
    rewrite Hone. reflexivity. }
  assert (Hpos : 0 < inject_Z (Z.of_nat (List.length (all_cells x env0)))).
  { destruct (all_cells x env0) as [| c l]; [contradiction |].
    change 0 with (inject_Z 0). rewrite <- Zlt_Qlt. simpl. lia. }
  assert (Hnz : ~ total_Q wm == 0) by (rewrite HT; lra).
  pose proof (check_passes wm Hcw Hnz) as Hc.
  assert (Hy : forall y, @None DataArray = Some y -> same_axes x y)
    by discriminate.
  assert (Hg : _get_weights_and_dims x None None DimNone = inr (wm, dims x)).
  { rewrite (gwd_all x None None DimNone Hwf Hne eq_refl (same_axes_ones x)
               Hy).
    simpl weights_or_ones. fold wm. now rewrite Hc. }
  destruct (weighted_mean_full x None DimNone wm (dims x) Hwf Hne eq_refl
              (same_axes_ones x) Hg) as [nm E].
  assert (ES : wsum x wm env0
               = Fin (qsum (map (fun c => to_Q (fmul (values x c)
                                                     (values wm c)))
                                (all_cells x env0)))).
  { unfold wsum. apply nansum_map_Fin. intros c _. rewrite Hone.
    destruct (Hcx c) as [q ->]. right. simpl. eauto. }
  assert (ET : total_weight wm env0 = Fin (total_Q wm)).
  { unfold total_weight, total_Q. apply nansum_map_Fin. intros c _.
    apply Hcw. }
  eexists. eexists. split; [exact E |]. split; [reflexivity |].
  rewrite flatten_scalar by reflexivity. simpl values. unfold wmean.
  rewrite ES, ET, fdiv_Fin by exact Hnz. split; [reflexivity |].
  unfold arith_mean. rewrite length_map, HT.
  apply Qdiv_comp; [| reflexivity].
  apply qsum_map_ext. intros c _. rewrite Hone.
  destruct (Hcx c) as [q ->]. simpl. ring.
Qed.

(** ** Reductions that leave an axis out *)

(** The masked weights have every axis of the array, with or without a
    second array. *)
Lemma masked_weights_all_axes (x : DataArray) (yo w : option DataArray)
    (dim : dim_spec) (wm : DataArray) (D : list string) :
  wf x -> masked_weights x yo w dim = inr (wm, D) ->
  List.length (shape wm) = List.length (dims wm) /\
  forall k, In k (dims x) -> In k (dims wm).
Proof.
  intros [Hlen Hnd] H.
  destruct (masked_weights_inr x yo w dim wm D H)
    as (w1 & valid & _ & _ & Hv & Hwh).
  destruct yo as [y |].
  - destruct Hv as [_ Hb]. unfold band in Hb.
    destruct (compatible _ _); [| discriminate]. injection Hb as <-.
    apply where_dims in Hwh as [El Hin]; [| simpl; now rewrite !length_map].
    split; [exact El |]. intros k Hk. apply Hin. simpl.
    unfold union_axes. rewrite map_app. apply in_or_app. left.
    simpl. now rewrite axes_fst.
  - subst valid. apply where_dims in Hwh as [El Hin]; [| exact Hlen].
    split; [exact El |]. intros k Hk. now apply Hin.
Qed.

Lemma resolved_again (x : DataArray) (yo w : option DataArray)
    (dim : dim_spec) (wm : DataArray) (D : list string) :
  masked_weights x yo w dim = inr (wm, D) ->
  resolve_dims x (DimList D) = inr D.
Proof.
  intros Hm.
  destruct (masked_weights_inr x yo w dim wm D Hm) as (_ & _ & HD & _).
  apply resolve_dims_inr in HD as [ED Hne].
  rewrite resolve_dims_present; simpl; rewrite ED, present_idem;
    [reflexivity | now rewrite <- ED].
Qed.

(** The nested call of the resolver, with the masked weights and the
    resolved names, fails at the assertion on the shape of the weights
    when an axis of the array is not reduced. *)
Lemma nested_resolver_fails (x : DataArray) (yo yo' w : option DataArray)
    (dim : dim_spec) (wm : DataArray) (D : list string) (k : string) :
  wf x -> _get_weights_and_dims x yo w dim = inr (wm, D) ->
  In k (dims x) -> ~ In k D ->
  _get_weights_and_dims x yo' (Some wm) (DimList D)
  = inl (AssertionError WeightsShape).
Proof.
  intros Hwf Hg Hk HD. pose proof Hwf as [Hlen Hnd].
  apply gwd_inr in Hg as [Hm _].
  destruct (masked_weights_all_axes x yo w dim wm D Hwf Hm) as [El Hin].
  pose proof (dims_shape_short x D k Hlen Hk HD) as Hsh.
  pose proof (NoDup_incl_length Hnd Hin) as Hle.
  apply gwd_masked_error.
  apply (masked_weights_bad_weights x yo' wm (DimList D) D
           (resolved_again x yo w dim wm D Hm)).
  apply shape_eqb_length. lia.
Qed.

(** The squared difference of the two arrays of [weighted_rmsd]: when
    the resolver accepts them, the difference exists and has every axis of
    both. *)
Lemma difference_axes (x y : DataArray) (w : option DataArray)
    (dim : dim_spec) (wm : DataArray) (D : list string) :
  wf x -> wf y -> masked_weights x (Some y) w dim = inr (wm, D) ->
  exists diff,
    binop fsub x y = inr diff /\ wf diff /\
    (forall k, In k (dims x) -> In k (dims diff)) /\
    (forall k, In k (dims diff) -> In k (dims wm)) /\
    List.length (shape wm) = List.length (dims wm).
Proof.
  intros Hwf Hwfy Hm. pose proof Hwf as [Hlen Hnd].
  pose proof Hwfy as [Hleny Hndy].
  destruct (masked_weights_inr x (Some y) w dim wm D Hm)
    as (w1 & valid & _ & _ & [_ Hb] & Hwh).
  unfold band in Hb. unfold binop. simpl in Hb.
  destruct (compatible (axes (dims x) (shape x)) (axes (dims y) (shape y)));
    [| discriminate].
  injection Hb as <-. eexists. split; [reflexivity |].
  apply where_dims in Hwh as [El Hin]; [| simpl; now rewrite !length_map].
  simpl in Hin. repeat split.
  - simpl. now rewrite !length_map.
  - simpl. apply NoDup_union_axes; now apply axes_NoDup.
  - intros k Hk. simpl. unfold union_axes. rewrite map_app.
    apply in_or_app. left. now rewrite axes_fst.
  - exact Hin.
  - exact El.
Qed.

(** X1.  A reduction that leaves an axis of the array out fails in
    every operator built on [weighted_mean]: the masked weights that the
    resolver returns have every axis of the array, and the nested call
    asserts that their shape is that of the reduction dimensions alone.
    Only [weighted_sum], which makes no nested call, reduces over a part
    of the axes. *)
Theorem partial_reduction_fails (sqrtQ : Q -> Q) (x y : DataArray)
    (w : option DataArray) (dim : dim_spec) (ddof : Z) (k : string)
    (wm : DataArray) (D : list string) :
  wf x -> In k (dims x) -> ~ In k (requested_dims x dim) ->
  (_get_weights_and_dims x None w dim = inr (wm, D) ->
   snd (weighted_mean x w dim) = inl (AssertionError WeightsShape) /\
   snd (weighted_std sqrtQ x w dim ddof)
   = inl (AssertionError WeightsShape)) /\
  (wf y -> _get_weights_and_dims x (Some y) w dim = inr (wm, D) ->
   snd (weighted_rmsd sqrtQ x y w dim) = inl (AssertionError WeightsShape) /\
   snd (weighted_cov x y w dim) = inl (AssertionError WeightsShape) /\
   snd (weighted_corr sqrtQ x y w dim) = inl (AssertionError WeightsShape)).
Proof.
  intros Hwf Hk Hreq.
  assert (HD : forall yo, _get_weights_and_dims x yo w dim = inr (wm, D) ->
                          ~ In k D).
  { intros yo Hg Hin. apply gwd_inr in Hg as [Hm _].
    destruct (masked_weights_inr x yo w dim wm D Hm) as (_ & _ & Hr & _).
    apply resolve_dims_inr in Hr as [-> _].
    apply present_In in Hin as [Hin _]. now apply Hreq. }
  split.
  - intros Hg.
    pose proof (nested_resolver_fails x None None w dim wm D k Hwf Hg Hk
                  (HD None Hg)) as Hinner.
    destruct (operators_fail_with_resolver sqrtQ x x (Some wm) (DimList D)
                ddof (AssertionError WeightsShape)) as [F _].
    destruct (F Hinner) as (Fs & Fm & _).
    split.
    + unfold weighted_mean. rewrite bind_warn_default. cbn [snd].
      rewrite Hg, bind_lift. cbn [fst snd]. now apply bind_snd_inl.
    + unfold weighted_std. rewrite bind_warn_default. cbn [snd].
      rewrite Hg, bind_lift. cbn [fst snd]. now apply bind_snd_inl.
  - intros Hwfy Hg.
    pose proof (nested_resolver_fails x (Some y) None w dim wm D k Hwf Hg Hk
                  (HD _ Hg)) as Hinner.
    pose proof (nested_resolver_fails x (Some y) (Some y) w dim wm D k Hwf Hg
                  Hk (HD _ Hg)) as Hinner2.
    destruct (operators_fail_with_resolver sqrtQ x y (Some wm) (DimList D)
                ddof (AssertionError WeightsShape)) as [F F2].
    destruct (F Hinner) as (_ & Fm & _).
    destruct (F2 Hinner2) as (_ & Fc & _).
    repeat split.
    + pose proof Hg as Hm. apply gwd_inr in Hm as [Hm _].
      destruct (difference_axes x y w dim wm D Hwf Hwfy Hm)
        as (diff & Ed & Hwd & Hxd & Hdw & El).
      unfold weighted_rmsd. rewrite bind_warn_default. cbn [snd].
      rewrite Hg, bind_lift. cbn [fst snd]. rewrite Ed, bind_lift.
      apply bind_snd_inl.
      destruct (operators_fail_with_resolver sqrtQ
                  (scalar_op fsquare diff) x (Some wm) (DimList D) ddof
                  (AssertionError WeightsShape)) as [G _].
      apply G. apply gwd_masked_error.
      assert (Hwsq : wf (scalar_op fsquare diff)) by exact Hwd.
      assert (Hres : resolve_dims (scalar_op fsquare diff) (DimList D)
                     = inr D).
      { pose proof (resolved_again x (Some y) w dim wm D Hm) as Hr.
        apply resolve_dims_inr in Hr as [Hr Hne]. simpl in Hr.
        assert (Ep : present (scalar_op fsquare diff) D = D).
        { apply filter_all. intros a Ha. apply mem_In. apply Hxd.
          rewrite Hr in Ha. now apply present_In in Ha. }
        rewrite resolve_dims_present; simpl; rewrite Ep;
          [reflexivity | assumption]. }
      apply (masked_weights_bad_weights _ None wm (DimList D) D Hres).
      apply shape_eqb_length.
      destruct Hwd as [Hld Hnd].
      pose proof (dims_shape_short (scalar_op fsquare diff) D k Hld
                    (Hxd k Hk) (HD _ Hg)) as Hsh.
      pose proof (NoDup_incl_length Hnd Hdw) as Hle.
      simpl in Hsh. simpl. lia.
    + unfold weighted_cov. rewrite bind_warn_default. cbn [snd].
      rewrite Hg, bind_lift. cbn [fst snd]. now apply bind_snd_inl.
    + unfold weighted_corr. rewrite bind_warn_default. cbn [snd].
      rewrite Hg, bind_lift. cbn [fst snd]. now apply bind_snd_inl.
Qed.

Lemma partial_reduction_fails_witness :
  snd (weighted_mean x22 None (DimStr "a"))
  = inl (AssertionError WeightsShape) /\
  snd (weighted_cov x22 x22 None (DimList ["b"]))
  = inl (AssertionError WeightsShape).
Proof.
  assert (Hwf : wf x22).
  { split; [reflexivity |]. repeat constructor; simpl; intuition discriminate. }
  split.
  - destruct (_get_weights_and_dims x22 None None (DimStr "a"))
      as [e | [wm D]] eqn:E; [vm_compute in E; discriminate |].
    destruct (partial_reduction_fails Qsqrt x22 x22 None (DimStr "a") 0 "b"
                wm D Hwf) as [H _]; simpl; [tauto | intuition discriminate |].
    now apply H.
  - destruct (_get_weights_and_dims x22 (Some x22) None (DimList ["b"]))
      as [e | [wm D]] eqn:E; [vm_compute in E; discriminate |].
    destruct (partial_reduction_fails Qsqrt x22 x22 None (DimList ["b"]) 0
                "a" wm D Hwf) as [_ H]; simpl;
      [tauto | intuition discriminate |].
    now apply H.
Defined.

(** ** Warnings *)

Lemma silent_bind {A B} (m : M A) (f : A -> M B) :
  fst m = [] -> (forall a, fst (f a) = []) -> fst (bind m f) = [].
Proof.
  destruct m as [log [e | a]]; simpl; intros -> H; [reflexivity |].
  specialize (H a). now destruct (f a).
Qed.

Ltac silence :=
  repeat (apply silent_bind; [try reflexivity | intros]); try reflexivity.

Lemma log_of_call {B} (w : option DataArray) (msg : string)
    (f : unit -> M B) :
  fst (f tt) = [] -> fst (bind (warn_default w msg) f) = default_log w msg.
Proof.
  intros H. rewrite bind_warn_default. cbn [fst]. rewrite H.
  apply app_nil_r.
Qed.

Lemma log_sum (x : DataArray) (w : option DataArray) (dim : dim_spec) :
  fst (weighted_sum x w dim)
  = default_log w "Computing sum with equal weights for all data points".
Proof. unfold weighted_sum. apply log_of_call. silence. Qed.

Lemma log_mean (x : DataArray) (w : option DataArray) (dim : dim_spec) :
  fst (weighted_mean x w dim)
  = default_log w "Computing mean with equal weights for all data points".
Proof. unfold weighted_mean. apply log_of_call. silence. Qed.

Lemma log_std (sqrtQ : Q -> Q) (x : DataArray) (w : option DataArray)
    (dim : dim_spec) (ddof : Z) :
  fst (weighted_std sqrtQ x w dim ddof)
  = default_log w
      "Computing standard deviation with equal weights for all data points".
Proof. unfold weighted_std. apply log_of_call. silence. Qed.

Lemma log_rmsd (sqrtQ : Q -> Q) (x y : DataArray) (w : option DataArray)
    (dim : dim_spec) :
  fst (weighted_rmsd sqrtQ x y w dim)
  = default_log w
      "Computing root-mean-square-deviation with equal weights for all data points".
Proof. unfold weighted_rmsd. apply log_of_call. silence. Qed.

Lemma log_cov (x y : DataArray) (w : option DataArray) (dim : dim_spec) :
  fst (weighted_cov x y w dim)
  = default_log w
      "Computing weighted covariance with equal weights for all data points".
Proof. unfold weighted_cov. apply log_of_call. silence. Qed.

Lemma log_corr (sqrtQ : Q -> Q) (x y : DataArray) (w : option DataArray)
    (dim : dim_spec) :
  fst (weighted_corr sqrtQ x y w dim)
  = default_log w
      "Computing weighted correlation with equal weights for all data points".
Proof. unfold weighted_corr. apply log_of_call. silence. Qed.

(** X2.  A call issues its warning exactly when the weights are
    omitted, whether it then fails or returns; the nested calls, which
    are made with the resolved weights, add no warning of their own. *)
Theorem one_warning_per_call (sqrtQ : Q -> Q) (x y : DataArray)
    (w : option DataArray) (dim : dim_spec) (ddof : Z) :
  fst (weighted_sum x w dim)
  = default_log w "Computing sum with equal weights for all data points" /\
  fst (weighted_mean x w dim)
  = default_log w "Computing mean with equal weights for all data points" /\
  fst (weighted_std sqrtQ x w dim ddof)
  = default_log w
      "Computing standard deviation with equal weights for all data points" /\
  fst (weighted_rmsd sqrtQ x y w dim)
  = default_log w
      "Computing root-mean-square-deviation with equal weights for all data points" /\
  fst (weighted_cov x y w dim)
  = default_log w
      "Computing weighted covariance with equal weights for all data points" /\
  fst (weighted_corr sqrtQ x y w dim)
  = default_log w
      "Computing weighted correlation with equal weights for all data points".
Proof.
  repeat split.
  - apply log_sum.
  - apply log_mean.
  - apply log_std.
  - apply log_rmsd.
  - apply log_cov.
  - apply log_corr.
Qed.

(** ** The argument [dim] *)

Lemma resolver_through_names (x : DataArray) (yo w : option DataArray)
    (d1 d2 : dim_spec) :
  resolve_dims x d1 = resolve_dims x d2 ->
  _get_weights_and_dims x yo w d1 = _get_weights_and_dims x yo w d2.
Proof.
  intros R. unfold _get_weights_and_dims, masked_weights. now rewrite R.
Qed.

(** X3.  The operators see [dim] through the names it resolves to, and
    through nothing else: a name, the list of that name, and a list with
    further names that are not axes of the array give the same outcome
    (warnings, error or result) in every operator, and so do an omitted
    [dim] and the list of all the axes. *)
Theorem dim_matters_through_resolution (sqrtQ : Q -> Q) (x y : DataArray)
    (w : option DataArray) (ddof : Z) (d1 d2 : dim_spec) :
  (forall s, s <> "" ->
     resolve_dims x (DimStr s) = resolve_dims x (DimList [s])) /\
  (forall l, resolve_dims x (DimList l)
             = resolve_dims x (DimList (present x l))) /\
  resolve_dims x DimNone = resolve_dims x (DimList (dims x)) /\
  (resolve_dims x d1 = resolve_dims x d2 ->
   weighted_sum x w d1 = weighted_sum x w d2 /\
   weighted_mean x w d1 = weighted_mean x w d2 /\
   weighted_std sqrtQ x w d1 ddof = weighted_std sqrtQ x w d2 ddof /\
   weighted_rmsd sqrtQ x y w d1 = weighted_rmsd sqrtQ x y w d2 /\
   weighted_cov x y w d1 = weighted_cov x y w d2 /\
   weighted_corr sqrtQ x y w d1 = weighted_corr sqrtQ x y w d2).
Proof.
  split; [| split; [| split]].
  - intros s Hs. unfold resolve_dims. simpl.
    destruct (String.eqb_spec s ""); [contradiction | reflexivity].
  - intros l. unfold resolve_dims. simpl. fold (present x l).
    fold (present x (present x l)). now rewrite present_idem.
  - reflexivity.
  - intros R.
    pose proof (fun yo => resolver_through_names x yo w d1 d2 R) as G.
    unfold weighted_sum, weighted_mean, weighted_std, weighted_rmsd,
      weighted_cov, weighted_corr.
    rewrite !G. repeat split; reflexivity.
Qed.

Lemma dim_matters_through_resolution_witness :
  weighted_sum x22 None (DimStr "a")
  = weighted_sum x22 None (DimList ["a"; "depth"]) /\
  weighted_cov x22 x22 (Some ones2) (DimList ["time"; "a"])
  = weighted_cov x22 x22 (Some ones2) (DimList ["a"]).
Proof.
  split.
  - destruct (dim_matters_through_resolution Qsqrt x22 x22 None 0
                (DimStr "a") (DimList ["a"; "depth"]))
      as (_ & _ & _ & H).
    now apply H.
  - destruct (dim_matters_through_resolution Qsqrt x22 x22 (Some ones2) 0
                (DimList ["time"; "a"]) (DimList ["a"]))
      as (_ & _ & _ & H).
    now apply H.
Defined.

(** ** Arrays without a value *)

Lemma nansum_all_nan_from (l : list fval) (q : Q) :
  (forall v, In v l -> v = NaN) ->
  fold_left (fun acc v => fadd acc (nan_to_zero v)) l (Fin q) = Fin q
  \/ exists q', fold_left (fun acc v => fadd acc (nan_to_zero v)) l (Fin q)
                = Fin q' /\ q' == q.
Proof.
  revert q. induction l as [| v l IH]; intros q H; simpl.
  - now left.
  - rewrite (H v) by now left. simpl. right.
    destruct (IH (q + 0)) as [E | (q' & E & Hq)].
    + intros u Hu. apply H. now right.
    + exists (q + 0). split; [exact E | ring].
    + exists q'. split; [exact E |]. rewrite Hq. ring.
Qed.

Lemma nansum_all_nan (l : list fval) :
  (forall v, In v l -> v = NaN) -> exists z, nansum l = Fin z /\ z == 0.
Proof.
  intros H. unfold nansum.
  destruct (nansum_all_nan_from l 0 H) as [E | (q' & E & Hq)].
  - exists 0. split; [exact E | reflexivity].
  - exists q'. now split.
Qed.

(** X4.  An array in which no element is a number (every element is
    missing, or the array is empty) is not reduced to a missing value:
    over all the axes the masked weights sum to zero, the normalisation
    check fails, and every operator raises. *)
Theorem no_value_is_an_error (sqrtQ : Q -> Q) (x y : DataArray)
    (w : option DataArray) (dim : dim_spec) (ddof : Z) :
  wf x -> dims x <> [] -> requested_dims x dim = dims x ->
  same_axes x (weights_or_ones x w) ->
  (forall c, In c (all_cells x env0) -> values x c = NaN) ->
  (snd (weighted_sum x w dim) = inl NormalizationError /\
   snd (weighted_mean x w dim) = inl NormalizationError /\
   snd (weighted_std sqrtQ x w dim ddof) = inl NormalizationError) /\
  (same_axes x y ->
   snd (weighted_rmsd sqrtQ x y w dim) = inl NormalizationError /\
   snd (weighted_cov x y w dim) = inl NormalizationError /\
   snd (weighted_corr sqrtQ x y w dim) = inl NormalizationError).
Proof.
  intros Hwf Hne Hreq Hw Hnan.
  assert (G : forall yo, (forall y', yo = Some y' -> same_axes x y') ->
                _get_weights_and_dims x yo w dim = inl NormalizationError).
  { intros yo Hyo. rewrite gwd_all by assumption.
    set (wm := mask_by (validity x yo) (weights_or_ones x w)).
    assert (Hcells : all_cells wm env0 = all_cells x env0).
    { unfold all_cells, wm. simpl. destruct Hw as [-> ->]. reflexivity. }
    destruct (nansum_all_nan (map (values wm) (all_cells wm env0)))
      as (z & Ez & Hz).
    { intros v Hv. apply in_map_iff in Hv as (c & <- & Hc).
      rewrite Hcells in Hc. unfold wm. apply mask_by_invalid1.
      unfold valid1. now rewrite (Hnan c Hc). }
    now rewrite (zero_total_not_close wm env0 z Ez Hz). }
  split.
  - destruct (operators_fail_with_resolver sqrtQ x x w dim ddof
                NormalizationError) as [F _].
    apply F. apply G. discriminate.
  - intros Hy.
    destruct (operators_fail_with_resolver sqrtQ x y w dim ddof
                NormalizationError) as [_ F].
    apply F. apply G. intros y' E. now injection E as <-.
Qed.

Lemma no_value_is_an_error_witness :
  snd (weighted_mean (array1 "a" [NaN; NaN]) None DimNone)
  = inl NormalizationError /\
  snd (weighted_sum (array1 "a" []) (Some (array1 "a" [])) (DimStr "a"))
  = inl NormalizationError.
Proof.
  split.
  - refine (proj1 (proj2 (proj1
      (no_value_is_an_error Qsqrt (array1 "a" [NaN; NaN])
         (array1 "a" [NaN; NaN]) None DimNone 0 (wf_array1 _ _) _ eq_refl
         (conj eq_refl eq_refl) _)))).
    + discriminate.
    + intros c Hc. rewrite all_cells_array1 in Hc. simpl in Hc.
      destruct Hc as [<- | [<- | []]]; reflexivity.
  - refine (proj1 (proj1
      (no_value_is_an_error Qsqrt (array1 "a" []) (array1 "a" [])
         (Some (array1 "a" [])) (DimStr "a") 0 (wf_array1 _ _) _ eq_refl
         (conj eq_refl eq_refl) _))).
    + discriminate.
    + intros c Hc. rewrite all_cells_array1 in Hc. destruct Hc.
Defined.

(** ** The order of the names in [dim] *)

(** X5.  The default weights take their lengths from the array in the
    order of its axes and their names from [dim] in the order given, so a
    [dim] that lists the two axes of a matrix in the other order makes
    weights whose axes have each other's lengths: unless the matrix is
    square, masking them with the array fails with a [ValueError], in
    every one-array operator. *)
Theorem transposed_dim_is_an_error (sqrtQ : Q -> Q) (x : DataArray)
    (a b : string) (n m : nat) (ddof : Z) :
  dims x = [a; b] -> shape x = [n; m] -> a <> b -> n <> m ->
  resolve_dims x (DimList [b; a]) = inr [b; a] /\
  exists msg,
    _get_weights_and_dims x None None (DimList [b; a])
    = inl (ValueError msg) /\
    snd (weighted_sum x None (DimList [b; a])) = inl (ValueError msg) /\
    snd (weighted_mean x None (DimList [b; a])) = inl (ValueError msg) /\
    snd (weighted_std sqrtQ x None (DimList [b; a]) ddof)
    = inl (ValueError msg).
Proof.
  intros Hd Hs Hab Hnm.
  assert (Eab : String.eqb a b = false) by now apply String.eqb_neq.
  assert (Eba : String.eqb b a = false).
  { apply String.eqb_neq. congruence. }
  assert (Enm : Nat.eqb n m = false) by now apply Nat.eqb_neq.
  assert (R : resolve_dims x (DimList [b; a]) = inr [b; a]).
  { unfold resolve_dims. simpl. rewrite Hd. simpl.
    now rewrite Eba, !String.eqb_refl. }
  split; [exact R |].
  assert (G : _get_weights_and_dims x None None (DimList [b; a])
              = inl align_error).
  { apply gwd_masked_error. unfold masked_weights. rewrite R. simpl.
    unfold dims_shape. rewrite Hd, Hs. simpl.
    rewrite Eab, Eba, !String.eqb_refl. simpl.
    unfold where_. simpl. rewrite Hd, Hs. simpl.
    rewrite Eba, !String.eqb_refl. simpl. now rewrite Enm. }
  eexists. split; [exact G |].
  destruct (operators_fail_with_resolver sqrtQ x x None (DimList [b; a])
              ddof align_error) as [F _].
  exact (F G).
Qed.

Lemma transposed_dim_is_an_error_witness :
  exists msg,
    snd (weighted_sum (array2 "a" "b" 3 [[Fin 1; Fin 2; Fin 3];
                                          [Fin 4; Fin 5; Fin 6]])
           None (DimList ["b"; "a"]))
    = inl (ValueError msg).
Proof.
  destruct (transposed_dim_is_an_error Qsqrt
              (array2 "a" "b" 3 [[Fin 1; Fin 2; Fin 3];
                                 [Fin 4; Fin 5; Fin 6]])
              "a" "b" 2 3 0 eq_refl eq_refl) as (_ & msg & _ & H & _);
    [discriminate | discriminate |].
  exists msg. exact H.
Defined.

(** ** Reductions over every axis: the covariance *)

(** What the resolver returns for a reduction over every axis. *)
Lemma full_setup (x : DataArray) (yo w : option DataArray) (dim : dim_spec)
    (wm : DataArray) (D : list string) :
  wf x -> dims x <> [] -> requested_dims x dim = dims x ->
  same_axes x (weights_or_ones x w) ->
  (forall y, yo = Some y -> same_axes x y /\ local y) ->
  local x -> local (weights_or_ones x w) -> clean (weights_or_ones x w) ->
  _get_weights_and_dims x yo w dim = inr (wm, D) ->
  wm = mask_by (validity x yo) (weights_or_ones x w) /\ D = dims x /\
  close_to 1 (normalized_sum wm env0) = true /\
  same_axes x wm /\ local wm /\ clean wm /\ encoding wm = [] /\
  _get_weights_and_dims x yo (Some wm) (DimList D) = inr (wm, D).
Proof.
  intros Hwf Hne Hreq Hw Hyo Hlx Hlw Hcw H.
  assert (Hyo' : forall y, yo = Some y -> same_axes x y).
  { intros y E. now apply Hyo. }
  pose proof (gwd_all_again x yo w dim wm D Hwf Hne Hreq Hw Hyo' H) as H2.
  destruct (gwd_all_inr x yo w dim wm D Hwf Hne Hreq Hw Hyo' H)
    as (E & ED & Hc).
  repeat split; trivial.
  - rewrite E. apply Hw.
  - rewrite E. apply Hw.
  - rewrite E. apply local_mask_by; trivial.
    + intros y Ey. destruct (Hyo y Ey) as [[Hd _] Hl]. now split.
    + apply Hw.
  - rewrite E. now apply clean_mask_by.
  - now rewrite E.
Qed.

Lemma weighted_cov_resolved (x y : DataArray) (w : option DataArray)
    (dim : dim_spec) (wm : DataArray) (D : list string) :
  _get_weights_and_dims x (Some y) w dim = inr (wm, D) ->
  _get_weights_and_dims x (Some y) (Some wm) (DimList D) = inr (wm, D) ->
  weighted_cov x y w dim
  = (default_log w
       "Computing weighted covariance with equal weights for all data points"
       ++ fst (weighted_cov x y (Some wm) (DimList D)),
     snd (weighted_cov x y (Some wm) (DimList D))).
Proof.
  intros H1 H2. unfold weighted_cov. rewrite !bind_warn_default.
  rewrite H1, H2. reflexivity.
Qed.

(** The covariance over every axis, when the resolver returns. *)
Lemma weighted_cov_full (x y : DataArray) (w : option DataArray)
    (dim : dim_spec) (wm : DataArray) (D : list string) :
  wf x -> dims x <> [] -> requested_dims x dim = dims x ->
  same_axes x (weights_or_ones x w) -> same_axes x y ->
  local x -> local y -> local (weights_or_ones x w) ->
  clean x -> clean y -> clean (weights_or_ones x w) ->
  _get_weights_and_dims x (Some y) w dim = inr (wm, D) ->
  exists nm,
    weighted_cov x y w dim
    = (default_log w
         "Computing weighted covariance with equal weights for all data points",
       inr (mkDA nm [] [] (wcov x y wm) [] [])).
Proof.
  intros Hwf Hne Hreq Hw Hy Hlx Hly Hlw Hcx Hcy Hcw H.
  destruct (full_setup x (Some y) w dim wm D) as
    (E & -> & Hc & Hwm & Hlwm & Hcwm & Henc & H2); trivial.
  { intros y' Ey. injection Ey as <-. now split. }
  rewrite (weighted_cov_resolved x y w dim wm (dims x) H H2).
  assert (Hmx : forall e, valid1 x e = false -> values wm e = NaN).
  { intros e He. rewrite E. now apply mask_by_invalid1. }
  assert (Hmy : forall e, valid1 y e = false -> values wm e = NaN).
  { intros e He. rewrite E. now apply mask_by_invalid2. }
  destruct (weighted_cov_masked x y wm (dims x)) as [nm ->]; trivial.
  - intros e. now apply (dev_prod_masked x y wm).
  - exists nm. simpl. now rewrite app_nil_r.
Qed.

Lemma Qmult_comm_eq (p q : Q) : (p * q = q * p)%Q.
Proof.
  unfold Qmult. f_equal; [apply Z.mul_comm | apply Pos.mul_comm].
Qed.

Lemma fmul_comm (a b : fval) : fmul a b = fmul b a.
Proof.
  destruct a as [p | | |], b as [q | | |]; simpl; trivial.
  now rewrite Qmult_comm_eq.
Qed.

Lemma validity_comm (x y : DataArray) :
  validity x (Some y) = validity y (Some x).
Proof.
  apply functional_extensionality. intros e. simpl. apply andb_comm.
Qed.

Lemma weights_or_ones_same (x y : DataArray) (w : option DataArray) :
  same_axes x y -> weights_or_ones y w = weights_or_ones x w.
Proof.
  intros [Hd Hs]. destruct w; [reflexivity |]. unfold weights_or_ones,
    ones_like. now rewrite Hd, Hs.
Qed.

Lemma wcov_comm (x y wm : DataArray) (e : env) :
  same_axes x y -> wcov x y wm e = wcov y x wm e.
Proof.
  intros [Hd Hs]. unfold wcov, all_cells. rewrite Hd, Hs. f_equal. f_equal.
  apply map_ext. intros c. unfold dev_prod. f_equal. apply fmul_comm.
Qed.

Lemma pair_eq {A B} (p : A * B) (a : A) (b : B) :
  fst p = a -> snd p = b -> p = (a, b).
Proof. destruct p. simpl. congruence. Qed.

(** The correlation over every axis, when the resolver returns. *)
Lemma weighted_corr_full_array (sqrtQ : Q -> Q) (x y : DataArray)
    (w : option DataArray) (dim : dim_spec) (wm : DataArray)
    (D : list string) :
  wf x -> dims x <> [] -> requested_dims x dim = dims x ->
  same_axes x (weights_or_ones x w) -> same_axes x y ->
  local x -> local y -> local (weights_or_ones x w) ->
  clean x -> clean y -> clean (weights_or_ones x w) ->
  _get_weights_and_dims x (Some y) w dim = inr (wm, D) ->
  exists nm,
    weighted_corr sqrtQ x y w dim
    = (default_log w
         "Computing weighted correlation with equal weights for all data points",
       inr (mkDA nm [] []
              (fun e => fdiv (wcov x y wm e)
                             (fsqrt sqrtQ (fmul (wcov x x wm e)
                                                (wcov y y wm e))))
              [] [])).
Proof.
  intros Hwf Hne Hreq Hw Hy Hlx Hly Hlw Hcx Hcy Hcw H.
  destruct (full_setup x (Some y) w dim wm D) as
    (E & -> & Hc & Hwm & Hlwm & Hcwm & Henc & H2); trivial.
  { intros y' Ey. injection Ey as <-. now split. }
  rewrite (weighted_corr_resolved sqrtQ x y w dim wm (dims x) H H2).
  assert (Hmx : forall e, valid1 x e = false -> values wm e = NaN).
  { intros e He. rewrite E. now apply mask_by_invalid1. }
  assert (Hmy : forall e, valid1 y e = false -> values wm e = NaN).
  { intros e He. rewrite E. now apply mask_by_invalid2. }
  pose proof (wf_same_axes x y Hwf Hy) as Hwfy.
  pose proof (same_axes_trans y x wm (same_axes_sym x y Hy) Hwm) as Hywm.
  destruct (weighted_corr_masked sqrtQ x y wm (dims x)) as [nm ->]; trivial.
  - intros e. now apply (dev_prod_masked x y wm).
  - intros e. apply (dev_prod_masked x x wm); trivial. apply same_axes_refl.
  - intros e. apply (dev_prod_masked y y wm); trivial. apply same_axes_refl.
  - exists nm. simpl. now rewrite app_nil_r.
Qed.

(** X6.  The covariance and the correlation are symmetric in their two
    arrays: over every axis, [weighted_cov(x, y)] and [weighted_cov(y, x)]
    issue the same warning and fail with the same error or return the same
    number, and so do [weighted_corr(x, y)] and [weighted_corr(y, x)]. *)
Theorem cov_and_corr_are_symmetric (sqrtQ : Q -> Q) (x y : DataArray)
    (w : option DataArray) (dim : dim_spec) :
  wf x -> dims x <> [] -> requested_dims x dim = dims x ->
  same_axes x (weights_or_ones x w) -> same_axes x y ->
  local x -> local y -> local (weights_or_ones x w) ->
  clean x -> clean y -> clean (weights_or_ones x w) ->
  same_outcome (weighted_cov x y w dim) (weighted_cov y x w dim) /\
  same_outcome (weighted_corr sqrtQ x y w dim)
               (weighted_corr sqrtQ y x w dim).
Proof.
  intros Hwf Hne Hreq Hw Hy Hlx Hly Hlw Hcx Hcy Hcw.
  pose proof (wf_same_axes x y Hwf Hy) as Hwfy.
  pose proof Hy as [Hd Hs].
  pose proof (same_axes_sym x y Hy) as Hyx.
  assert (Hney : dims y <> []) by now rewrite Hd.
  assert (Hreqy : requested_dims y dim = dims y).
  { destruct dim as [| s | l | l]; simpl in *; rewrite ?Hd; trivial. }
  assert (Ew : weights_or_ones y w = weights_or_ones x w)
    by now apply weights_or_ones_same.
  assert (Hwy : same_axes y (weights_or_ones y w)).
  { rewrite Ew. apply (same_axes_trans y x); assumption. }
  assert (Gx := gwd_all x (Some y) w dim Hwf Hne Hreq Hw).
  assert (Gy := gwd_all y (Some x) w dim Hwfy Hney Hreqy Hwy).
  rewrite Ew, <- validity_comm, Hd in Gy.
  set (wm := mask_by (validity x (Some y)) (weights_or_ones x w)) in *.
  destruct (close_to 1 (normalized_sum wm env0)) eqn:Ec.
  - assert (Fx : _get_weights_and_dims x (Some y) w dim
                 = inr (wm, dims x)).
    { apply Gx. intros y' Ey. now injection Ey as <-. }
    assert (Fy : _get_weights_and_dims y (Some x) w dim
                 = inr (wm, dims x)).
    { apply Gy. intros y' Ey. now injection Ey as <-. }
    split.
    + destruct (weighted_cov_full x y w dim wm (dims x)) as [n1 E1];
        trivial.
      destruct (weighted_cov_full y x w dim wm (dims x)) as [n2 E2];
        trivial; try (rewrite Ew; assumption).
      rewrite E1, E2. split; [reflexivity |]. simpl. repeat split.
      unfold flatten. simpl. constructor; [| constructor].
      rewrite (wcov_comm x y wm env0 Hy). apply feq_refl.
    + destruct (weighted_corr_full_array sqrtQ x y w dim wm (dims x))
        as [n1 E1]; trivial.
      destruct (weighted_corr_full_array sqrtQ y x w dim wm (dims x))
        as [n2 E2]; trivial; try (rewrite Ew; assumption).
      rewrite E1, E2. split; [reflexivity |]. simpl. repeat split.
      unfold flatten. simpl. constructor; [| constructor].
      rewrite (wcov_comm x y wm env0 Hy), (fmul_comm (wcov x x wm env0)).
      apply feq_refl.
  - assert (Fx : _get_weights_and_dims x (Some y) w dim
                 = inl NormalizationError).
    { apply Gx. intros y' Ey. now injection Ey as <-. }
    assert (Fy : _get_weights_and_dims y (Some x) w dim
                 = inl NormalizationError).
    { apply Gy. intros y' Ey. now injection Ey as <-. }
    destruct (operators_fail_with_resolver sqrtQ x y w dim 0
                NormalizationError) as [_ F1].
    destruct (operators_fail_with_resolver sqrtQ y x w dim 0
                NormalizationError) as [_ F2].
    destruct (F1 Fx) as (_ & C1 & R1). destruct (F2 Fy) as (_ & C2 & R2).
    split; (split; [now rewrite ?log_cov, ?log_corr |]).
    + now rewrite C1, C2.
    + now rewrite R1, R2.
Qed.

Lemma cov_and_corr_are_symmetric_witness :
  same_outcome
    (weighted_cov v12 (array1 "a" [Fin 5; NaN]) None DimNone)
    (weighted_cov (array1 "a" [Fin 5; NaN]) v12 None DimNone) /\
  same_outcome
    (weighted_corr Qsqrt v12 (array1 "a" [Fin 5; NaN]) None DimNone)
    (weighted_corr Qsqrt (array1 "a" [Fin 5; NaN]) v12 None DimNone).
Proof.
  apply cov_and_corr_are_symmetric.
  - apply wf_array1.
  - discriminate.
  - reflexivity.
  - apply same_axes_ones.
  - now split.
  - apply local_array1.
  - apply local_array1.
  - apply local_ones.
  - now apply clean_numbers.
  - apply clean_array1. intros v [<- | [<- | []]]; eauto.
  - apply clean_ones.
Defined.

(** ** The total of the weights over every axis *)

Lemma total_weight_env0_Q (wm : DataArray) :
  clean wm -> total_weight wm env0 = Fin (total_Q wm).
Proof.
  intros Hc. unfold total_weight, total_Q. apply nansum_map_Fin.
  intros c _. apply Hc.
Qed.

(** ** The root-mean-square deviation *)

Lemma weighted_rmsd_resolved (sqrtQ : Q -> Q) (x y : DataArray)
    (w : option DataArray) (dim : dim_spec) (wm : DataArray)
    (D : list string) :
  _get_weights_and_dims x (Some y) w dim = inr (wm, D) ->
  _get_weights_and_dims x (Some y) (Some wm) (DimList D) = inr (wm, D) ->
  weighted_rmsd sqrtQ x y w dim
  = (default_log w
       "Computing root-mean-square-deviation with equal weights for all data points"
       ++ fst (weighted_rmsd sqrtQ x y (Some wm) (DimList D)),
     snd (weighted_rmsd sqrtQ x y (Some wm) (DimList D))).
Proof.
  intros H1 H2. unfold weighted_rmsd. rewrite !bind_warn_default.
  rewrite H1, H2. reflexivity.
Qed.

(** The squared differences of two arrays over the same axes. *)
Lemma weighted_rmsd_masked (sqrtQ : Q -> Q) (x y wm : DataArray)
    (D : list string) :
  wf x -> dims x <> [] -> same_axes x wm -> encoding wm = [] ->
  same_axes x y -> D = dims x ->
  close_to 1 (normalized_sum wm env0) = true ->
  (forall e, valid1 x e = false -> values wm e = NaN) ->
  (forall e, valid1 y e = false -> values wm e = NaN) ->
  (forall e, isnan (fsquare (fsub (values x e) (values y e))) = true ->
             values wm e = NaN) ->
  exists nm,
    weighted_rmsd sqrtQ x y (Some wm) (DimList D)
    = ([], inr (mkDA nm [] []
                  (fun e => fsqrt sqrtQ
                     (fdiv (nansum
                              (map (fun c => fmul (fsquare
                                                     (fsub (values x c)
                                                           (values y c)))
                                                  (values wm c))
                                   (all_cells x e)))
                           (total_weight wm e)))
                  [] [])).
Proof.
  intros Hwf Hne Hw Henc Hy -> Hc Hmx Hmy Hmd. unfold weighted_rmsd.
  rewrite (gwd_masked x (Some y) wm); trivial.
  2:{ intros y' E. now injection E as <-. }
  2:{ now apply validity_false. }
  simpl warn_default. unfold ret at 1. rewrite bind_ok, bind_lift. simpl fst.
  simpl snd.
  pose proof Hy as [Hyd Hys].
  rewrite binop_same; [| exact Hwf | exact Hyd | exact Hys].
  rewrite bind_lift.
  match goal with
  | |- context [weighted_mean ?d _ _] =>
      destruct (weighted_mean_masked_at d wm (dims x)) as [nd Hd];
        [exact Hwf | exact Hne | exact Hw | exact Henc | reflexivity |
         | exact Hc |]
  end.
  { intros e He. apply Hmd. unfold valid1 in He. simpl in He.
    now apply negb_false_iff in He. }
  rewrite Hd, bind_ok. eexists. reflexivity.
Qed.

Lemma qsum_zero {A} (f : A -> Q) (l : list A) :
  (forall a, In a l -> f a == 0) -> qsum (map f l) == 0.
Proof.
  induction l as [| a l IH]; intros H; [reflexivity |].
  simpl map. rewrite qsum_cons, (H a) by now left.
  rewrite IH; [ring |]. intros b Hb. apply H. now right.
Qed.



(** ** Axes summed out and axes kept *)

Lemma filter_twice {A} (f : A -> bool) (l : list A) :
  filter f (filter f l) = filter f l.
Proof.
  apply filter_all. intros a Ha. now apply filter_In in Ha.
Qed.

Lemma filter_neg {A} (f : A -> bool) (l : list A) :
  filter f (filter (fun a => negb (f a)) l) = [].
Proof.
  apply filter_none. intros a Ha. apply filter_In in Ha as [_ Ha].
  now apply negb_true_iff.
Qed.

Lemma filter_neg' {A} (f : A -> bool) (l : list A) :
  filter (fun a => negb (f a)) (filter f l) = [].
Proof.
  apply filter_none. intros a Ha. apply filter_In in Ha as [_ Ha].
  now rewrite Ha.
Qed.

Lemma axes_of_sized (l : sized) : axes (map fst l) (map snd l) = l.
Proof. apply combine_fst_snd. Qed.

Section Split.

Variables (ax : sized) (D : list string).
Hypothesis Hnd : NoDup (map fst ax).

Lemma compatible_sub (f : string * nat -> bool) :
  compatible (filter f ax) ax = true.
Proof.
  unfold compatible. apply forallb_forall. intros [d n] Hp.
  apply filter_In in Hp as [Hp _]. simpl.
  rewrite (lookup_In ax d n Hnd Hp). apply Nat.eqb_refl.
Qed.

Lemma compatible_in : compatible (axes_in ax D) ax = true.
Proof. apply compatible_sub. Qed.

Lemma union_split : union_axes (axes_in ax D) ax = axes_split ax D.
Proof.
  unfold union_axes, axes_split, axes_out. f_equal. apply filter_ext_in.
  intros p Hp. f_equal. destruct (mem (fst p) D) eqn:E.
  - apply mem_In. apply in_map. apply filter_In. now split.
  - apply mem_false. intros Hin. apply in_map_iff in Hin as (q & Eq & Hq).
    apply filter_In in Hq as [_ Hq]. rewrite Eq in Hq. congruence.
Qed.

Lemma NoDup_split : NoDup (map fst (axes_split ax D)).
Proof.
  rewrite <- union_split. apply NoDup_union_axes; [| exact Hnd].
  now apply NoDup_fst_filter.
Qed.

Lemma in_of_split : axes_in (axes_split ax D) D = axes_in ax D.
Proof.
  unfold axes_split, axes_in, axes_out. rewrite filter_app.
  rewrite filter_twice, (filter_neg (fun p => mem (fst p) D)).
  apply app_nil_r.
Qed.

Lemma out_of_split : axes_out (axes_split ax D) D = axes_out ax D.
Proof.
  unfold axes_split, axes_in, axes_out. rewrite filter_app.
  rewrite (filter_neg' (fun p => mem (fst p) D)), filter_twice.
  reflexivity.
Qed.

Lemma In_split (p : string * nat) : In p ax <-> In p (axes_split ax D).
Proof.
  unfold axes_split, axes_in, axes_out.
  rewrite in_app_iff, !filter_In. split.
  - intros H. destruct (mem (fst p) D); [left | right]; now split.
  - intros [[H _] | [H _]]; exact H.
Qed.

Lemma compatible_split : compatible ax (axes_split ax D) = true.
Proof.
  unfold compatible. apply forallb_forall. intros [d n] Hp. simpl.
  rewrite (lookup_In (axes_split ax D) d n NoDup_split);
    [apply Nat.eqb_refl |].
  now apply In_split.
Qed.

Lemma union_with_split : union_axes ax (axes_split ax D) = ax.
Proof.
  unfold union_axes. rewrite filter_none; [apply app_nil_r |].
  intros p Hp. apply In_split in Hp. apply negb_false_iff. apply mem_In.
  now apply in_map.
Qed.

End Split.

(** ** The resolver over a part of the axes *)

Lemma masked_weights_over (x : DataArray) (w : option DataArray)
    (dim : dim_spec) (D : list string) :
  wf x -> resolve_dims x dim = inr D ->
  over_reduced x (weights_or_default x w D) D ->
  masked_weights x None w dim
  = inr (masked_over x (weights_or_default x w D) D, D).
Proof.
  intros [Hlen Hnd] Hres [Hd Hs].
  assert (Hwh : where_ (weights_or_default x w D) (notnull x)
                = inr (masked_over x (weights_or_default x w D) D)).
  { unfold where_. simpl bdims. simpl bshape.
    rewrite Hd, Hs, !axes_of_sized. unfold reduced_axes.
    rewrite compatible_in by now apply axes_NoDup.
    rewrite union_split by now apply axes_NoDup.
    reflexivity. }
  unfold masked_weights. rewrite Hres. simpl rbind. cbv zeta.
  destruct w as [w0 |]; simpl in Hd, Hs, Hwh.
  - rewrite Hs, shape_eqb_refl. simpl rbind. rewrite Hwh. reflexivity.
  - unfold ones.
    assert (El : List.length (dims_shape x D) = List.length D).
    { rewrite Hd at 2. unfold dims_shape, reduced_axes, axes_in.
      now rewrite !length_map. }
    rewrite El, Nat.eqb_refl. simpl rbind. rewrite Hwh. reflexivity.
Qed.

Lemma wf_masked_over (x w1 : DataArray) (D : list string) :
  wf x -> wf (masked_over x w1 D).
Proof.
  intros [Hlen Hnd]. apply wf_mkDA. apply NoDup_split.
  now apply axes_NoDup.
Qed.

Lemma axes_masked_over (x w1 : DataArray) (D : list string) :
  axes (dims (masked_over x w1 D)) (shape (masked_over x w1 D))
  = axes_split (axes (dims x) (shape x)) D.
Proof. apply axes_of_sized. Qed.

Lemma reduced_masked_over (x w1 : DataArray) (D : list string) :
  reduced_axes (masked_over x w1 D) D = reduced_axes x D.
Proof.
  unfold reduced_axes at 1. rewrite axes_masked_over. apply in_of_split.
Qed.

Lemma kept_masked_over (x w1 : DataArray) (D : list string) :
  kept_axes (masked_over x w1 D) D = kept_axes x D.
Proof.
  unfold kept_axes at 1. rewrite axes_masked_over. apply out_of_split.
Qed.

Lemma column_masked_over (x w1 : DataArray) (D : list string) (e : env) :
  column (masked_over x w1 D) D e = column x D e.
Proof. unfold column. now rewrite reduced_masked_over. Qed.

Lemma kept_cells_masked_over (x w1 : DataArray) (D : list string) :
  kept_cells (masked_over x w1 D) D = kept_cells x D.
Proof. unfold kept_cells. now rewrite kept_masked_over. Qed.

Lemma dims_masked_over (x w1 : DataArray) (D : list string) (k : string) :
  wf x -> In k (dims x) -> In k (dims (masked_over x w1 D)).
Proof.
  intros [Hlen Hnd] Hk. simpl.
  rewrite <- (axes_fst (dims x) (shape x) Hlen) in Hk.
  apply in_map_iff in Hk as (p & <- & Hp). apply in_map.
  now apply In_split.
Qed.

(** The array that the check compares with 1: for every cell of the
    result, the sum over its column of the quotients of the weights by
    their sum over the column. *)
Lemma normalized_total_inr (wm : DataArray) (D : list string) :
  wf wm -> forallb (fun d => mem d (dims wm)) D = true -> nodupb D = true ->
  exists t,
    normalized_total wm D = inr t /\
    dims t = map fst (kept_axes wm D) /\
    shape t = map snd (kept_axes wm D) /\
    forall e,
      values t e
      = nansum (map (fun c => fdiv (values wm c)
                                   (nansum (map (values wm) (column wm D c))))
                    (column wm D e)).
Proof.
  intros [Hlen Hnd] HD1 HD2.
  destruct (da_sum_ok wm D HD1 HD2) as [tot Htot].
  destruct (da_sum_inr wm D tot Htot) as (Et & _ & _).
  unfold normalized_total. rewrite Htot. simpl rbind.
  set (ax := axes (dims wm) (shape wm)) in *.
  set (kept := filter (fun p => negb (mem (fst p) D)) ax) in *.
  set (red := filter (fun p => mem (fst p) D) ax) in *.
  assert (Eax : axes (dims tot) (shape tot) = kept).
  { rewrite Et. simpl. apply combine_fst_snd. }
  unfold binop. fold ax. rewrite Eax.
  unfold kept at 1. rewrite compatible_filter by now apply axes_NoDup.
  unfold kept. rewrite union_axes_filter. fold kept.
  unfold ax at 1 2. rewrite axes_fst, axes_snd by assumption. simpl rbind.
  match goal with
  | |- context [da_sum ?r D] =>
      destruct (da_sum_ok r D HD1 HD2) as [t Ht];
      destruct (da_sum_inr r D t Ht) as (Er & _)
  end.
  simpl in Er. fold ax kept red in Er.
  exists t. split; [exact Ht |]. rewrite Er. simpl.
  repeat split. intros e. rewrite Et. reflexivity.
Qed.

Lemma column_again (x : DataArray) (D : list string) (e c : env) :
  In c (column x D e) -> column x D c = column x D e.
Proof.
  intros H. unfold column in *. apply cells_idem; [| exact H].
  now rewrite !length_map.
Qed.

(** The check on one cell of the result: it passes exactly when the total
    of the weights in the column is not zero. *)
Lemma column_check (wm : DataArray) (D : list string) (e : env) :
  clean wm ->
  close_to 1
    (nansum (map (fun c => fdiv (values wm c)
                                (nansum (map (values wm) (column wm D c))))
                 (column wm D e)))
  = negb (Qeq_bool (column_total wm wm D e) 0).
Proof.
  intros Hc.
  assert (Etot : nansum (map (values wm) (column wm D e))
                 = Fin (column_total wm wm D e)).
  { unfold column_total. apply nansum_map_Fin. intros c _. apply Hc. }
  rewrite (map_ext_in _ (fun c => fdiv (values wm c)
                                       (Fin (column_total wm wm D e)))).
  2:{ intros c Hin. now rewrite (column_again wm D e c Hin), Etot. }
  destruct (Qeq_bool (column_total wm wm D e) 0) eqn:E; simpl.
  - apply Qeq_bool_iff in E. apply nonfinite_sum_not_close.
    intros v Hv. apply in_map_iff in Hv as (c & <- & _).
    now apply fdiv_zero.
  - assert (Hnz : ~ column_total wm wm D e == 0).
    { intros H. apply Qeq_bool_iff in H. congruence. }
    rewrite nansum_map_Fin.
    2:{ intros c _. now apply to_Q_fdiv. }
    apply close_to_one.
    rewrite (qsum_map_ext _ (fun c => / column_total wm wm D e
                                      * to_Q (values wm c))).
    2:{ intros c _. now apply to_Q_fdiv. }
    rewrite qsum_map_scale. fold (column_total wm wm D e). now field.
Qed.

Lemma forallb_map {A B} (f : B -> bool) (g : A -> B) (l : list A) :
  forallb f (map g l) = forallb (fun a => f (g a)) l.
Proof.
  induction l as [| a l IH]; simpl; [reflexivity | now rewrite IH].
Qed.

Lemma forallb_ext_in {A} (f g : A -> bool) (l : list A) :
  (forall a, In a l -> f a = g a) -> forallb f l = forallb g l.
Proof.
  induction l as [| a l IH]; simpl; intros H; [reflexivity |].
  rewrite (H a) by now left. rewrite IH; [reflexivity |].
  intros b Hb. apply H. now right.
Qed.

Lemma clean_masked_over (x w1 : DataArray) (D : list string) :
  clean w1 -> clean (masked_over x w1 D).
Proof.
  intros H e. simpl. destruct (valid1 x e); [apply H | now left].
Qed.

Lemma resolved_names (x : DataArray) (dim : dim_spec) (D : list string) :
  resolve_dims x dim = inr D -> forall k, In k D -> In k (dims x).
Proof.
  intros H k Hk. apply resolve_dims_inr in H as [-> _].
  now apply present_In in Hk.
Qed.

(** The resolver over the names [D]: the masked weights, when no column
    of them has a zero total, and the failure of the check otherwise. *)
Lemma gwd_over (x : DataArray) (w : option DataArray) (dim : dim_spec)
    (D : list string) :
  wf x -> resolve_dims x dim = inr D -> NoDup D ->
  over_reduced x (weights_or_default x w D) D ->
  clean (weights_or_default x w D) ->
  _get_weights_and_dims x None w dim
  = if forallb (fun e => negb (Qeq_bool
                   (column_total x (masked_over x (weights_or_default x w D) D)
                      D e) 0))
               (kept_cells x D)
    then inr (masked_over x (weights_or_default x w D) D, D)
    else inl NormalizationError.
Proof.
  intros Hwf Hres HD Hov Hcw.
  set (wm := masked_over x (weights_or_default x w D) D).
  unfold _get_weights_and_dims.
  rewrite (masked_weights_over x w dim D Hwf Hres Hov). fold wm.
  simpl rbind.
  destruct (normalized_total_inr wm D) as (t & -> & Hd & Hs & Hv).
  - now apply wf_masked_over.
  - apply forallb_forall. intros k Hk. apply mem_In.
    apply dims_masked_over; [exact Hwf |].
    now apply (resolved_names x dim D).
  - now apply nodupb_NoDup.
  - simpl rbind. unfold assert_allclose, flatten. rewrite Hd, Hs.
    fold (kept_cells wm D). unfold wm at 1.
    rewrite kept_cells_masked_over, forallb_map.
    rewrite (forallb_ext_in _
               (fun e => negb (Qeq_bool (column_total x wm D e) 0))).
    + reflexivity.
    + intros e _. rewrite Hv, column_check by now apply clean_masked_over.
      unfold column_total, wm. now rewrite column_masked_over.
Qed.

(** ** The weighted sum over a part of the axes *)

Lemma binop_over (f : fval -> fval -> fval) (x w1 : DataArray)
    (D : list string) :
  wf x ->
  binop f x (masked_over x w1 D)
  = inr (mkDA (result_name x (masked_over x w1 D)) (dims x) (shape x)
              (fun e => f (values x e) (values (masked_over x w1 D) e))
              [] []).
Proof.
  intros [Hlen Hnd]. unfold binop. rewrite axes_masked_over.
  rewrite compatible_split, union_with_split by now apply axes_NoDup.
  now rewrite axes_fst, axes_snd.
Qed.

(** [sum] over names that are axes of the array, each once. *)
Lemma da_sum_part (a : DataArray) (D : list string) :
  (forall k, In k D -> In k (dims a)) -> NoDup D ->
  da_sum a D
  = inr (mkDA (name a) (map fst (kept_axes a D)) (map snd (kept_axes a D))
              (fun e => nansum (map (values a) (column a D e))) [] []).
Proof.
  intros Hin HD. unfold da_sum.
  assert (E1 : forallb (fun d => mem d (dims a)) D = true).
  { apply forallb_forall. intros k Hk. apply mem_In. now apply Hin. }
  assert (E2 : nodupb D = true) by now apply nodupb_NoDup.
  rewrite E1, E2. reflexivity.
Qed.

(** What [weighted_sum] returns over the names [D], when the resolver
    returns the masked weights. *)
Lemma weighted_sum_over (x : DataArray) (w : option DataArray)
    (dim : dim_spec) (D : list string) (w1 : DataArray) :
  wf x -> resolve_dims x dim = inr D -> NoDup D ->
  _get_weights_and_dims x None w dim = inr (masked_over x w1 D, D) ->
  weighted_sum x w dim
  = (default_log w "Computing sum with equal weights for all data points",
     inr (mkDA (result_name x (masked_over x w1 D))
               (map fst (kept_axes x D)) (map snd (kept_axes x D))
               (fun e => nansum (map (fun c => fmul (values x c)
                                                    (values w1 c))
                                     (column x D e)))
               (attrs x) (encoding x))).
Proof.
  intros Hwf Hres HD Hg. unfold weighted_sum.
  rewrite bind_warn_default, Hg, bind_lift. cbn [fst snd].
  rewrite binop_over, bind_lift by assumption.
  rewrite da_sum_part;
    [| intros k Hk; now apply (resolved_names x dim D) | assumption].
  rewrite bind_lift. unfold ret, get_original_attrs, update_attrs.
  cbn [fst snd name dims shape values]. rewrite app_nil_r.
  f_equal. f_equal. f_equal. apply functional_extensionality. intros e.
  f_equal. apply map_ext. intros c. simpl.
  unfold valid1. destruct (values x c); reflexivity.
Qed.

Lemma gwd_over_ok (x : DataArray) (w : option DataArray) (dim : dim_spec)
    (D : list string) :
  wf x -> resolve_dims x dim = inr D -> NoDup D ->
  over_reduced x (weights_or_default x w D) D ->
  clean (weights_or_default x w D) ->
  (forall e, In e (kept_cells x D) ->
     ~ column_total x (masked_over x (weights_or_default x w D) D) D e == 0) ->
  _get_weights_and_dims x None w dim
  = inr (masked_over x (weights_or_default x w D) D, D).
Proof.
  intros Hwf Hres HD Hov Hcw Hnz. rewrite (gwd_over x w dim D) by assumption.
  rewrite (proj2 (forallb_forall _ _)); [reflexivity |].
  intros e He. apply negb_true_iff.
  destruct (Qeq_bool _ 0) eqn:E; [| reflexivity].
  apply Qeq_bool_iff in E. now apply Hnz in E.
Qed.

Lemma gwd_over_fail (x : DataArray) (w : option DataArray) (dim : dim_spec)
    (D : list string) (e : env) :
  wf x -> resolve_dims x dim = inr D -> NoDup D ->
  over_reduced x (weights_or_default x w D) D ->
  clean (weights_or_default x w D) ->
  In e (kept_cells x D) ->
  column_total x (masked_over x (weights_or_default x w D) D) D e == 0 ->
  _get_weights_and_dims x None w dim = inl NormalizationError.
Proof.
  intros Hwf Hres HD Hov Hcw He Hz. rewrite (gwd_over x w dim D) by assumption.
  destruct (forallb _ (kept_cells x D)) eqn:E; [| reflexivity].
  rewrite forallb_forall in E. specialize (E e He).
  apply Qeq_bool_iff in Hz. rewrite Hz in E. discriminate.
Qed.

(** ** Default weights over a part of the axes *)

Lemma Qmult_one_eq (p : Q) : (p * 1 = p)%Q.
Proof.
  destruct p as [n d]. unfold Qmult. simpl.
  now rewrite Z.mul_1_r, Pos.mul_1_r.
Qed.

Lemma fmul_one (v : fval) : fmul v (Fin 1) = v.
Proof.
  destruct v as [p | | |]; simpl; trivial. now rewrite Qmult_one_eq.
Qed.

Lemma over_reduced_default (x : DataArray) (D : list string) :
  map fst (reduced_axes x D) = D ->
  over_reduced x (weights_or_default x None D) D.
Proof. intros H. split; [now symmetry | reflexivity]. Qed.

Lemma clean_default (x : DataArray) (D : list string) :
  clean (weights_or_default x None D).
Proof. intros e. right. now exists 1. Qed.

Lemma default_column_total (x : DataArray) (D : list string) (e : env) :
  column_total x (masked_over x (weights_or_default x None D) D) D e
  = qsum (map (fun c => if valid1 x c then 1 else 0) (column x D e)).
Proof.
  unfold column_total. f_equal. apply map_ext. intros c. simpl.
  now destruct (valid1 x c).
Qed.

(** X12.  With the default weights [weighted_sum] over the names [D]
    (given in the order of the axes of the array) is the plain sum of
    xarray over [D], missing elements skipped, with the attributes and the
    encoding of the array put back, as long as every column has an element
    that is not missing; and a single column without any (all its elements
    missing, or a reduced axis of length zero) makes the whole call fail at
    the normalisation check, where the plain sum has a zero. *)
Theorem default_weights_give_the_plain_sum (x : DataArray) (dim : dim_spec)
    (D : list string) :
  wf x -> resolve_dims x dim = inr D -> NoDup D ->
  map fst (reduced_axes x D) = D ->
  ((forall e, In e (kept_cells x D) ->
      exists c, In c (column x D e) /\ isnan (values x c) = false) ->
   exists r t,
     weighted_sum x None dim
     = (["Computing sum with equal weights for all data points"], inr r) /\
     da_sum x D = inr t /\
     dims r = dims t /\ shape r = shape t /\
     (forall e, values r e = values t e) /\
     attrs r = attrs x /\ encoding r = encoding x) /\
  (forall e, In e (kept_cells x D) ->
     (forall c, In c (column x D e) -> isnan (values x c) = true) ->
     weighted_sum x None dim
     = (["Computing sum with equal weights for all data points"],
        inl NormalizationError)).
Proof.
  intros Hwf Hres HD Hord.
  pose proof (over_reduced_default x D Hord) as Hov.
  pose proof (clean_default x D) as Hcw.
  split.
  - intros Hval.
    assert (Hg : _get_weights_and_dims x None None dim
                 = inr (masked_over x (weights_or_default x None D) D, D)).
    { apply gwd_over_ok; trivial. intros e He.
      rewrite default_column_total.
      destruct (Hval e He) as (c & Hc & Hv).
      assert (0 < qsum (map (fun c => if valid1 x c then 1 else 0)
                           (column x D e))) as Hpos.
      { apply (qsum_map_pos _ _ c); trivial.
        - intros b _. destruct (valid1 x b); lra.
        - unfold valid1. rewrite Hv. simpl. lra. }
      intros Hz. rewrite Hz in Hpos. lra. }
    rewrite (weighted_sum_over x None dim D _ Hwf Hres HD Hg).
    rewrite da_sum_part;
      [| intros k Hk; now apply (resolved_names x dim D) | assumption].
    do 2 eexists. split; [reflexivity |]. split; [reflexivity |].
    repeat split. intros e. simpl. f_equal. apply map_ext. intros c.
    apply fmul_one.
  - intros e He Hnan.
    assert (Hg : _get_weights_and_dims x None None dim
                 = inl NormalizationError).
    { apply (gwd_over_fail x None dim D e); trivial.
      rewrite default_column_total. apply qsum_zero. intros c Hc.
      unfold valid1. rewrite (Hnan c Hc). reflexivity. }
    apply pair_eq; [apply log_sum |].
    destruct (operators_fail_with_resolver (fun q => q) x x None dim 0
                NormalizationError) as [F _].
    now apply F.
Qed.

Lemma default_weights_give_the_plain_sum_witness :
  (exists r t,
     weighted_sum x22 None (DimStr "b")
     = (["Computing sum with equal weights for all data points"], inr r) /\
     da_sum x22 ["b"] = inr t /\
     dims r = dims t /\ shape r = shape t /\
     (forall e, values r e = values t e) /\
     attrs r = attrs x22 /\ encoding r = encoding x22) /\
  weighted_sum (array2 "a" "b" 2 [[NaN; NaN]; [Fin 3; Fin 4]]) None
    (DimStr "b")
  = (["Computing sum with equal weights for all data points"],
     inl NormalizationError).
Proof.
  assert (HD : NoDup ["b"]) by (repeat constructor; simpl; tauto).
  assert (Hwf : forall rows, wf (array2 "a" "b" 2 rows)).
  { intros rows. split; [reflexivity |].
    repeat constructor; simpl; intuition discriminate. }
  split.
  - destruct (default_weights_give_the_plain_sum x22 (DimStr "b") ["b"]
                (Hwf _) eq_refl HD eq_refl) as [A _].
    apply A. intros e [<- | [<- | []]].
    + exists (upd (upd env0 "a" 0) "b" 0). split; [simpl; tauto | reflexivity].
    + exists (upd (upd env0 "a" 1) "b" 0). split; [simpl; tauto | reflexivity].
  - destruct (default_weights_give_the_plain_sum
                (array2 "a" "b" 2 [[NaN; NaN]; [Fin 3; Fin 4]]) (DimStr "b")
                ["b"] (Hwf _) eq_refl HD eq_refl) as [_ B].
    apply (B (upd env0 "a" 0)); [simpl; tauto |].
    intros c [<- | [<- | []]]; reflexivity.
Defined.

(** ** Elements without a partner *)

Lemma fmul_nan_r (v : fval) : fmul v NaN = NaN.
Proof. now destruct v. Qed.

Lemma weighted_agree (wm z z' : DataArray) (c : env) :
  (forall a, isnan (values wm a) = false -> values z' a = values z a) ->
  fmul (values z c) (values wm c) = fmul (values z' c) (values wm c).
Proof.
  intros H. destruct (isnan (values wm c)) eqn:E.
  - destruct (values wm c); try discriminate. now rewrite !fmul_nan_r.
  - now rewrite H.
Qed.

Lemma wmean_agree (wm z z' : DataArray) (e : env) :
  same_axes z z' ->
  (forall a, isnan (values wm a) = false -> values z' a = values z a) ->
  wmean z wm e = wmean z' wm e.
Proof.
  intros [Hd Hs] H. unfold wmean, wsum, all_cells. rewrite Hd, Hs.
  f_equal. f_equal. apply map_ext. intros c. now apply weighted_agree.
Qed.

Lemma wcov_agree (x x' y y' wm : DataArray) (e : env) :
  same_axes x x' -> same_axes y y' ->
  (forall c, isnan (values wm c) = false -> values x' c = values x c) ->
  (forall c, isnan (values wm c) = false -> values y' c = values y c) ->
  wcov x y wm e = wcov x' y' wm e.
Proof.
  intros Hx Hy Hax Hay. unfold wcov, all_cells.
  destruct Hx as [Hd Hs]. rewrite Hd, Hs. f_equal. f_equal.
  apply map_ext. intros c.
  destruct (isnan (values wm c)) eqn:E.
  - destruct (values wm c); try discriminate. now rewrite !fmul_nan_r.
  - unfold dev_prod. rewrite (Hax c E), (Hay c E).
    rewrite (wmean_agree wm x x' c (conj Hd Hs) Hax).
    now rewrite (wmean_agree wm y y' c Hy Hay).
Qed.

(** X15.  The two-array operators leave out every position at which
    either array is missing, also from the means: the elements of [x] at
    the positions where [y] is missing have no influence on
    [weighted_cov(x, y)] and [weighted_corr(x, y)] over every axis,
    whatever they are. *)
Theorem unpaired_elements_do_not_count (sqrtQ : Q -> Q)
    (x x' y : DataArray) (w : option DataArray) (dim : dim_spec) :
  wf x -> dims x <> [] -> requested_dims x dim = dims x ->
  same_axes x (weights_or_ones x w) -> same_axes x y -> same_axes x x' ->
  local x -> local x' -> local y -> local (weights_or_ones x w) ->
  clean x -> clean x' -> clean y -> clean (weights_or_ones x w) ->
  (forall c, isnan (values y c) = false -> values x' c = values x c) ->
  same_outcome (weighted_cov x y w dim) (weighted_cov x' y w dim) /\
  same_outcome (weighted_corr sqrtQ x y w dim)
               (weighted_corr sqrtQ x' y w dim).
Proof.
  intros Hwf Hne Hreq Hw Hy Hx Hlx Hlx' Hly Hlw Hcx Hcx' Hcy Hcw Hag.
  pose proof (wf_same_axes x x' Hwf Hx) as Hwf'.
  pose proof Hx as [Hd Hs].
  assert (Hne' : dims x' <> []) by now rewrite Hd.
  assert (Hreq' : requested_dims x' dim = dims x').
  { destruct dim as [| s | l | l]; simpl in *; rewrite ?Hd; trivial. }
  assert (Ew : weights_or_ones x' w = weights_or_ones x w)
    by now apply weights_or_ones_same.
  assert (Hw' : same_axes x' (weights_or_ones x' w)).
  { rewrite Ew. apply (same_axes_trans x' x); [| assumption].
    now apply same_axes_sym. }
  assert (Hy' : same_axes x' y).
  { apply (same_axes_trans x' x); [| assumption]. now apply same_axes_sym. }
  assert (Ev : validity x' (Some y) = validity x (Some y)).
  { apply functional_extensionality. intros c. simpl. unfold valid1 at 2 4.
    destruct (isnan (values y c)) eqn:E; simpl.
    - now rewrite !andb_false_r.
    - unfold valid1. now rewrite (Hag c E). }
  assert (Gx := gwd_all x (Some y) w dim Hwf Hne Hreq Hw).
  assert (Gx' := gwd_all x' (Some y) w dim Hwf' Hne' Hreq' Hw').
  rewrite Ew, Ev, Hd in Gx'.
  set (wm := mask_by (validity x (Some y)) (weights_or_ones x w)) in *.
  assert (Hax : forall c, isnan (values wm c) = false ->
                          values x' c = values x c).
  { intros c Hc. apply Hag. unfold wm in Hc. simpl in Hc.
    unfold valid1 in Hc. destruct (isnan (values y c)); [| reflexivity].
    rewrite andb_false_r in Hc. discriminate. }
  assert (Hyy : forall c, isnan (values wm c) = false ->
                          values y c = values y c) by reflexivity.
  destruct (close_to 1 (normalized_sum wm env0)) eqn:Ec.
  - assert (Fx : _get_weights_and_dims x (Some y) w dim
                 = inr (wm, dims x)).
    { apply Gx. intros y' Ey. now injection Ey as <-. }
    assert (Fx' : _get_weights_and_dims x' (Some y) w dim
                  = inr (wm, dims x)).
    { apply Gx'. intros y' Ey. now injection Ey as <-. }
    split.
    + destruct (weighted_cov_full x y w dim wm (dims x)) as [n1 E1];
        trivial.
      destruct (weighted_cov_full x' y w dim wm (dims x)) as [n2 E2];
        trivial; try (rewrite Ew; assumption).
      rewrite E1, E2. split; [reflexivity |]. simpl. repeat split.
      unfold flatten. simpl. constructor; [| constructor].
      rewrite (wcov_agree x x' y y wm env0 Hx (same_axes_refl y) Hax Hyy).
      apply feq_refl.
    + destruct (weighted_corr_full_array sqrtQ x y w dim wm (dims x))
        as [n1 E1]; trivial.
      destruct (weighted_corr_full_array sqrtQ x' y w dim wm (dims x))
        as [n2 E2]; trivial; try (rewrite Ew; assumption).
      rewrite E1, E2. split; [reflexivity |]. simpl. repeat split.
      unfold flatten. simpl. constructor; [| constructor].
      rewrite (wcov_agree x x' y y wm env0 Hx (same_axes_refl y) Hax Hyy).
      rewrite (wcov_agree x x' x x' wm env0 Hx Hx Hax Hax).
      apply feq_refl.
  - assert (Fx : _get_weights_and_dims x (Some y) w dim
                 = inl NormalizationError).
    { apply Gx. intros y' Ey. now injection Ey as <-. }
    assert (Fx' : _get_weights_and_dims x' (Some y) w dim
                  = inl NormalizationError).
    { apply Gx'. intros y' Ey. now injection Ey as <-. }
    destruct (operators_fail_with_resolver sqrtQ x y w dim 0
                NormalizationError) as [_ F1].
    destruct (operators_fail_with_resolver sqrtQ x' y w dim 0
                NormalizationError) as [_ F2].
    destruct (F1 Fx) as (_ & C1 & R1). destruct (F2 Fx') as (_ & C2 & R2).
    split; (split; [now rewrite ?log_cov, ?log_corr |]).
    + now rewrite C1, C2.
    + now rewrite R1, R2.
Qed.

Lemma unpaired_elements_do_not_count_witness :
  same_outcome
    (weighted_cov (array1 "a" [Fin 1; Fin 7; Fin 3])
       (array1 "a" [Fin 2; NaN; Fin 5]) None DimNone)
    (weighted_cov (array1 "a" [Fin 1; Fin 100; Fin 3])
       (array1 "a" [Fin 2; NaN; Fin 5]) None DimNone) /\
  same_outcome
    (weighted_corr Qsqrt (array1 "a" [Fin 1; Fin 7; Fin 3])
       (array1 "a" [Fin 2; NaN; Fin 5]) None DimNone)
    (weighted_corr Qsqrt (array1 "a" [Fin 1; Fin 100; Fin 3])
       (array1 "a" [Fin 2; NaN; Fin 5]) None DimNone).
Proof.
  apply unpaired_elements_do_not_count.
  - apply wf_array1.
  - discriminate.
  - reflexivity.
  - apply same_axes_ones.
  - now split.
  - now split.
  - apply local_array1.
  - apply local_array1.
  - apply local_array1.
  - apply local_ones.
  - now apply clean_numbers.
  - now apply clean_numbers.
  - apply clean_array1. intros v [<- | [<- | [<- | []]]]; eauto.
  - apply clean_ones.
  - intros c. simpl.
    destruct (c "a") as [| [| [| n]]]; simpl; intros H;
      try discriminate; try reflexivity.
Defined.

(** ** A name given twice *)

Lemma dims_shape_of_duplicates (x : DataArray) (D : list string) :
  wf x -> (forall k, In k D -> In k (dims x)) -> ~ NoDup D ->
  (List.length (dims_shape x D) < List.length D)%nat.
Proof.
  intros [Hlen Hnd] Hin Hdup. unfold dims_shape. rewrite length_map.
  rewrite <- (length_map fst), (axes_fst_filter (fun k => mem k D))
    by assumption.
  destruct (Nat.lt_ge_cases (List.length (filter (fun k => mem k D) (dims x)))
                            (List.length D)) as [H | H]; [exact H |].
  exfalso. apply Hdup.
  apply (@NoDup_incl_NoDup _ (filter (fun k => mem k D) (dims x)) D).
  - now apply NoDup_filter.
  - exact H.
  - intros k Hk. apply filter_In in Hk as [_ Hk]. now apply mem_In.
Qed.

(** X16.  A name listed twice in [dim] is an error when the weights
    are omitted: the default weights get one length for the axis and two
    names, which xarray refuses with a [ValueError], in every operator and
    before anything is computed. *)
Theorem repeated_name_is_an_error (sqrtQ : Q -> Q) (x y : DataArray)
    (dim : dim_spec) (D : list string) (ddof : Z) :
  wf x -> resolve_dims x dim = inr D -> ~ NoDup D ->
  exists msg,
    (forall yo, _get_weights_and_dims x yo None dim = inl (ValueError msg)) /\
    snd (weighted_sum x None dim) = inl (ValueError msg) /\
    snd (weighted_mean x None dim) = inl (ValueError msg) /\
    snd (weighted_std sqrtQ x None dim ddof) = inl (ValueError msg) /\
    snd (weighted_rmsd sqrtQ x y None dim) = inl (ValueError msg) /\
    snd (weighted_cov x y None dim) = inl (ValueError msg) /\
    snd (weighted_corr sqrtQ x y None dim) = inl (ValueError msg).
Proof.
  intros Hwf Hres Hdup.
  pose proof (dims_shape_of_duplicates x D Hwf (resolved_names x dim D Hres)
                Hdup) as Hlt.
  assert (G : forall yo,
             _get_weights_and_dims x yo None dim
             = inl (ValueError
                      "different number of dimensions on data and dims")).
  { intros yo. apply gwd_masked_error. unfold masked_weights.
    rewrite Hres. simpl rbind. cbv zeta. unfold ones.
    destruct (Nat.eqb_spec (List.length (dims_shape x D)) (List.length D))
      as [E | _]; [lia | reflexivity]. }
  eexists. split; [exact G |].
  destruct (operators_fail_with_resolver sqrtQ x y None dim ddof
              (ValueError "different number of dimensions on data and dims"))
    as [F1 F2].
  destruct (F1 (G None)) as (A & B & C).
  destruct (F2 (G (Some y))) as (A' & B' & C').
  repeat split; assumption.
Qed.

Lemma repeated_name_is_an_error_witness :
  exists msg,
    snd (weighted_sum x22 None (DimList ["a"; "a"])) = inl (ValueError msg).
Proof.
  assert (Hwf : wf x22).
  { split; [reflexivity |]. repeat constructor; simpl; intuition discriminate. }
  destruct (repeated_name_is_an_error Qsqrt x22 x22 (DimList ["a"; "a"])
              ["a"; "a"] 0 Hwf eq_refl) as (msg & _ & H & _).
  - intros H. inversion H as [| k l Hn _]. apply Hn. now left.
  - exists msg. exact H.
Defined.

(** ** Missing weights *)

Lemma sum_mask_drop_weights (h h' : fval -> fval -> fval) (sel : nat -> bool)
    (xs : list fval) :
  (forall v w, feq (h v w) (h' v w)) -> (forall v, h v NaN = NaN) ->
  forall (i : nat) (ws : list fval) (acc acc' : fval),
    List.length ws = List.length xs -> feq acc acc' ->
    feq (fold_left (fun a v => fadd a (nan_to_zero v))
           (map (fun p => h (fst p) (snd p))
                (combine xs (mask_from sel i ws))) acc)
        (fold_left (fun a v => fadd a (nan_to_zero v))
           (map (fun p => h' (fst p) (snd p))
                (combine (drop_from sel i xs) (drop_from sel i ws))) acc').
Proof.
  intros Hh Hnan.
  induction xs as [| x xs IH]; intros i [| w ws] acc acc' Hlen Hacc;
    simpl in *; try discriminate; [assumption |].
  injection Hlen as Hlen. destruct (sel i); simpl.
  - apply IH; [assumption |]. rewrite Hnan. simpl.
    apply (feq_trans _ acc); [apply fadd_zero_r | assumption].
  - apply IH; [assumption |].
    apply fadd_feq; [assumption | apply nan_to_zero_feq, Hh].
Qed.

Lemma lsum_mask_drop_weights (h h' : fval -> fval -> fval)
    (sel : nat -> bool) (xs ws : list fval) :
  (forall v w, feq (h v w) (h' v w)) -> (forall v, h v NaN = NaN) ->
  List.length ws = List.length xs ->
  feq (lsum h xs (set_missing sel ws))
      (lsum h' (exclude sel xs) (exclude sel ws)).
Proof.
  intros Hh Hnan Hlen. unfold lsum, nansum, set_missing, exclude.
  apply sum_mask_drop_weights; trivial. reflexivity.
Qed.

Lemma masked_weight_nan (v : fval) : masked_weight v NaN = NaN.
Proof. unfold masked_weight. now destruct (isnan v). Qed.

Section MaskWeights.

Variables (sel : nat -> bool) (xs ws : list fval).
Hypothesis Hlen : List.length ws = List.length xs.

Lemma ltotal_mask_weights :
  feq (ltotal xs (set_missing sel ws))
      (ltotal (exclude sel xs) (exclude sel ws)).
Proof.
  apply lsum_mask_drop_weights; trivial.
  - intros v w. apply feq_refl.
  - apply masked_weight_nan.
Qed.

Lemma lnorm_mask_weights :
  feq (lnorm xs (set_missing sel ws))
      (lnorm (exclude sel xs) (exclude sel ws)).
Proof.
  apply lsum_mask_drop_weights; trivial.
  - intros v w. apply fdiv_feq; [apply feq_refl | apply ltotal_mask_weights].
  - intros v. now rewrite masked_weight_nan.
Qed.

Lemma lwsum_mask_weights :
  feq (lwsum xs (set_missing sel ws))
      (lwsum (exclude sel xs) (exclude sel ws)).
Proof.
  apply lsum_mask_drop_weights; trivial.
  - intros v w. apply feq_refl.
  - intros v. rewrite masked_weight_nan. apply fmul_nan_r.
Qed.

Lemma lmean_mask_weights :
  feq (lmean xs (set_missing sel ws))
      (lmean (exclude sel xs) (exclude sel ws)).
Proof.
  apply fdiv_feq; [apply lwsum_mask_weights | apply ltotal_mask_weights].
Qed.

End MaskWeights.

(** X17.  A weight that is missing takes its element out of the mean:
    for a vector with weights of the same length, NaN as the weight of
    some elements gives the outcome of the call from which these elements
    and their weights are removed, the same error or the same mean. *)
Theorem missing_weight_excludes_its_element (d : string) (sel : nat -> bool)
    (xs ws : list fval) :
  List.length ws = List.length xs ->
  same_outcome
    (weighted_mean (array1 d xs) (Some (array1 d (set_missing sel ws)))
                   DimNone)
    (weighted_mean (array1 d (exclude sel xs))
                   (Some (array1 d (exclude sel ws))) DimNone).
Proof.
  intros Hlen.
  assert (H1 : List.length (set_missing sel ws) = List.length xs).
  { unfold set_missing. now rewrite mask_from_length. }
  assert (H2 : List.length (exclude sel ws) = List.length (exclude sel xs)).
  { unfold exclude. now apply drop_from_length. }
  pose proof (close_to_feq _ _ (lnorm_mask_weights sel xs ws Hlen)) as Ec.
  destruct (close_to 1 (lnorm xs (set_missing sel ws))) eqn:E1.
  - destruct (weighted_mean_array1_ok d _ _ H1 E1)
      as (r1 & -> & Hd1 & Hs1 & Hf1).
    destruct (weighted_mean_array1_ok d _ _ H2 (eq_sym Ec))
      as (r2 & -> & Hd2 & Hs2 & Hf2).
    split; [reflexivity |]. simpl. rewrite Hd1, Hd2, Hs1, Hs2, Hf1, Hf2.
    repeat split. constructor; [| constructor].
    now apply lmean_mask_weights.
  - rewrite (weighted_mean_array1_error d _ _ H1 E1).
    rewrite (weighted_mean_array1_error d _ _ H2 (eq_sym Ec)).
    split; reflexivity.
Qed.

Lemma missing_weight_excludes_its_element_witness :
  same_outcome
    (weighted_mean (array1 "a" [Fin 1; Fin 2; Fin 3])
       (Some (array1 "a" (set_missing (Nat.eqb 1) [Fin 1; Fin 1; Fin 2])))
       DimNone)
    (weighted_mean (array1 "a" (exclude (Nat.eqb 1) [Fin 1; Fin 2; Fin 3]))
       (Some (array1 "a" (exclude (Nat.eqb 1) [Fin 1; Fin 1; Fin 2])))
       DimNone).
Proof.
  apply (missing_weight_excludes_its_element "a" (Nat.eqb 1)
           [Fin 1; Fin 2; Fin 3] [Fin 1; Fin 1; Fin 2]).
  reflexivity.
Defined.

(** ** The root-mean-square deviation is symmetric *)

(** The root-mean-square deviation over every axis, when the resolver
    returns. *)
Lemma weighted_rmsd_full (sqrtQ : Q -> Q) (x y : DataArray)
    (w : option DataArray) (dim : dim_spec) (wm : DataArray)
    (D : list string) :
  wf x -> dims x <> [] -> requested_dims x dim = dims x ->
  same_axes x (weights_or_ones x w) -> same_axes x y ->
  local x -> local y -> local (weights_or_ones x w) ->
  clean x -> clean y -> clean (weights_or_ones x w) ->
  _get_weights_and_dims x (Some y) w dim = inr (wm, D) ->
  exists nm,
    weighted_rmsd sqrtQ x y w dim
    = (default_log w
         "Computing root-mean-square-deviation with equal weights for all data points",
       inr (mkDA nm [] []
              (fun e => fsqrt sqrtQ
                 (fdiv (nansum
                          (map (fun c => fmul (fsquare (fsub (values x c)
                                                             (values y c)))
                                              (values wm c))
                               (all_cells x e)))
                       (total_weight wm e)))
              [] [])).
Proof.
  intros Hwf Hne Hreq Hw Hy Hlx Hly Hlw Hcx Hcy Hcw H.
  destruct (full_setup x (Some y) w dim wm D) as
    (E & -> & Hc & Hwm & Hlwm & Hcwm & Henc & H2); trivial.
  { intros y' Ey. injection Ey as <-. now split. }
  rewrite (weighted_rmsd_resolved sqrtQ x y w dim wm (dims x) H H2).
  assert (Hmx : forall e, valid1 x e = false -> values wm e = NaN).
  { intros e He. rewrite E. now apply mask_by_invalid1. }
  assert (Hmy : forall e, valid1 y e = false -> values wm e = NaN).
  { intros e He. rewrite E. now apply mask_by_invalid2. }
  destruct (weighted_rmsd_masked sqrtQ x y wm (dims x)) as [nm ->]; trivial.
  - intros e He. unfold valid1 in Hmx, Hmy.
    destruct (Hcx e) as [Ex | [p Ex]]; [apply Hmx; now rewrite Ex |].
    destruct (Hcy e) as [Ey | [q Ey]]; [apply Hmy; now rewrite Ey |].
    rewrite Ex, Ey in He. discriminate.
  - exists nm. simpl. now rewrite app_nil_r.
Qed.

Lemma squared_difference (x y wm : DataArray) (c : env) :
  clean x -> clean y -> clean wm ->
  (fmul (fsquare (fsub (values x c) (values y c))) (values wm c) = NaN \/
   exists q, fmul (fsquare (fsub (values x c) (values y c))) (values wm c)
             = Fin q) /\
  to_Q (fmul (fsquare (fsub (values x c) (values y c))) (values wm c))
  == to_Q (fmul (fsquare (fsub (values y c) (values x c))) (values wm c)).
Proof.
  intros Hx Hy Hw.
  destruct (Hx c) as [-> | [p ->]], (Hy c) as [-> | [q ->]],
    (Hw c) as [-> | [u ->]]; cbn [fmul fsquare fsub fadd fneg to_Q];
    (split; [eauto | ring]).
Qed.

(** X18.  The root-mean-square deviation is symmetric in its two
    arrays: over every axis, [weighted_rmsd(x, y)] and
    [weighted_rmsd(y, x)] issue the same warning and fail with the same
    error, or return [np.sqrt] of two equal numbers. *)
Theorem rmsd_is_symmetric (sqrtQ : Q -> Q) (x y : DataArray)
    (w : option DataArray) (dim : dim_spec) :
  wf x -> dims x <> [] -> requested_dims x dim = dims x ->
  same_axes x (weights_or_ones x w) -> same_axes x y ->
  local x -> local y -> local (weights_or_ones x w) ->
  clean x -> clean y -> clean (weights_or_ones x w) ->
  fst (weighted_rmsd sqrtQ x y w dim) = fst (weighted_rmsd sqrtQ y x w dim) /\
  match snd (weighted_rmsd sqrtQ x y w dim),
        snd (weighted_rmsd sqrtQ y x w dim) with
  | inl e1, inl e2 => e1 = e2
  | inr r1, inr r2 =>
      dims r1 = [] /\ dims r2 = [] /\
      exists q1 q2,
        flatten r1 = [fsqrt sqrtQ (Fin q1)] /\
        flatten r2 = [fsqrt sqrtQ (Fin q2)] /\ q1 == q2
  | _, _ => False
  end.
Proof.
  intros Hwf Hne Hreq Hw Hy Hlx Hly Hlw Hcx Hcy Hcw.
  pose proof (wf_same_axes x y Hwf Hy) as Hwfy.
  pose proof Hy as [Hd Hs].
  pose proof (same_axes_sym x y Hy) as Hyx.
  assert (Hney : dims y <> []) by now rewrite Hd.
  assert (Hreqy : requested_dims y dim = dims y).
  { destruct dim as [| s | l | l]; simpl in *; rewrite ?Hd; trivial. }
  assert (Ew : weights_or_ones y w = weights_or_ones x w)
    by now apply weights_or_ones_same.
  assert (Hwy : same_axes y (weights_or_ones y w)).
  { rewrite Ew. apply (same_axes_trans y x); assumption. }
  assert (Gx := gwd_all x (Some y) w dim Hwf Hne Hreq Hw).
  assert (Gy := gwd_all y (Some x) w dim Hwfy Hney Hreqy Hwy).
  rewrite Ew, <- validity_comm, Hd in Gy.
  set (wm := mask_by (validity x (Some y)) (weights_or_ones x w)) in *.
  split; [now rewrite !log_rmsd |].
  destruct (close_to 1 (normalized_sum wm env0)) eqn:Ec.
  - assert (Fx : _get_weights_and_dims x (Some y) w dim
                 = inr (wm, dims x)).
    { apply Gx. intros y' Ey. now injection Ey as <-. }
    assert (Fy : _get_weights_and_dims y (Some x) w dim
                 = inr (wm, dims x)).
    { apply Gy. intros y' Ey. now injection Ey as <-. }
    destruct (weighted_rmsd_full sqrtQ x y w dim wm (dims x)) as [n1 E1];
      trivial.
    destruct (weighted_rmsd_full sqrtQ y x w dim wm (dims x)) as [n2 E2];
      trivial; try (rewrite Ew; assumption).
    rewrite E1, E2. cbn [snd dims]. split; [reflexivity |].
    split; [reflexivity |].
    assert (Hcwm : clean wm) by now apply clean_mask_by.
    pose proof (total_weight_env0_Q wm Hcwm) as Et.
    assert (Hnz : ~ total_Q wm == 0).
    { intros Hz. rewrite (zero_total_not_close wm env0 _ Et Hz) in Ec.
      discriminate. }
    exists (qsum (map (fun c => to_Q (fmul (fsquare (fsub (values x c)
                                                          (values y c)))
                                           (values wm c)))
                      (all_cells x env0)) / total_Q wm).
    exists (qsum (map (fun c => to_Q (fmul (fsquare (fsub (values y c)
                                                          (values x c)))
                                           (values wm c)))
                      (all_cells y env0)) / total_Q wm).
    unfold flatten. cbn [dims shape values cells map]. rewrite Et.
    rewrite !nansum_map_Fin, !fdiv_Fin; trivial.
    + repeat split. unfold all_cells. rewrite Hd, Hs.
      apply Qmult_comp; [| reflexivity]. apply qsum_map_ext. intros c _.
      now apply squared_difference.
    + intros c _. now apply squared_difference.
    + intros c _. now apply squared_difference.
  - assert (Fx : _get_weights_and_dims x (Some y) w dim
                 = inl NormalizationError).
    { apply Gx. intros y' Ey. now injection Ey as <-. }
    assert (Fy : _get_weights_and_dims y (Some x) w dim
                 = inl NormalizationError).
    { apply Gy. intros y' Ey. now injection Ey as <-. }
    destruct (operators_fail_with_resolver sqrtQ x y w dim 0
                NormalizationError) as [_ F1].
    destruct (operators_fail_with_resolver sqrtQ y x w dim 0
                NormalizationError) as [_ F2].
    destruct (F1 Fx) as (-> & _). destruct (F2 Fy) as (-> & _).
    reflexivity.
Qed.

Lemma rmsd_is_symmetric_witness :
  match snd (weighted_rmsd Qsqrt v12 (array1 "a" [Fin 5; NaN]) None DimNone),
        snd (weighted_rmsd Qsqrt (array1 "a" [Fin 5; NaN]) v12 None DimNone)
  with
  | inl e1, inl e2 => e1 = e2
  | inr r1, inr r2 =>
      dims r1 = [] /\ dims r2 = [] /\
      exists q1 q2,
        flatten r1 = [fsqrt Qsqrt (Fin q1)] /\
        flatten r2 = [fsqrt Qsqrt (Fin q2)] /\ q1 == q2
  | _, _ => False
  end.
Proof.
  apply (rmsd_is_symmetric Qsqrt v12 (array1 "a" [Fin 5; NaN]) None DimNone).
  - apply wf_array1.
  - discriminate.
  - reflexivity.
  - apply same_axes_ones.
  - now split.
  - apply local_array1.
  - apply local_array1.
  - apply local_ones.
  - now apply clean_numbers.
  - apply clean_array1. intros v [<- | [<- | []]]; eauto.
  - apply clean_ones.
Defined.

(** ** Non-finite outcomes, as the code has them *)

Lemma nansum_zeros (l : list fval) :
  (forall v, In v l -> v = NaN \/ exists q, v = Fin q /\ q == 0) ->
  exists z, nansum l = Fin z /\ z == 0.
Proof.
  intros H. exists (qsum (map to_Q l)). split.
  - apply nansum_Fin. intros v Hv.
    destruct (H v Hv) as [-> | (q & -> & _)]; eauto.
  - rewrite <- (map_id l) at 1. rewrite map_map.
    apply qsum_zero. intros v Hv.
    destruct (H v Hv) as [-> | (q & -> & Hq)]; [reflexivity | exact Hq].
Qed.

Lemma qsum_indicator {A} (f : A -> bool) (l : list A) :
  qsum (map (fun a => if f a then 1 else 0) l)
  == inject_Z (Z.of_nat (List.length (filter f l))).
Proof.
  induction l as [| a l IH]; [reflexivity |].
  cbn [map filter]. rewrite qsum_cons, IH. destruct (f a).
  - cbn [List.length]. rewrite Nat2Z.inj_succ. unfold Z.succ.
    rewrite inject_Z_plus. ring.
  - ring.
Qed.

(** The default weights, masked: their total is the number of elements
    that are not missing. *)
Lemma default_total_is_count (x : DataArray) :
  total_Q (mask_by (valid1 x) (ones_like x)) == inject_Z (valid_count x).
Proof.
  unfold total_Q, valid_count.
  change (all_cells (mask_by (valid1 x) (ones_like x)) env0)
    with (all_cells x env0).
  rewrite <- qsum_indicator. apply qsum_map_ext. intros c _. simpl.
  now destruct (valid1 x c).
Qed.

Lemma valid_count_pos (x : DataArray) (c : env) :
  In c (all_cells x env0) -> isnan (values x c) = false ->
  (0 < valid_count x)%Z.
Proof.
  intros Hin Hv. unfold valid_count.
  assert (Hf : In c (filter (valid1 x) (all_cells x env0))).
  { apply filter_In. split; [exact Hin |]. unfold valid1. now rewrite Hv. }
  destruct (filter (valid1 x) (all_cells x env0)); [destruct Hf |].
  simpl. lia.
Qed.

(** With the default weights the resolver returns over all the axes as
    soon as one element is not missing. *)
Lemma gwd_default (x : DataArray) (dim : dim_spec) (c : env) :
  wf x -> dims x <> [] -> requested_dims x dim = dims x ->
  In c (all_cells x env0) -> isnan (values x c) = false ->
  _get_weights_and_dims x None None dim
  = inr (mask_by (valid1 x) (ones_like x), dims x).
Proof.
  intros Hwf Hne Hreq Hin Hv.
  rewrite (gwd_all x None None dim Hwf Hne Hreq (same_axes_ones x));
    [| discriminate].
  change (mask_by (validity x None) (weights_or_ones x None))
    with (mask_by (valid1 x) (ones_like x)).
  rewrite check_passes; [reflexivity | apply clean_mask_by, clean_ones |].
  rewrite default_total_is_count. intros H.
  pose proof (valid_count_pos x c Hin Hv) as Hp.
  assert (H0 : inject_Z (valid_count x) == inject_Z 0) by exact H.
  apply (proj1 (inject_Z_injective _ _)) in H0. lia.
Qed.

Lemma nonneg_sum_from (l : list fval) (acc : fval) :
  nonneg acc -> (forall v, In v l -> v = NaN \/ nonneg v) ->
  nonneg (fold_left (fun a v => fadd a (nan_to_zero v)) l acc).
Proof.
  revert acc. induction l as [| v l IH]; intros acc Ha H; [exact Ha |].
  simpl. apply IH; [| intros u Hu; apply H; now right].
  destruct (H v (or_introl eq_refl)) as [-> | Hv].
  - destruct acc; simpl in *; trivial. lra.
  - destruct acc, v; simpl in *; trivial; try contradiction. lra.
Qed.

Lemma nonneg_nansum (l : list fval) :
  (forall v, In v l -> v = NaN \/ nonneg v) -> nonneg (nansum l).
Proof. intros H. apply nonneg_sum_from; [simpl; lra | exact H]. Qed.

Lemma nonneg_square (v : fval) : fsquare v = NaN \/ nonneg (fsquare v).
Proof.
  destruct v as [q | | |]; simpl; auto. right.
  pose proof (square_nonneg q). lra.
Qed.

Lemma nonneg_default_term (x : DataArray) (s : fval) (c : env) :
  s = NaN \/ nonneg s ->
  fmul (values (mask_by (valid1 x) (ones_like x)) c) s = NaN \/
  nonneg (fmul (values (mask_by (valid1 x) (ones_like x)) c) s).
Proof.
  intros H. simpl. destruct (valid1 x c); [| now left].
  destruct H as [-> | H]; [now left |].
  destruct s as [q | | |]; simpl in *; try contradiction; auto.
  right. lra.
Qed.

(** The root of a quotient by a negative number: NaN, or zero when the
    dividend is zero. *)
Lemma root_over_negative (sqrtQ : Q -> Q) (s : fval) (e : Q) :
  (forall q, q == 0 -> sqrtQ q == 0) -> nonneg s -> e < 0 ->
  fsqrt sqrtQ (fdiv s (Fin e)) = NaN \/
  exists q, fsqrt sqrtQ (fdiv s (Fin e)) = Fin q /\ q == 0.
Proof.
  intros Hs Hn He. destruct s as [q | | |]; simpl in Hn; try contradiction.
  - destruct (Qle_lt_or_eq _ _ Hn) as [Hpos | Hz].
    + left. now apply fsqrt_negative_quotient.
    + right. rewrite fdiv_Fin by lra.
      assert (E : q / e == 0) by (rewrite <- Hz; field; lra).
      unfold fsqrt. pose proof E as E'. apply sgn_Eq in E'. rewrite E'.
      eexists. split; [reflexivity | now apply Hs].
  - left. simpl. apply sgn_Lt in He. now rewrite He.
Qed.

(** An array whose numbers are all the same has a zero variance, under
    weights that are missing wherever it is. *)
Lemma constant_cov_zero (z wm : DataArray) (k : Z) :
  wf z -> same_axes z wm -> local z -> local wm -> clean z -> clean wm ->
  close_to 1 (normalized_sum wm env0) = true ->
  (forall c, valid1 z c = false -> values wm c = NaN) ->
  constant_at k z -> cov_Q z z wm == 0.
Proof.
  intros Hwf Hw Hlz Hlw Hcz Hcw Hc Hm Hk.
  pose proof (total_Q_nonzero z wm Hwf Hw Hlw Hcw Hc) as Ht.
  assert (Em : wmean_Q z wm == inject_Z k).
  { unfold wmean_Q.
    assert (Es : wsum_Q z wm == inject_Z k * total_Q wm).
    { unfold wsum_Q, total_Q.
      unfold all_cells. destruct Hw as [-> ->]. rewrite <- qsum_map_scale.
      apply qsum_map_ext. intros c _.
      destruct (clean_cases z c Hcz) as [[E V] | [p [E V]]].
      - rewrite E, (Hm c V). simpl. ring.
      - rewrite E. destruct (Hcw c) as [-> | [u ->]]; simpl; [ring |].
        rewrite (Hk c p E). ring. }
    rewrite Es. field. exact Ht. }
  unfold cov_Q.
  assert (Es : qsum (map (fun c => to_Q (fmul (dev_prod z z wm c)
                                              (values wm c)))
                         (all_cells z env0)) == 0).
  { apply qsum_zero. intros c _.
    destruct (dev_prod_cases z z wm Hwf Hw (same_axes_refl z) Hlz Hlz Hlw
                Hcz Hcz Hcw Hc c) as [[_ ->] | (p & q & Ep & _ & ->)];
      [reflexivity |].
    destruct (Hcw c) as [-> | [u ->]]; simpl; [reflexivity |].
    rewrite (Hk c p Ep), Em. ring. }
  rewrite Es. field. exact Ht.
Qed.

(** C3, as the code has it.  A total of the masked weights that is zero
    is not propagated: where every masked weight is zero or missing, the
    normalisation check fails, and the resolver and every operator raise
    its assertion error.  The other two divisions raise nothing.  With
    the default weights, over all the axes of an array with an element
    that is not missing, the total of the weights is the number [n] of
    such elements, and [weighted_std] returns: a non-finite value when
    [n = ddof], and NaN or zero when [n < ddof].  With the default
    weights, [weighted_corr] of two arrays of numbers and missing values
    with an element present in both returns a non-finite value when one
    of them is constant.  The bounds on the number of elements, on the
    constant (an integer) and on the magnitudes keep every sum and
    product of the computation within the range of binary64, where the
    mean of the constant array is the constant itself. *)
Theorem nonfinite_outcomes (sqrtQ : Q -> Q) :
  (forall q, q == 0 -> sqrtQ q == 0) ->
  (forall x yo w dim wm D tot ddof,
     wf x -> (forall y, yo = Some y -> wf y) ->
     (forall w0, w = Some w0 -> wf w0) ->
     masked_weights x yo w dim = inr (wm, D) ->
     (forall c, values wm c = NaN \/ exists q, values wm c = Fin q /\ q == 0) ->
     da_sum wm D = inr tot -> flatten tot <> [] ->
     _get_weights_and_dims x yo w dim = inl NormalizationError /\
     match yo with
     | None => snd (weighted_sum x w dim) = inl NormalizationError /\
               snd (weighted_mean x w dim) = inl NormalizationError /\
               snd (weighted_std sqrtQ x w dim ddof) = inl NormalizationError
     | Some y => snd (weighted_rmsd sqrtQ x y w dim) = inl NormalizationError /\
                 snd (weighted_cov x y w dim) = inl NormalizationError /\
                 snd (weighted_corr sqrtQ x y w dim) = inl NormalizationError
     end) /\
  (forall x dim ddof c,
     wf x -> dims x <> [] -> requested_dims x dim = dims x ->
     cells_below 20 x ->
     In c (all_cells x env0) -> isnan (values x c) = false ->
     exists r v,
       snd (weighted_std sqrtQ x None dim ddof) = inr r /\
       flatten r = [v] /\
       (valid_count x = ddof -> isfinite v = false) /\
       ((valid_count x < ddof)%Z ->
        v = NaN \/ exists q, v = Fin q /\ q == 0)) /\
  (forall x y dim k c,
     wf x -> dims x <> [] -> requested_dims x dim = dims x ->
     same_axes x y -> local x -> local y -> clean x -> clean y ->
     cells_below 20 x -> (Z.abs k <= 2 ^ 30)%Z ->
     (constant_at k x /\ magnitude_below 500 y) \/
     (constant_at k y /\ magnitude_below 500 x) ->
     In c (all_cells x env0) ->
     isnan (values x c) = false -> isnan (values y c) = false ->
     exists r v,
       snd (weighted_corr sqrtQ x y None dim) = inr r /\
       flatten r = [v] /\ isfinite v = false).
Proof.
  intros Hs. split; [| split].
  - intros x yo w dim wm D tot ddof Hx Hy Hw Hm Hz Htot Hne.
    destruct (da_sum_inr wm D tot Htot) as (Et & _).
    assert (Hall : forall e, exists z, values tot e = Fin z /\ z == 0).
    { intros e. rewrite Et. simpl. apply nansum_zeros. intros v Hv.
      apply in_map_iff in Hv. destruct Hv as (c & <- & _). apply Hz. }
    assert (Hin : exists z, In (Fin z) (flatten tot) /\ z == 0).
    { unfold flatten in Hne |- *.
      destruct (cells (dims tot) (shape tot) env0) as [| e l];
        [now destruct Hne |].
      destruct (Hall e) as (z & Ez & Hz0). exists z.
      split; [left; exact Ez | exact Hz0]. }
    destruct Hin as (z & Hin & Hz0).
    pose proof (gwd_zero_total x yo w dim wm D tot z Hx Hy Hw Hm Htot Hin Hz0)
      as E.
    split; [exact E |].
    destruct yo as [y |].
    + now apply (operators_fail_with_resolver sqrtQ x y w dim ddof).
    + now apply (operators_fail_with_resolver sqrtQ x x w dim ddof).
  - intros x dim ddof c Hwf Hne Hreq _ Hin Hv.
    pose proof (gwd_default x dim c Hwf Hne Hreq Hin Hv) as Hg.
    set (wm := mask_by (valid1 x) (ones_like x)) in *.
    destruct (weighted_std_full sqrtQ x None dim ddof wm (dims x)
                Hwf Hne Hreq (same_axes_ones x) Hg) as [nm E].
    assert (Hcw : clean wm) by apply clean_mask_by, clean_ones.
    eexists.
    exists (fsqrt sqrtQ (fdiv (wssd x wm env0)
                              (fsub (total_weight wm env0)
                                    (Fin (inject_Z ddof))))).
    rewrite E. split; [reflexivity |]. split; [reflexivity |].
    rewrite (total_weight_env0_Q wm Hcw).
    cbn [fsub fadd fneg].
    assert (Et : total_Q wm + - inject_Z ddof
                 == inject_Z (valid_count x - ddof)).
    { unfold wm. rewrite default_total_is_count.
      unfold Z.sub. rewrite inject_Z_plus, inject_Z_opp. reflexivity. }
    split.
    + intros Hz. apply fsqrt_nonfinite, fdiv_zero. rewrite Et, Hz, Z.sub_diag.
      reflexivity.
    + intros Hlt. apply root_over_negative; [exact Hs | |].
      * apply nonneg_nansum. intros v Hin'. apply in_map_iff in Hin'.
        destruct Hin' as (a & <- & _).
        apply nonneg_default_term, nonneg_square.
      * rewrite Et. change 0 with (inject_Z 0). rewrite <- Zlt_Qlt. lia.
  - intros x y dim k c Hwf Hne Hreq Hy Hlx Hly Hcx Hcy _ _ Hk Hin Hvx Hvy.
    assert (Hyo : forall y', Some y = Some y' -> same_axes x y').
    { intros y' E. now injection E as <-. }
    pose proof (gwd_all x (Some y) None dim Hwf Hne Hreq (same_axes_ones x)
                  Hyo) as Hg.
    set (wm := mask_by (validity x (Some y)) (weights_or_ones x None)) in *.
    assert (Hcw : clean wm) by apply clean_mask_by, clean_ones.
    assert (Hc : close_to 1 (normalized_sum wm env0) = true).
    { apply check_passes; [exact Hcw |]. intros H0.
      assert (Hpos : 0 < total_Q wm).
      { unfold total_Q.
        apply (qsum_map_pos _ _ c).
        - intros a _. unfold wm. simpl.
          destruct (valid1 x a && valid1 y a); simpl; lra.
        - exact Hin.
        - unfold wm. simpl. unfold valid1. rewrite Hvx, Hvy. simpl. lra. }
      lra. }
    rewrite Hc in Hg.
    destruct (weighted_corr_full sqrtQ x y None dim wm (dims x))
      as (r & Er & Ef); trivial;
      try apply same_axes_ones; try apply local_ones; try apply clean_ones.
    assert (Hwm : same_axes x wm) by apply same_axes_ones.
    assert (Hlw : local wm).
    { apply local_mask_by; trivial; [| apply local_ones].
      intros y' Ey. injection Ey as <-. split; [assumption | apply Hy]. }
    eexists. eexists. rewrite Er. split; [reflexivity |].
    split; [exact Ef |]. apply fdiv_zero_root; [exact Hs |].
    destruct Hk as [[Hk _] | [Hk _]]; [left | right].
    + apply (constant_cov_zero x wm k); trivial.
      intros a Ha. now apply mask_by_invalid1.
    + apply (constant_cov_zero y wm k); trivial.
      * now apply (wf_same_axes x).
      * apply (same_axes_trans y x wm); [now apply same_axes_sym | exact Hwm].
      * intros a Ha. now apply mask_by_invalid2.
Qed.

Lemma nonfinite_outcomes_witness :
  snd (weighted_mean v12 (Some zeros2) DimNone) = inl NormalizationError /\
  (exists r v, snd (weighted_std Qsqrt v12 None DimNone 2) = inr r /\
               flatten r = [v] /\ isfinite v = false) /\
  (exists r v, snd (weighted_std Qsqrt v5 None DimNone 2) = inr r /\
               flatten r = [v] /\
               (v = NaN \/ exists q, v = Fin q /\ q == 0)) /\
  (exists r v, snd (weighted_corr Qsqrt c11 v12 None DimNone) = inr r /\
               flatten r = [v] /\ isfinite v = false).
Proof.
  destruct (nonfinite_outcomes Qsqrt Qsqrt_zero) as (HA & HB & HC).
  split; [| split; [| split]].
  - destruct (da_sum (mask_by (valid1 v12) zeros2) ["a"]) as [e | tot] eqn:Et;
      [vm_compute in Et; discriminate |].
    destruct (HA v12 None (Some zeros2) DimNone
                 (mask_by (valid1 v12) zeros2) ["a"] tot 0%Z)
      as (_ & _ & Hm & _); trivial.
    + apply wf_array1.
    + discriminate.
    + intros w0 E. injection E as <-. apply wf_array1.
    + intros c. simpl. destruct (valid1 v12 c); [| now left].
      destruct (c "a") as [| [| n]]; simpl.
      * right. exists 0. now split.
      * right. exists 0. now split.
      * left. now destruct n.
    + vm_compute in Et. injection Et as <-. discriminate.
  - destruct (HB v12 DimNone 2%Z (upd env0 "a" 0))
      as (r & v & Hr & Hf & Hz & _).
    + apply wf_array1.
    + discriminate.
    + reflexivity.
    + vm_compute. discriminate.
    + simpl. auto.
    + reflexivity.
    + exists r, v. split; [exact Hr |]. split; [exact Hf |].
      apply Hz. reflexivity.
  - destruct (HB v5 DimNone 2%Z (upd env0 "a" 0))
      as (r & v & Hr & Hf & _ & Hn).
    + apply wf_array1.
    + discriminate.
    + reflexivity.
    + vm_compute. discriminate.
    + simpl. auto.
    + reflexivity.
    + exists r, v. split; [exact Hr |]. split; [exact Hf |].
      apply Hn. reflexivity.
  - destruct (HC c11 v12 DimNone 1%Z (upd env0 "a" 0))
      as (r & v & Hr & Hf & Hz).
    + apply wf_array1.
    + discriminate.
    + reflexivity.
    + now split.
    + apply local_array1.
    + apply local_array1.
    + now apply clean_numbers.
    + now apply clean_numbers.
    + vm_compute. discriminate.
    + vm_compute. discriminate.
    + left. split.
      * intros c p. simpl.
        destruct (c "a") as [| [| n]]; simpl; intros H;
          try discriminate; try (destruct n; discriminate);
          injection H as <-; reflexivity.
      * intros c p. simpl.
        destruct (c "a") as [| [| n]]; simpl; intros H;
          try discriminate; try (destruct n; discriminate);
          injection H as <-; vm_compute; discriminate.
    + simpl. auto.
    + reflexivity.
    + reflexivity.
    + exists r, v. split; [exact Hr |]. split; [exact Hf |]. exact Hz.
Defined.

(** ** The correlation of an array with itself, within range *)

Lemma apart_distinct (k : Z) (p q : Q) : apart k p q -> ~ p == q.
Proof.
  unfold apart. intros H E.
  assert (Z0 : Qabs (p - q) == 0).
  { assert (E0 : p - q == 0) by (rewrite E; ring). now rewrite E0. }
  rewrite Z0 in H. lra.
Qed.

(** C9, as the code has it.  For an array of numbers and missing values
    with two numbers that differ, and within the range in which binary64
    neither overflows nor underflows on the squared deviations and on the
    square of the covariance (magnitudes up to [2 ^ 100], the two numbers
    [2 ^ (-100)] apart, up to [2 ^ 20] elements), [weighted_corr(x, x)]
    over all the axes and with the default weights returns 1, with the
    warning for default weights. *)
Theorem corr_self_is_one (sqrtQ : Q -> Q) (x : DataArray) (dim : dim_spec)
    (c1 c2 : env) (p1 p2 : Q) :
  (forall q, 0 <= q -> sqrtQ (q * q) == q) ->
  wf x -> local x -> clean x -> requested_dims x dim = dims x ->
  magnitude_below 100 x -> cells_below 20 x ->
  In c1 (all_cells x env0) -> In c2 (all_cells x env0) ->
  values x c1 = Fin p1 -> values x c2 = Fin p2 -> apart 100 p1 p2 ->
  exists r v,
    weighted_corr sqrtQ x x None dim
    = (["Computing weighted correlation with equal weights for all data points"],
       inr r) /\
    flatten r = [Fin v] /\ v == 1.
Proof.
  intros Hs Hwf Hlx Hcx Hreq _ _ Hin1 Hin2 E1 E2 Hap.
  pose proof (apart_distinct 100 p1 p2 Hap) as Hne.
  pose proof (dims_nonempty_of_two_cells x c1 c2 p1 p2 Hin1 Hin2 E1 E2 Hne)
    as Hd.
  set (wm := mask_by (validity x (Some x)) (ones_like x)).
  assert (Hw : same_axes x wm) by apply same_axes_ones.
  assert (Hcw : clean wm) by (apply clean_mask_by, clean_ones).
  assert (Hlw : local wm).
  { apply local_mask_by; trivial.
    - intros y E. injection E as <-. now split.
    - apply local_ones. }
  assert (Htot : 0 < total_Q wm) by now apply (default_total_pos x c1 p1).
  assert (Hc : close_to 1 (normalized_sum wm env0) = true).
  { apply check_passes; [assumption | lra]. }
  assert (Hyo : forall y, Some x = Some y -> same_axes x y).
  { intros y E. injection E as <-. apply same_axes_refl. }
  assert (Hg : _get_weights_and_dims x (Some x) None dim
               = inr (wm, dims x)).
  { rewrite (gwd_all x (Some x) None dim Hwf Hd Hreq
               (same_axes_ones x) Hyo).
    simpl weights_or_ones. fold wm. now rewrite Hc. }
  destruct (weighted_corr_full sqrtQ x x None dim wm (dims x))
    as (r & Hr & Hf); trivial;
    try apply same_axes_ones; try apply same_axes_refl;
    try apply local_ones; try apply clean_ones.
  assert (Hcov : 0 < cov_Q x x wm).
  { unfold cov_Q.
    pose proof (dev_prod_cases x x wm Hwf Hw (same_axes_refl x) Hlx Hlx Hlw
                  Hcx Hcx Hcw Hc) as Hcases.
    assert (Hnn : forall c,
                    0 <= to_Q (fmul (dev_prod x x wm c) (values wm c))).
    { intros c. destruct (Hcases c) as [[_ E] | (p & q & Ep & Eq & E)];
        rewrite E.
      - change (fmul NaN (values wm c)) with NaN. cbn [to_Q]. lra.
      - rewrite Ep in Eq. injection Eq as <-.
        assert (Ew : values wm c = Fin 1).
        { simpl. unfold valid1. now rewrite Ep. }
        rewrite Ew. cbn [fmul to_Q]. apply square_nonneg. }
    assert (Hpos : forall c p, In c (all_cells x env0) ->
                     values x c = Fin p -> ~ p == wmean_Q x wm ->
                     0 < qsum (map (fun c => to_Q (fmul (dev_prod x x wm c)
                                                        (values wm c)))
                                   (all_cells x env0))).
    { intros c p Hin Ep Hp.
      apply (qsum_map_pos _ _ c); [intros b _; apply Hnn | exact Hin |].
      destruct (Hcases c) as [[[V | V] _] | (p' & q' & Ep' & Eq' & E)].
        + unfold valid1 in V. rewrite Ep in V. discriminate.
        + unfold valid1 in V. rewrite Ep in V. discriminate.
        + rewrite E. rewrite Ep in Ep', Eq'.
          injection Ep' as <-. injection Eq' as <-.
          assert (Ew : values wm c = Fin 1).
          { simpl. unfold valid1. now rewrite Ep. }
          rewrite Ew. cbn [fmul to_Q]. now apply square_pos. }
    assert (Hnum : 0 < qsum (map (fun c => to_Q (fmul (dev_prod x x wm c)
                                                      (values wm c)))
                                 (all_cells x env0))).
    { destruct (Qeq_dec p1 (wmean_Q x wm)) as [Em | Em].
      - apply (Hpos c2 p2); trivial. intros E. apply Hne.
        now rewrite Em, E.
      - now apply (Hpos c1 p1). }
    apply Qlt_shift_div_l; [assumption | lra]. }
  destruct (fdiv_self_root sqrtQ (cov_Q x x wm) Hs Hcov) as (v & Ev & Hv).
  exists r, v. split; [exact Hr |]. split; [| exact Hv].
  rewrite Hf. now rewrite Ev.
Qed.

Lemma corr_self_is_one_witness :
  exists r v,
    weighted_corr Qsqrt v12 v12 None DimNone
    = (["Computing weighted correlation with equal weights for all data points"],
       inr r) /\
    flatten r = [Fin v] /\ v == 1.
Proof.
  apply (corr_self_is_one Qsqrt v12 DimNone (upd env0 "a" 0)
           (upd env0 "a" 1) 1 2).
  - exact Qsqrt_square.
  - apply wf_array1.
  - apply local_array1.
  - apply clean_array1. intros v [<- | [<- | []]]; right; eauto.
  - reflexivity.
  - intros c p. simpl.
    destruct (c "a") as [| [| n]]; simpl; intros H;
      try discriminate; try (destruct n; discriminate);
      injection H as <-; vm_compute; discriminate.
  - vm_compute. discriminate.
  - simpl. auto.
  - simpl. auto.
  - reflexivity.
  - reflexivity.
  - vm_compute. discriminate.
Defined.

(** C9 as stated fails: the vector [1, 2, inf] has two distinct valid
    values, and its mean, its deviations and its covariance with itself
    are infinite, so that [weighted_corr(x, x)] returns NaN, which is not
    within any tolerance of 1. *)
Lemma corr_self_with_an_infinity :
  values v12inf (upd env0 "a" 0) = Fin 1 /\
  values v12inf (upd env0 "a" 1) = Fin 2 /\
  observe (weighted_corr Qsqrt v12inf v12inf None DimNone)
  = (["Computing weighted correlation with equal weights for all data points"],
     inr (mkView [] [] [NaN] [] [])) /\
  ~ within_tolerance NaN.
Proof.
  split; [reflexivity |]. split; [reflexivity |].
  split; [vm_compute; reflexivity |].
  intros (q & E & _). discriminate.
Qed.
